(** * Outline client (Electron): process supervision and routing-service client

    A shallow embedding of [src/electron/processes.ts] and
    [src/electron/routing.ts].

    Both files are event-driven: methods are called by the orchestrator,
    and Node calls the registered listeners back when a child process or a
    socket emits an event.  Each class is therefore embedded as

    - a record holding the fields of the instance together with the part of
      the runtime the code depends on (which listeners are registered on
      which emitter, the state of the promises it created);
    - one computation per method and per listener, written in a small
      state-and-trace monad so that the body reads like the source;
    - a [step] function that dispatches one event of the Node event loop.

    The trace records what leaves the instance: console output, calls on
    sockets and child processes, invocations of caller-supplied listeners
    and the settling of the promises handed to callers. *)

From Stdlib Require Import ZArith String List Bool Lia DecimalString.
From stdpp Require Import base list.
Import ListNotations.

Local Open Scope string_scope.
Local Open Scope list_scope.

(** ** A state-and-trace monad *)

Section StateTrace.
Context {S E : Type}.

Definition M (A : Type) : Type := S -> A * S * list E.

Definition ret {A} (a : A) : M A := fun s => (a, s, []).

Definition bind {A B} (m : M A) (k : A -> M B) : M B :=
  fun s =>
    let '(a, s1, t1) := m s in
    let '(b, s2, t2) := k a s1 in
    (b, s2, t1 ++ t2).

Definition get : M S := fun s => (s, s, []).
Definition modify (f : S -> S) : M unit := fun s => (tt, f s, []).
Definition emit (e : E) : M unit := fun s => (tt, s, [e]).

(** [when c m] is [if (c) { m }]. *)
Definition when (c : bool) (m : M unit) : M unit := if c then m else ret tt.

(** [for_each xs f] is [for (const x of xs) f(x)]. *)
Fixpoint for_each {A} (xs : list A) (f : A -> M unit) : M unit :=
  match xs with
  | [] => ret tt
  | x :: xs' => bind (f x) (fun _ => for_each xs' f)
  end.

Definition state_of {A} (r : A * S * list E) : S := snd (fst r).
Definition value_of {A} (r : A * S * list E) : A := fst (fst r).
Definition trace_of {A} (r : A * S * list E) : list E := snd r.
End StateTrace.

Arguments M : clear implicits.

Declare Scope monad_scope.
Delimit Scope monad_scope with M.
Notation "'let*' x ':=' m 'in' k" := (bind m (fun x => k))
  (at level 10, x name, m at level 100, k at level 200, only parsing) : monad_scope.
Notation "m ';;' k" := (bind m (fun _ => k))
  (at level 100, k at level 200, only parsing, right associativity) : monad_scope.

(** Identity of a caller-supplied callback.  The code never looks inside a
    listener; it only stores it and calls it. *)
Definition Callback := nat.

(** [n.toString()] and [''+n] for a JavaScript number holding an integer. *)
Definition number_toString (n : Z) : string := NilZero.string_of_int (Z.to_int n).

(** [x || ''] for an optional string. *)
Definition or_empty (x : option string) : string :=
  match x with
  | Some s => s
  | None => ""
  end.

(** ** processes.ts *)

Definition isLinux (platform : string) : bool := String.eqb platform "linux".

Definition TUN2SOCKS_TAP_DEVICE_NAME (platform : string) : string :=
  if isLinux platform then "outline-tun0" else "outline-tap0".
Definition TUN2SOCKS_TAP_DEVICE_IP : string := "10.0.85.2".
Definition TUN2SOCKS_VIRTUAL_ROUTER_IP : string := "10.0.85.1".
Definition TUN2SOCKS_TAP_DEVICE_NETWORK : string := "10.0.85.0".
Definition TUN2SOCKS_VIRTUAL_ROUTER_NETMASK : string := "255.255.255.0".

Module SingletonProcess.

(** A child process is named by its rank among the children spawned. *)
Abbreviation Pid := nat (only parsing).

(** What the code depends on in a [ChildProcess]: the listeners it has
    registered on it. *)
Record ChildProcess := {
  on_error : bool;
  on_exit : bool
}.

Record State := {
  (* fields of the class *)
  path : string;
  process : option Pid;
  exitListener : option Callback;
  (* every child spawned so far, indexed by [Pid] *)
  children : list ChildProcess
}.

Inductive Effect :=
| Spawn (pid : Pid) (path : string) (args : list string)
| Kill (pid : Pid)
(** [this.exitListener()]; [seen] is [this.process] as the listener
    finds it when it starts running. *)
| InvokeExitListener (l : Callback) (seen : option Pid).

Definition constructor (path : string) : State :=
  {| path := path; process := None; exitListener := None; children := [] |}.

Definition set_process (p : option Pid) (this : State) : State :=
  {| path := path this; process := p;
     exitListener := exitListener this; children := children this |}.
Definition set_exitListener (l : option Callback) (this : State) : State :=
  {| path := path this; process := process this;
     exitListener := l; children := children this |}.
Definition set_children (cs : list ChildProcess) (this : State) : State :=
  {| path := path this; process := process this;
     exitListener := exitListener this; children := cs |}.

Local Open Scope monad_scope.

Definition setExitListener (newListener : option Callback) : M State Effect unit :=
  modify (set_exitListener newListener).

(** [spawn(path, args)]: a new child with no listener yet. *)
Definition spawn (path : string) (args : list string) : M State Effect Pid :=
  let* this := get in
  let pid := length (children this) in
  modify (set_children (children this ++ [{| on_error := false; on_exit := false |}]));;
  emit (Spawn pid path args);;
  ret pid.

Definition add_error_listener (pid : Pid) : M State Effect unit :=
  modify (fun this =>
    set_children (alter (fun c => {| on_error := true; on_exit := on_exit c |}) pid
                        (children this)) this).

Definition add_exit_listener (pid : Pid) : M State Effect unit :=
  modify (fun this =>
    set_children (alter (fun c => {| on_error := on_error c; on_exit := true |}) pid
                        (children this)) this).

Definition removeAllListeners (pid : Pid) : M State Effect unit :=
  modify (fun this =>
    set_children (alter (fun _ => {| on_error := false; on_exit := false |}) pid
                        (children this)) this).

(** The closure [onExit] of [startInternal].  It reads [this.process] when
    it runs, not the child it was registered on. *)
Definition onExit : M State Effect unit :=
  let* this := get in
  match process this with
  | Some p => removeAllListeners p;; modify (set_process None)
  | None => ret tt
  end;;
  let* this := get in
  match exitListener this with
  | Some l => emit (InvokeExitListener l (process this))
  | None => ret tt
  end.

Definition startInternal (args : list string) : M State Effect unit :=
  let* this := get in
  let* child := spawn (path this) args in
  modify (set_process (Some child));;
  add_error_listener child;;
  add_exit_listener child.

Definition stop : M State Effect unit :=
  let* this := get in
  match process this with
  | Some p => emit (Kill p)
  | None => ret tt
  end.

(** Events of the event loop that reach an instance: calls of its methods
    and the two events of a child it listens to. *)
Inductive Event :=
| CallSetExitListener (newListener : option Callback)
| CallStartInternal (args : list string)
| CallStop
| ChildError (pid : Pid)
| ChildExit (pid : Pid).

Definition listens (sel : ChildProcess -> bool) (pid : Pid) (this : State) : bool :=
  match children this !! pid with
  | Some c => sel c
  | None => false
  end.

Definition step (ev : Event) : M State Effect unit :=
  match ev with
  | CallSetExitListener l => setExitListener l
  | CallStartInternal args => startInternal args
  | CallStop => stop
  | ChildError pid =>
      let* this := get in when (listens on_error pid this) onExit
  | ChildExit pid =>
      let* this := get in when (listens on_exit pid this) onExit
  end.

(** A run keeps, for every event, the trace of its step. *)
Fixpoint run (evs : list Event) (this : State) : State * list (Event * list Effect) :=
  match evs with
  | [] => (this, [])
  | ev :: evs' =>
      let r := step ev this in
      let r' := run evs' (state_of r) in
      (fst r', (ev, trace_of r) :: snd r')
  end.

Definition is_notification (e : Effect) : bool :=
  match e with
  | InvokeExitListener _ _ => true
  | _ => false
  end.

Definition concerns (pid : Pid) (ev : Event) : bool :=
  match ev with
  | ChildError p | ChildExit p => Nat.eqb p pid
  | _ => false
  end.

(** Number of exit notifications caused by events of child [pid]. *)
Fixpoint notifications (pid : Pid) (log : list (Event * list Effect)) : nat :=
  match log with
  | [] => 0
  | (ev, tr) :: log' =>
      (if concerns pid ev then length (List.filter is_notification tr) else 0)
      + notifications pid log'
  end.

(** Vocabulary of the statements below. *)

Definition listening (pid : Pid) (this : State) : bool :=
  listens on_error pid this || listens on_exit pid this.

(** No child is tracked and no child of an earlier start still has a
    listener: the state before the first start and after every completed
    start/stop cycle. *)
Definition idle (this : State) : Prop :=
  process this = None /\ forall p, listening p this = false.

Definition is_start (ev : Event) : bool :=
  match ev with
  | CallStartInternal _ => true
  | _ => false
  end.

(** Events that may precede the first event of child [pid] within its
    cycle: no other start, and nothing from [pid] itself. *)
Definition within_cycle (pid : Pid) (evs : list Event) : bool :=
  forallb (fun ev => negb (is_start ev) && negb (concerns pid ev)) evs.

Definition notify (l : option Callback) : list Effect :=
  match l with
  | Some f => [InvokeExitListener f None]
  | None => []
  end.

(** Vocabulary of the proofs. *)

(** The listeners of child [pid] are gone. *)
Definition silent (pid : Pid) (this : State) : Prop :=
  pid < length (children this) /\ listening pid this = false.

(** Child [pid] is the child of the instance, with both listeners in place,
    and no other child has a listener. *)
Definition tracked (pid : Pid) (this : State) : Prop :=
  process this = Some pid /\
  listens on_error pid this = true /\
  listens on_exit pid this = true /\
  forall p, p <> pid -> listening p this = false.

(** Between the start of child [pid] and its first event, as long as
    nothing else is started: either [pid] is the child of the instance and
    has both listeners, or an event of an older child has cleared the
    instance and taken the listeners of [pid] away. *)
Definition in_cycle (pid : Pid) (this : State) : Prop :=
  pid < length (children this) /\
  ((listens on_error pid this = true /\ listens on_exit pid this = true /\
    process this = Some pid)
   \/ (listening pid this = false /\ process this = None)).

(** Vocabulary of the statements on whole runs. *)

(** [startInternal] is only called when no child is tracked. *)
Fixpoint well_used (evs : list Event) (this : State) : bool :=
  match evs with
  | [] => true
  | ev :: evs' =>
      (if is_start ev
       then match process this with
            | Some _ => false
            | None => true
            end
       else true)
      && well_used evs' (state_of (step ev this))
  end.

(** Number of exit notifications of a run, whatever child caused them. *)
Fixpoint all_notifications (log : list (Event * list Effect)) : nat :=
  match log with
  | [] => 0
  | (_, tr) :: log' => length (List.filter is_notification tr) + all_notifications log'
  end.

Definition starts (evs : list Event) : nat := length (List.filter is_start evs).

(** The instance is idle or tracks exactly one child. *)
Definition settled (this : State) : Prop :=
  idle this \/ exists pid, tracked pid this.

(** What child [pid] may still cause: one notification while it has not
    been spawned or still has its listeners, none afterwards. *)
Definition allowance (pid : Pid) (this : State) : nat :=
  if decide (pid < length (children this))
  then (if listening pid this then 1 else 0)
  else 1.


(** One event of a run that is well used, from a settled state. *)
Inductive progress (ev : Event) (this : State) : Prop :=
| pr_start :
    idle this -> is_start ev = true ->
    tracked (length (children this)) (state_of (step ev this)) ->
    length (children (state_of (step ev this))) = S (length (children this)) ->
    List.filter is_notification (trace_of (step ev this)) = [] ->
    progress ev this
| pr_idle :
    idle this -> is_start ev = false ->
    idle (state_of (step ev this)) ->
    length (children (state_of (step ev this))) = length (children this) ->
    trace_of (step ev this) = [] ->
    progress ev this
| pr_fire pid :
    tracked pid this -> concerns pid ev = true ->
    idle (state_of (step ev this)) ->
    silent pid (state_of (step ev this)) ->
    trace_of (step ev this) = notify (exitListener this) ->
    progress ev this
| pr_wait pid :
    tracked pid this -> is_start ev = false -> concerns pid ev = false ->
    tracked pid (state_of (step ev this)) ->
    length (children (state_of (step ev this))) = length (children this) ->
    List.filter is_notification (trace_of (step ev this)) = [] ->
    progress ev this.

End SingletonProcess.

Module SsLocal.
Import SingletonProcess.
Local Open Scope monad_scope.

(** [cordova.plugins.outline.ServerConfig]: every field is optional. *)
Record ServerConfig := {
  host : option string;
  port : option Z;
  password : option string;
  method : option string
}.

Record State := {
  super : SingletonProcess.State;
  proxyPort : Z
}.

(** [pathToEmbeddedBinary] lives in [./util]; it is a parameter here. *)
Definition constructor (pathToEmbeddedBinary : string -> string -> string)
    (proxyPort : Z) : State :=
  {| super := SingletonProcess.constructor
                (pathToEmbeddedBinary "shadowsocks-libev" "ss-local");
     proxyPort := proxyPort |}.

(** [''+config.port]. *)
Definition port_text (p : option Z) : string :=
  match p with
  | Some n => number_toString n
  | None => "undefined"
  end.

(** The array [args] of [start], push by push. *)
Definition args (this : State) (config : ServerConfig) : list string :=
  let args := ["-l"; number_toString (proxyPort this)] in
  let args := args ++ ["-s"; or_empty (host config)] in
  let args := args ++ ["-p"; port_text (port config)] in
  let args := args ++ ["-k"; or_empty (password config)] in
  let args := args ++ ["-m"; or_empty (method config)] in
  let args := args ++ ["-t"; "5"] in
  let args := args ++ ["-u"] in
  args.

Definition start (config : ServerConfig) (this : State)
    : State * list SingletonProcess.Effect :=
  let r := startInternal (args this config) (super this) in
  ({| super := state_of r; proxyPort := proxyPort this |}, trace_of r).
End SsLocal.

Module Tun2socks.
Import SingletonProcess.

Record State := {
  super : SingletonProcess.State;
  proxyAddress : string;
  proxyPort : Z
}.

Definition constructor (pathToEmbeddedBinary : string -> string -> string)
    (proxyAddress : string) (proxyPort : Z) : State :=
  {| super := SingletonProcess.constructor
                (pathToEmbeddedBinary "badvpn" "badvpn-tun2socks");
     proxyAddress := proxyAddress;
     proxyPort := proxyPort |}.

Definition tundev (platform : string) : string :=
  if isLinux platform then TUN2SOCKS_TAP_DEVICE_NAME platform
  else "tap0901:" ++ TUN2SOCKS_TAP_DEVICE_NAME platform ++ ":" ++
       TUN2SOCKS_TAP_DEVICE_IP ++ ":" ++ TUN2SOCKS_TAP_DEVICE_NETWORK ++ ":" ++
       TUN2SOCKS_VIRTUAL_ROUTER_NETMASK.

Definition socks_endpoint (this : State) : string :=
  proxyAddress this ++ ":" ++ number_toString (proxyPort this).

Definition args (platform : string) (this : State) : list string :=
  let args := [] in
  let args := args ++ ["--tundev"; tundev platform] in
  let args := args ++ ["--netif-ipaddr"; TUN2SOCKS_VIRTUAL_ROUTER_IP] in
  let args := args ++ ["--netif-netmask"; TUN2SOCKS_VIRTUAL_ROUTER_NETMASK] in
  let args := args ++ ["--socks-server-addr"; socks_endpoint this] in
  let args := args ++ ["--loglevel"; "error"] in
  let args := args ++ ["--transparent-dns"] in
  let args := args ++ ["--socks5-udp"] in
  let args := args ++ ["--udp-relay-addr"; socks_endpoint this] in
  args.

Definition start (platform : string) (this : State)
    : State * list SingletonProcess.Effect :=
  let r := startInternal (args platform this) (super this) in
  ({| super := state_of r; proxyAddress := proxyAddress this;
      proxyPort := proxyPort this |}, trace_of r).
End Tun2socks.


(** ** routing.ts *)

Module RoutingService.

(** Sockets and promises are named by their rank of creation. *)
Abbreviation SocketId := nat (only parsing).
Abbreviation PromiseId := nat (only parsing).

(** *** Messages

    [socket.write] is given [JSON.stringify] of a request and the data
    listener reads [JSON.parse] of what arrived.  Both are the platform's;
    requests and responses are kept here as the objects themselves. *)

Inductive ParameterValue :=
| PString (s : string)
| PBoolean (b : bool).

Record RoutingServiceRequest := {
  request_action : string;
  parameters : list (string * ParameterValue)
}.

Record RoutingServiceResponse := {
  action : string;
  statusCode : Z;
  errorMessage : option string;
  (* [ConnectionStatus] is declared outside this file; the field is never read *)
  connectionStatus : Z
}.

(* enum RoutingServiceAction *)
Definition CONFIGURE_ROUTING : string := "configureRouting".
Definition RESET_ROUTING : string := "resetRouting".
Definition STATUS_CHANGED : string := "statusChanged".

(* enum RoutingServiceStatusCode *)
Definition SUCCESS : Z := 0.
Definition GENERIC_FAILURE : Z := 1.
Definition UNSUPPORTED_ROUTING_TABLE : Z := 2.

Definition SERVICE_ADDRESS (platform : string) : string :=
  if String.eqb platform "win32" then "\\.\pipe\OutlineServicePipe"
  else "/var/run/outline_controller".

(** The error classes of [../www/model/errors] that the file constructs,
    and the plain [Error] of [start]. *)
Inductive Error :=
| UnsupportedRoutingTable (message : option string)
| ConfigureSystemProxyFailure (message : option string)
| SystemConfigurationException
| JsError (message : string).

(** *** Promises

    A promise settles once; later calls of its resolving functions are
    ignored.  The file builds promises in two ways.  [new Promise((F, R) =>
    ...)] settles when the code calls [F] or [R].  The promise that an
    [async] method hands to its caller settles in a microtask: when the
    method returns a promise of the first kind it adopts that promise's
    state once that one settles ([adopted_by] names the adopter), and when
    the method throws it is rejected. *)

Inductive Settlement :=
| Pending
| Fulfilled
| Rejected (e : Error).

Record Promise := {
  settlement : Settlement;
  adopted_by : option PromiseId
}.

(** An [async] method suspended at [await this.getSocket()]: the promise
    it has handed to its caller and what it still needs to go on. *)
Inductive Awaiter :=
| InStart (result : PromiseId) (proxyAddress : string)
| InStop (result : PromiseId).

Definition result_of (a : Awaiter) : PromiseId :=
  match a with
  | InStart p _ => p
  | InStop p => p
  end.

(** What the code depends on in a [Socket]: the listeners it has registered
    on it, and the promise that [getSocket] built around it, which is
    pending exactly while [acquiring] holds the method that awaits it. *)
Record Socket := {
  once_connect : bool;
  on_data : bool;
  once_close : bool;
  once_error : bool;
  acquiring : option Awaiter
}.

Inductive Job :=
(** the rest of [start] or [stop] after [await this.getSocket()] *)
| Resume (a : Awaiter) (got : SocketId + Error)
(** the promise of an [async] method takes the state of the promise that
    the method returned *)
| Adopt (p : PromiseId) (how : Settlement).

Record State := {
  (* fields of the class *)
  socket : option SocketId;
  disconnectionListener : option Callback;
  fulfillStart : option PromiseId;
  rejectStart : option PromiseId;
  fulfillStop : option PromiseId;
  (* the runtime: sockets and promises created so far, pending microtasks *)
  sockets : list Socket;
  promises : list Promise;
  microtasks : list Job
}.

Inductive Effect :=
| ConsoleLog (message : string)
(** [console.log] of the "received message from routing service" line *)
| ConsoleLogReceived (data : RoutingServiceResponse)
| ConsoleError (message : string)
| CreateConnection (s : SocketId) (address : string)
| SocketWrite (s : SocketId) (request : RoutingServiceRequest)
| SocketEnd (s : SocketId)
(** the promise returned by [start] or [stop] settles *)
| Settled (p : PromiseId) (how : Settlement)
(** [this.disconnectionListener()]; [seen] is [this.socket] as the listener
    finds it when it starts running *)
| InvokeDisconnectionListener (l : Callback) (seen : option SocketId).

Definition constructor : State :=
  {| socket := None; disconnectionListener := None;
     fulfillStart := None; rejectStart := None; fulfillStop := None;
     sockets := []; promises := []; microtasks := [] |}.

Definition set_socket (x : option SocketId) (this : State) : State :=
  {| socket := x; disconnectionListener := disconnectionListener this;
     fulfillStart := fulfillStart this; rejectStart := rejectStart this;
     fulfillStop := fulfillStop this; sockets := sockets this;
     promises := promises this; microtasks := microtasks this |}.
Definition set_disconnectionListener (x : option Callback) (this : State) : State :=
  {| socket := socket this; disconnectionListener := x;
     fulfillStart := fulfillStart this; rejectStart := rejectStart this;
     fulfillStop := fulfillStop this; sockets := sockets this;
     promises := promises this; microtasks := microtasks this |}.
Definition set_fulfillStart (x : option PromiseId) (this : State) : State :=
  {| socket := socket this; disconnectionListener := disconnectionListener this;
     fulfillStart := x; rejectStart := rejectStart this;
     fulfillStop := fulfillStop this; sockets := sockets this;
     promises := promises this; microtasks := microtasks this |}.
Definition set_rejectStart (x : option PromiseId) (this : State) : State :=
  {| socket := socket this; disconnectionListener := disconnectionListener this;
     fulfillStart := fulfillStart this; rejectStart := x;
     fulfillStop := fulfillStop this; sockets := sockets this;
     promises := promises this; microtasks := microtasks this |}.
Definition set_fulfillStop (x : option PromiseId) (this : State) : State :=
  {| socket := socket this; disconnectionListener := disconnectionListener this;
     fulfillStart := fulfillStart this; rejectStart := rejectStart this;
     fulfillStop := x; sockets := sockets this;
     promises := promises this; microtasks := microtasks this |}.
Definition set_sockets (x : list Socket) (this : State) : State :=
  {| socket := socket this; disconnectionListener := disconnectionListener this;
     fulfillStart := fulfillStart this; rejectStart := rejectStart this;
     fulfillStop := fulfillStop this; sockets := x;
     promises := promises this; microtasks := microtasks this |}.
Definition set_promises (x : list Promise) (this : State) : State :=
  {| socket := socket this; disconnectionListener := disconnectionListener this;
     fulfillStart := fulfillStart this; rejectStart := rejectStart this;
     fulfillStop := fulfillStop this; sockets := sockets this;
     promises := x; microtasks := microtasks this |}.
Definition set_microtasks (x : list Job) (this : State) : State :=
  {| socket := socket this; disconnectionListener := disconnectionListener this;
     fulfillStart := fulfillStart this; rejectStart := rejectStart this;
     fulfillStop := fulfillStop this; sockets := sockets this;
     promises := promises this; microtasks := x |}.

Local Open Scope monad_scope.
Local Abbreviation Op := (M State Effect).

(** *** The runtime: promises, microtasks, listeners *)

Definition new_promise (p : Promise) : Op PromiseId :=
  let* this := get in
  modify (set_promises (promises this ++ [p]));;
  ret (length (promises this)).

Definition enqueue (j : Job) : Op unit :=
  modify (fun this => set_microtasks (microtasks this ++ [j]) this).

Definition with_settlement (how : Settlement) (p : Promise) : Promise :=
  {| settlement := how; adopted_by := adopted_by p |}.

(** A call of [F] or [R] of [new Promise((F, R) => ...)] for promise [p]. *)
Definition call_settle (p : PromiseId) (how : Settlement) : Op unit :=
  let* this := get in
  match promises this !! p with
  | Some {| settlement := Pending; adopted_by := adopter |} =>
      modify (set_promises (alter (with_settlement how) p (promises this)));;
      match adopter with
      | Some outer => enqueue (Adopt outer how)
      | None => ret tt
      end
  | _ => ret tt
  end.

(** The promise [p] of an [async] method settles, as far as it has not. *)
Definition settle_result (p : PromiseId) (how : Settlement) : Op unit :=
  let* this := get in
  match promises this !! p with
  | Some {| settlement := Pending |} =>
      modify (set_promises (alter (with_settlement how) p (promises this)));;
      emit (Settled p how)
  | _ => ret tt
  end.

Definition alter_socket (f : Socket -> Socket) (s : SocketId) : Op unit :=
  modify (fun this => set_sockets (alter f s (sockets this)) this).

Definition with_once_connect (b : bool) (k : Socket) : Socket :=
  {| once_connect := b; on_data := on_data k; once_close := once_close k;
     once_error := once_error k; acquiring := acquiring k |}.
Definition with_on_data (b : bool) (k : Socket) : Socket :=
  {| once_connect := once_connect k; on_data := b; once_close := once_close k;
     once_error := once_error k; acquiring := acquiring k |}.
Definition with_once_close (b : bool) (k : Socket) : Socket :=
  {| once_connect := once_connect k; on_data := on_data k; once_close := b;
     once_error := once_error k; acquiring := acquiring k |}.
Definition with_once_error (b : bool) (k : Socket) : Socket :=
  {| once_connect := once_connect k; on_data := on_data k; once_close := once_close k;
     once_error := b; acquiring := acquiring k |}.
Definition with_acquiring (a : option Awaiter) (k : Socket) : Socket :=
  {| once_connect := once_connect k; on_data := on_data k; once_close := once_close k;
     once_error := once_error k; acquiring := a |}.
Definition without_listeners (k : Socket) : Socket :=
  {| once_connect := false; on_data := false; once_close := false;
     once_error := false; acquiring := acquiring k |}.

(** [createConnection(address, connectListener)]: a new socket, with the
    connect listener registered for one call; [a] awaits the promise whose
    [F] and [R] the listeners of this socket hold. *)
Definition createConnection (address : string) (a : Awaiter) : Op SocketId :=
  let* this := get in
  let s := length (sockets this) in
  modify (set_sockets (sockets this ++
            [{| once_connect := true; on_data := false; once_close := false;
                once_error := false; acquiring := Some a |}]));;
  emit (CreateConnection s address);;
  ret s.

(** A call of [F(newSocket)] or [R(e)] of the promise of [getSocket]. *)
Definition settle_acquisition (s : SocketId) (got : SocketId + Error) : Op unit :=
  let* this := get in
  match sockets this !! s with
  | Some {| acquiring := Some a |} =>
      alter_socket (with_acquiring None) s;;
      enqueue (Resume a got)
  | _ => ret tt
  end.

Definition flag (sel : Socket -> bool) (s : SocketId) (this : State) : bool :=
  match sockets this !! s with
  | Some k => sel k
  | None => false
  end.

(** *** The class *)

(** The ['data'] listener of [newSocket]. *)
Definition onData (newSocket : SocketId) (responseFromService : RoutingServiceResponse)
    : Op unit :=
  emit (ConsoleLogReceived responseFromService);;
  let* this := get in
  if String.eqb (action responseFromService) CONFIGURE_ROUTING then
    match fulfillStart this, rejectStart this with
    | Some fulfillStart, Some rejectStart =>
        if Z.eqb (statusCode responseFromService) SUCCESS then
          call_settle fulfillStart Fulfilled
        else
          call_settle rejectStart
            (Rejected
               (if Z.eqb (statusCode responseFromService) UNSUPPORTED_ROUTING_TABLE
                then UnsupportedRoutingTable (errorMessage responseFromService)
                else ConfigureSystemProxyFailure (errorMessage responseFromService)));;
          emit (SocketEnd newSocket)
    | _, _ =>
        emit (ConsoleError "unexpected CONFIGURE_ROUTING response");;
        emit (SocketEnd newSocket)
    end
  else if String.eqb (action responseFromService) RESET_ROUTING then
    match fulfillStop this with
    | Some fulfillStop => call_settle fulfillStop Fulfilled
    | None => ret tt
    end;;
    emit (SocketEnd newSocket)
  else
    emit (ConsoleError "unexpected response type received from routing service").

(** The ['close'] listener of [newSocket]. *)
Definition onClose (newSocket : SocketId) : Op unit :=
  emit (ConsoleLog "disconnected from routing service");;
  alter_socket without_listeners newSocket;;
  modify (set_socket None);;
  let* this := get in
  match disconnectionListener this with
  | Some l => emit (InvokeDisconnectionListener l (socket this))
  | None => ret tt
  end.

(** The connect listener given to [createConnection]. *)
Definition onConnect (newSocket : SocketId) : Op unit :=
  emit (ConsoleLog "connected to routing service");;
  alter_socket (with_on_data true) newSocket;;
  alter_socket (with_once_close true) newSocket;;
  modify (set_socket (Some newSocket));;
  settle_acquisition newSocket (inl newSocket).

(** The ['error'] listener of [newSocket]. *)
Definition onError (newSocket : SocketId) : Op unit :=
  settle_acquisition newSocket (inr SystemConfigurationException).

(** [getSocket], called by the method that [a] describes, up to the point
    where that method is suspended. *)
Definition getSocket (platform : string) (a : Awaiter) : Op unit :=
  let* this := get in
  match socket this with
  | Some s => enqueue (Resume a (inl s))
  | None =>
      let* newSocket := createConnection (SERVICE_ADDRESS platform) a in
      alter_socket (with_once_error true) newSocket
  end.

Definition setDisconnectionListener (newListener : option Callback) : Op unit :=
  modify (set_disconnectionListener newListener).

(** [start], up to its [await]; the value is the promise handed to the
    caller. *)
Definition start (platform : string) (proxyAddress : string) : Op PromiseId :=
  let* this := get in
  match socket this with
  | Some _ =>
      new_promise {| settlement := Rejected (JsError "already connected, please call stop first");
                     adopted_by := None |}
  | None =>
      let* result := new_promise {| settlement := Pending; adopted_by := None |} in
      getSocket platform (InStart result proxyAddress);;
      ret result
  end.

(** [stop], up to its [await]. *)
Definition stop (platform : string) : Op PromiseId :=
  let* result := new_promise {| settlement := Pending; adopted_by := None |} in
  getSocket platform (InStop result);;
  ret result.

Definition configure_request (proxyAddress : string) : RoutingServiceRequest :=
  {| request_action := CONFIGURE_ROUTING;
     parameters := [("proxyIp", PString proxyAddress);
                    ("routerIp", PString "10.0.85.1");
                    ("isAutoConnect", PBoolean false)] |}.

Definition reset_request : RoutingServiceRequest :=
  {| request_action := RESET_ROUTING; parameters := [] |}.

(** The rest of [start] and of [stop] once [await this.getSocket()] is
    over. *)
Definition resume (a : Awaiter) (got : SocketId + Error) : Op unit :=
  match got with
  | inr e => settle_result (result_of a) (Rejected e)
  | inl socket =>
      match a with
      | InStart result proxyAddress =>
          emit (SocketWrite socket (configure_request proxyAddress));;
          let* p := new_promise {| settlement := Pending; adopted_by := Some result |} in
          modify (set_fulfillStart (Some p));;
          modify (set_rejectStart (Some p))
      | InStop result =>
          emit (SocketWrite socket reset_request);;
          let* p := new_promise {| settlement := Pending; adopted_by := Some result |} in
          modify (set_fulfillStop (Some p))
      end
  end.

Definition run_job (j : Job) : Op unit :=
  match j with
  | Resume a got => resume a got
  | Adopt p how => settle_result p how
  end.

(** The microtasks that the macrotask has queued run when it returns. *)
Definition drain : Op unit :=
  let* this := get in
  modify (set_microtasks []);;
  for_each (microtasks this) run_job.

(** *** The event loop *)

(** How a socket came to close.  The ['close'] listener is not told. *)
Inductive CloseCause :=
| EndedByClient
| EndedByService
| TransportFailure.

Inductive Event :=
| CallStart (proxyAddress : string)
| CallStop
| CallSetDisconnectionListener (newListener : option Callback)
| SocketConnect (s : SocketId)
| SocketData (s : SocketId) (data : RoutingServiceResponse)
| SocketClose (s : SocketId) (cause : CloseCause)
| SocketError (s : SocketId).

(** The macrotask of an event: a method call up to its first suspension,
    or the listeners registered for the event.  Listeners registered with
    [once] are removed before they run. *)
Definition dispatch (platform : string) (ev : Event) : Op unit :=
  match ev with
  | CallStart proxyAddress => let* _ := start platform proxyAddress in ret tt
  | CallStop => let* _ := stop platform in ret tt
  | CallSetDisconnectionListener l => setDisconnectionListener l
  | SocketConnect s =>
      let* this := get in
      when (flag once_connect s this)
        (alter_socket (with_once_connect false) s;; onConnect s)
  | SocketData s data =>
      let* this := get in
      when (flag on_data s this) (onData s data)
  | SocketClose s _ =>
      let* this := get in
      when (flag once_close s this)
        (alter_socket (with_once_close false) s;; onClose s)
  | SocketError s =>
      let* this := get in
      when (flag once_error s this)
        (alter_socket (with_once_error false) s;; onError s)
  end.

Definition step (platform : string) (ev : Event) : Op unit :=
  dispatch platform ev;; drain.

Fixpoint run (platform : string) (evs : list Event) (this : State)
    : State * list (Event * list Effect) :=
  match evs with
  | [] => (this, [])
  | ev :: evs' =>
      let r := step platform ev this in
      let r' := run platform evs' (state_of r) in
      (fst r', (ev, trace_of r) :: snd r')
  end.

(** *** Vocabulary of the statements below *)

Definition settlement_of (p : PromiseId) (this : State) : option Settlement :=
  settlement <$> promises this !! p.

(** A Configure is pending: [start] has written its request and stored
    the resolving functions of the promise [p] it returned, and neither
    [p] nor the promise [result] that the caller holds has settled. *)
Definition configure_pending (this : State) (p result : PromiseId) : Prop :=
  fulfillStart this = Some p /\
  rejectStart this = Some p /\
  promises this !! p = Some {| settlement := Pending; adopted_by := Some result |} /\
  promises this !! result = Some {| settlement := Pending; adopted_by := None |}.

(** A Reset is pending, likewise. *)
Definition reset_pending (this : State) (p result : PromiseId) : Prop :=
  fulfillStop this = Some p /\
  promises this !! p = Some {| settlement := Pending; adopted_by := Some result |} /\
  promises this !! result = Some {| settlement := Pending; adopted_by := None |}.

(** The states of an instance between two events of the event loop. *)
Definition reachable (platform : string) (this : State) : Prop :=
  exists evs, this = fst (run platform evs constructor).

Definition is_notification (e : Effect) : bool :=
  match e with
  | InvokeDisconnectionListener _ _ => true
  | _ => false
  end.

Definition is_close_of (s : SocketId) (ev : Event) : bool :=
  match ev with
  | SocketClose s' _ => Nat.eqb s' s
  | _ => false
  end.

(** Number of disconnect notifications caused by ['close'] events of
    socket [s]. *)
Fixpoint notifications (s : SocketId) (log : list (Event * list Effect)) : nat :=
  match log with
  | [] => 0
  | (ev, tr) :: log' =>
      (if is_close_of s ev then length (List.filter is_notification tr) else 0)
      + notifications s log'
  end.

Definition notify (l : option Callback) : list Effect :=
  match l with
  | Some f => [InvokeDisconnectionListener f None]
  | None => []
  end.

(** *** Vocabulary of the proofs *)

(** [m] keeps [P]. *)
Definition preserves {A} (P : State -> Prop) (m : Op A) : Prop :=
  forall s, P s -> P (state_of (m s)).

(** Promise [p] is recorded as [pr]. *)
Definition keeps (p : PromiseId) (pr : Promise) (this : State) : Prop :=
  promises this !! p = Some pr.

(** What the data listener and the microtasks after it do on a
    [resetRouting] response, the log line apart: the response does not occur
    in it. *)
Definition reset_outcome (s : SocketId) (this : State) : unit * State * list Effect :=
  bind (match fulfillStop this with
        | Some f => call_settle f Fulfilled
        | None => ret tt
        end)
       (fun _ => bind (emit (SocketEnd s)) (fun _ => drain)) this.

(** The ['close'] listener of socket [s] is registered. *)
Definition closing (s : SocketId) (this : State) : Prop :=
  flag once_close s this = true.

(** Socket [s] exists and has no listener left. *)
Definition dead (s : SocketId) (this : State) : Prop :=
  flag once_connect s this = false /\ flag on_data s this = false /\
  flag once_close s this = false /\ flag once_error s this = false /\
  s < length (sockets this).

(** Which promise follows which.  The promises that the resolving functions
    in the fields belong to, the promises that adopt them and the promises
    of the methods still waiting for a socket are all distinct.  This is a
    property of how promises are created; it does not depend on how they
    settle, and it is stated on the part of the state it is about. *)
Record View := {
  v_start : option PromiseId;         (* fulfillStart *)
  v_stop : option PromiseId;          (* fulfillStop *)
  v_adopt : list (option PromiseId);  (* adopted_by of every promise *)
  v_await : list (option Awaiter)     (* acquiring of every socket *)
}.

Definition view (this : State) : View :=
  {| v_start := fulfillStart this;
     v_stop := fulfillStop this;
     v_adopt := adopted_by <$> promises this;
     v_await := acquiring <$> sockets this |}.

Definition adopts (v : View) (i o : PromiseId) : Prop := v_adopt v !! i = Some (Some o).

Definition handed_out (v : View) (o : PromiseId) : Prop := v_adopt v !! o = Some None.

Definition awaits (v : View) (s : SocketId) (a : Awaiter) : Prop :=
  v_await v !! s = Some (Some a).

Record wf (v : View) : Prop := {
  wf_start : forall i, v_start v = Some i -> exists o, adopts v i o;
  wf_stop : forall q, v_stop v = Some q -> exists o, adopts v q o;
  wf_apart : forall i, v_start v = Some i -> v_stop v <> Some i;
  wf_adopter : forall i o, adopts v i o -> handed_out v o;
  wf_inj : forall i j o, adopts v i o -> adopts v j o -> i = j;
  wf_await : forall s a, awaits v s a ->
    handed_out v (result_of a) /\ forall i, ~ adopts v i (result_of a);
  wf_await_inj : forall s1 s2 a1 a2,
    awaits v s1 a1 -> awaits v s2 a2 -> result_of a1 = result_of a2 -> s1 = s2
}.

(** Elementary changes of the view. *)
Definition push_adopt (x : option PromiseId) (v : View) : View :=
  {| v_start := v_start v; v_stop := v_stop v;
     v_adopt := v_adopt v ++ [x]; v_await := v_await v |}.

Definition push_await (a : Awaiter) (v : View) : View :=
  {| v_start := v_start v; v_stop := v_stop v;
     v_adopt := v_adopt v; v_await := v_await v ++ [Some a] |}.

Definition drop_await (s : SocketId) (v : View) : View :=
  {| v_start := v_start v; v_stop := v_stop v;
     v_adopt := v_adopt v; v_await := alter (fun _ => None) s (v_await v) |}.

Definition store_start (i : PromiseId) (v : View) : View :=
  {| v_start := Some i; v_stop := v_stop v;
     v_adopt := v_adopt v; v_await := v_await v |}.

Definition store_stop (i : PromiseId) (v : View) : View :=
  {| v_start := v_start v; v_stop := Some i;
     v_adopt := v_adopt v; v_await := v_await v |}.

(** How one event can change the view. *)
Inductive evolves (v : View) : View -> Prop :=
| ev_same : evolves v v
| ev_result :
    (* a method returns a promise of its own *)
    evolves v (push_adopt None v)
| ev_await a :
    (* a method opens a socket and waits for it *)
    result_of a = length (v_adopt v) ->
    evolves v (push_await a (push_adopt None v))
| ev_give_up s :
    (* the socket fails; the method waiting for it throws *)
    evolves v (drop_await s v)
| ev_start s result proxyAddress :
    (* [start] goes on after its [await] *)
    awaits v s (InStart result proxyAddress) ->
    evolves v (store_start (length (v_adopt v))
                 (push_adopt (Some result) (drop_await s v)))
| ev_stop s result :
    (* [stop] goes on after its [await] on a new socket *)
    awaits v s (InStop result) ->
    evolves v (store_stop (length (v_adopt v))
                 (push_adopt (Some result) (drop_await s v)))
| ev_stop_stored :
    (* [stop] goes on with the stored socket *)
    evolves v (store_stop (S (length (v_adopt v)))
                 (push_adopt (Some (length (v_adopt v))) (push_adopt None v))).

(** A promise of a method that nothing adopts and no suspended method owns. *)
Definition free (v : View) (r : PromiseId) : Prop :=
  handed_out v r /\
  (forall i, ~ adopts v i r) /\
  (forall s a, awaits v s a -> result_of a <> r).

(** Jobs that only pass a settlement on. *)
Definition is_adopt (j : Job) : Prop :=
  match j with
  | Adopt _ _ => True
  | Resume _ _ => False
  end.

(** The view is [v] and the pending jobs only pass settlements on. *)
Definition same_view (v : View) (this : State) : Prop :=
  view this = v /\ Forall is_adopt (microtasks this).

(** *** States and messages used as examples *)

(** [start] was called and the socket has connected: a Configure is
    pending, with promise 1 built in [start] and promise 0 held by the
    caller. *)
Definition pending_configure : State :=
  fst (run "linux"
         [CallSetDisconnectionListener (Some 3); CallStart "127.0.0.1"; SocketConnect 0]
         constructor).

Definition configure_succeeded : RoutingServiceResponse :=
  {| action := "configureRouting"; statusCode := 0; errorMessage := None;
     connectionStatus := 0 |}.

Definition configure_unsupported : RoutingServiceResponse :=
  {| action := "configureRouting"; statusCode := 2;
     errorMessage := Some "unsupported routing table"; connectionStatus := 0 |}.

Definition status_changed : RoutingServiceResponse :=
  {| action := "statusChanged"; statusCode := 0; errorMessage := None;
     connectionStatus := 1 |}.

Definition reset_failed : RoutingServiceResponse :=
  {| action := "resetRouting"; statusCode := 1;
     errorMessage := Some "could not reset"; connectionStatus := 0 |}.

(** The Configure has succeeded and [stop] was called on the stored socket:
    a Reset is pending, with promise 3 built in [stop] and promise 2 held
    by the caller. *)
Definition pending_reset : State :=
  fst (run "linux"
         [CallStart "127.0.0.1"; SocketConnect 0;
          SocketData 0 configure_succeeded; CallStop]
         constructor).

(** [stop] was called first and its socket has connected: no Configure was
    ever started. *)
Definition never_configured : State :=
  fst (run "linux" [CallStop; SocketConnect 0] constructor).


(** *** Vocabulary of the statements on whole exchanges *)

(** The two calls that need a connection. *)
Definition is_request (ev : Event) : bool :=
  match ev with
  | CallStart _ | CallStop => true
  | _ => false
  end.

(** [m] keeps [P] and has only effects in [Q]. *)
Definition passes {A} (P : State -> Prop) (Q : Effect -> Prop) (m : Op A) : Prop :=
  forall s, P s -> P (state_of (m s)) /\ Forall Q (trace_of (m s)).

(** What a message leaves alone: the fields of the instance, the sockets
    with their listeners, and which promise follows which. *)
Definition settles_only (this after : State) : Prop :=
  socket after = socket this /\
  disconnectionListener after = disconnectionListener this /\
  fulfillStart after = fulfillStart this /\
  rejectStart after = rejectStart this /\
  fulfillStop after = fulfillStop this /\
  sockets after = sockets this /\
  adopted_by <$> promises after = adopted_by <$> promises this.

(** What the data listener of socket [s] may do, and the microtasks after
    it: log, end its own socket, settle promises of callers. *)
Definition data_effect (s : SocketId) (e : Effect) : bool :=
  match e with
  | ConsoleLogReceived _ | ConsoleError _ | Settled _ _ => true
  | SocketEnd k => Nat.eqb k s
  | _ => false
  end.

(** The state differs from [this] by settlements only, and the pending
    microtasks only pass settlements on. *)
Definition settling (this st : State) : Prop :=
  settles_only this st /\ Forall is_adopt (microtasks st).

Definition data_effects (s : SocketId) (e : Effect) : Prop := data_effect s e = true.

(** The promise that [getSocket] built around socket [s] has settled: the
    socket has connected or has failed. *)
Definition acquired (s : SocketId) (this : State) : bool :=
  match sockets this !! s with
  | Some {| acquiring := None |} => true
  | _ => false
  end.

(** The resolving function [f], if there is one, belongs to a promise that
    is no longer pending: calling it does nothing. *)
Definition spent (f : option PromiseId) (this : State) : Prop :=
  match f with
  | Some p => settlement_of p this <> Some Pending
  | None => True
  end.

(** The guard of the [configureRouting] branch: both callbacks of [start]
    are set. *)
Definition armed (this : State) : bool :=
  match fulfillStart this, rejectStart this with
  | Some _, Some _ => true
  | _, _ => false
  end.

(** The stored socket, if there is one, has its data and close listeners. *)
Definition listening (this : State) : Prop :=
  forall s, socket this = Some s ->
    flag on_data s this = true /\ flag once_close s this = true.

(** The promise [p], built in [start] or [stop], is pending and so is the
    promise [result] of the caller that follows it, but no field holds a
    resolving function of [p] any more. *)
Definition abandoned (p result : PromiseId) (this : State) : Prop :=
  promises this !! p = Some {| settlement := Pending; adopted_by := Some result |} /\
  promises this !! result = Some {| settlement := Pending; adopted_by := None |} /\
  fulfillStart this <> Some p /\
  rejectStart this <> Some p /\
  fulfillStop this <> Some p.

(** A job that passes a settlement on to a promise other than [p] and
    [result]. *)
Definition passes_by (p result : PromiseId) (j : Job) : Prop :=
  match j with
  | Adopt o _ => o <> p /\ o <> result
  | Resume _ _ => False
  end.

(** The state differs from [this] by settlements of promises other than
    [p] and [result]. *)
Definition undisturbed (p result : PromiseId) (this st : State) : Prop :=
  settles_only this st /\
  promises st !! p = promises this !! p /\
  promises st !! result = promises this !! result /\
  Forall (passes_by p result) (microtasks st).

(** *** More states used as examples *)

(** The Configure has succeeded: the callbacks of [start] are still set,
    on a promise that has settled. *)
Definition configured : State :=
  fst (run "linux"
         [CallStart "127.0.0.1"; SocketConnect 0; SocketData 0 configure_succeeded]
         constructor).

(** [stop] was called a second time while the Reset of [pending_reset]
    was pending. *)
Definition stopped_twice : State :=
  fst (run "linux"
         [CallStart "127.0.0.1"; SocketConnect 0;
          SocketData 0 configure_succeeded; CallStop; CallStop]
         constructor).

(** The connection was lost while the Configure was pending. *)
Definition lost_while_configuring : State :=
  fst (run "linux"
         [CallStart "127.0.0.1"; SocketConnect 0; SocketClose 0 TransportFailure]
         constructor).
End RoutingService.

(** * Properties of processes.ts *)

Section ProcessSupervision.
Import SingletonProcess.

Lemma startInternal_eq (args : list string) (this : State) :
  startInternal args this =
    (tt,
     {| path := path this;
        process := Some (length (children this));
        exitListener := exitListener this;
        children := children this ++ [{| on_error := true; on_exit := true |}] |},
     [Spawn (length (children this)) (path this) args]).
Proof.
  unfold startInternal, spawn, add_error_listener, add_exit_listener,
    bind, get, modify, emit, ret; cbn.
  repeat f_equal.
  rewrite <- (Nat.add_0_r (length (children this))).
  rewrite !alter_app_r. reflexivity.
Qed.

Lemma onExit_eq (this : State) :
  onExit this =
    (tt,
     match process this with
     | Some p =>
         {| path := path this; process := None; exitListener := exitListener this;
            children := alter (fun _ => {| on_error := false; on_exit := false |}) p
                              (children this) |}
     | None => this
     end,
     notify (exitListener this)).
Proof.
  unfold onExit, removeAllListeners, bind, get, modify, emit, ret, notify.
  destruct this as [pa [p|] [l|] cs]; reflexivity.
Qed.

Lemma step_child_eq (sel : ChildProcess -> bool) (pid : Pid) (this : State) :
  bind get (fun this => when (listens sel pid this) onExit) this =
    if listens sel pid this then onExit this else (tt, this, []).
Proof.
  unfold bind at 1, get, when.
  destruct (listens sel pid this); [|reflexivity].
  destruct (onExit this) as [[[] this'] tr]. rewrite app_nil_l. reflexivity.
Qed.

Lemma listening_false (pid : Pid) (this : State) :
  listening pid this = false <->
  listens on_error pid this = false /\ listens on_exit pid this = false.
Proof. unfold listening. apply orb_false_iff. Qed.

Lemma supervisor_run_app (evs1 evs2 : list Event) (this : State) :
  run (evs1 ++ evs2) this =
    (fst (run evs2 (fst (run evs1 this))),
     snd (run evs1 this) ++ snd (run evs2 (fst (run evs1 this)))).
Proof.
  revert this. induction evs1 as [|ev evs1 IH]; intros this; cbn.
  - destruct (run evs2 this); reflexivity.
  - rewrite IH. reflexivity.
Qed.

Lemma supervisor_notifications_app (pid : Pid) (log1 log2 : list (Event * list Effect)) :
  notifications pid (log1 ++ log2) = notifications pid log1 + notifications pid log2.
Proof.
  induction log1 as [|[ev tr] log1 IH]; cbn; [reflexivity|]. rewrite IH. lia.
Qed.

Lemma supervisor_length_notify (l : option Callback) :
  length (List.filter is_notification (notify l)) <= 1.
Proof. destruct l; cbn; lia. Qed.

(** *** A child whose listeners were removed stays silent *)

Lemma listens_off (sel : ChildProcess -> bool) (p pid : Pid) (cs : list ChildProcess)
    (this this' : State) :
  children this' = alter (fun _ => {| on_error := false; on_exit := false |}) p (children this) ->
  (sel = on_error \/ sel = on_exit) ->
  listens sel pid this' = if decide (p = pid) then false else listens sel pid this.
Proof.
  intros Hcs Hsel. unfold listens. rewrite Hcs.
  destruct (decide (p = pid)) as [->|Hne].
  - rewrite list_lookup_alter_eq.
    destruct (children this !! pid); [destruct Hsel as [-> | ->]|]; reflexivity.
  - rewrite list_lookup_alter_ne by assumption. reflexivity.
Qed.

Lemma listening_onExit (pid : Pid) (this : State) :
  listening pid (state_of (onExit this)) =
    match process this with
    | Some p => if decide (p = pid) then false else listening pid this
    | None => listening pid this
    end.
Proof.
  rewrite onExit_eq. unfold state_of; cbn.
  destruct (process this) as [p|]; [|reflexivity].
  unfold listening.
  rewrite (listens_off on_error p pid (children this) this) by (cbn; auto).
  rewrite (listens_off on_exit p pid (children this) this) by (cbn; auto).
  destruct (decide (p = pid)); reflexivity.
Qed.

Lemma length_children_onExit (this : State) :
  length (children (state_of (onExit this))) = length (children this).
Proof.
  rewrite onExit_eq. unfold state_of; cbn.
  destruct (process this); cbn; [apply length_alter | reflexivity].
Qed.

Lemma listening_start_old (pid : Pid) (args : list string) (this : State) :
  pid < length (children this) ->
  listening pid (state_of (startInternal args this)) = listening pid this.
Proof.
  intros Hlt. rewrite startInternal_eq. unfold state_of, listening, listens; cbn.
  rewrite lookup_app_l by assumption. reflexivity.
Qed.

Lemma silent_step (pid : Pid) (ev : Event) (this : State) :
  silent pid this ->
  silent pid (state_of (step ev this)) /\
  (concerns pid ev = true -> trace_of (step ev this) = []).
Proof.
  intros [Hlt Hoff]. destruct ev as [l|args| |p|p]; cbn [step concerns].
  - split; [split; assumption | discriminate].
  - split; [|discriminate]. split.
    + rewrite startInternal_eq. unfold state_of; cbn. rewrite length_app. lia.
    + rewrite listening_start_old; assumption.
  - split; [|discriminate].
    unfold stop, bind, get, emit, ret, state_of; cbn.
    destruct (process this); cbn; split; assumption.
  - rewrite step_child_eq. destruct (listens on_error p this) eqn:Hp.
    + split.
      * split; [rewrite length_children_onExit; assumption|].
        rewrite listening_onExit. destruct (process this); [case_decide|]; auto.
      * intros Hc. apply Nat.eqb_eq in Hc. subst p.
        apply listening_false in Hoff. destruct Hoff; congruence.
    + split; [split; assumption | reflexivity].
  - rewrite step_child_eq. destruct (listens on_exit p this) eqn:Hp.
    + split.
      * split; [rewrite length_children_onExit; assumption|].
        rewrite listening_onExit. destruct (process this); [case_decide|]; auto.
      * intros Hc. apply Nat.eqb_eq in Hc. subst p.
        apply listening_false in Hoff. destruct Hoff; congruence.
    + split; [split; assumption | reflexivity].
Qed.

Lemma silent_run (pid : Pid) (evs : list Event) (this : State) :
  silent pid this -> notifications pid (snd (run evs this)) = 0.
Proof.
  revert this. induction evs as [|ev evs IH]; intros this Hs; cbn; [reflexivity|].
  destruct (silent_step pid ev this Hs) as [Hs' Htr].
  rewrite (IH _ Hs'). destruct (concerns pid ev); [rewrite Htr by reflexivity|]; reflexivity.
Qed.

(** *** From a start to the first event of the child *)

Lemma tracked_start (args : list string) (this : State) :
  idle this ->
  tracked (length (children this)) (state_of (startInternal args this)).
Proof.
  intros [_ Hquiet]. rewrite startInternal_eq. unfold state_of, tracked, listens; cbn.
  rewrite lookup_app_r, Nat.sub_diag by lia. cbn.
  repeat split. intros p Hp.
  destruct (decide (p < length (children this))) as [Hlt|Hge].
  - specialize (Hquiet p). unfold listening, listens in *; cbn.
    rewrite lookup_app_l by assumption. exact Hquiet.
  - unfold listening, listens; cbn.
    rewrite lookup_ge_None_2; [reflexivity|]. rewrite length_app; cbn. lia.
Qed.

Lemma tracked_step (pid : Pid) (ev : Event) (this : State) :
  tracked pid this ->
  negb (is_start ev) && negb (concerns pid ev) = true ->
  tracked pid (state_of (step ev this)).
Proof.
  intros Ht Hev. apply andb_true_iff in Hev as [Hns Hnc].
  pose proof Ht as (Hp & He & Hx & Hothers).
  destruct ev as [l|args| |p|p]; cbn in Hns, Hnc; try discriminate; cbn [step].
  - exact Ht.
  - unfold stop, bind, get, emit, ret, state_of; cbn. rewrite Hp. exact Ht.
  - rewrite step_child_eq.
    apply negb_true_iff, Nat.eqb_neq in Hnc.
    specialize (Hothers p Hnc). apply listening_false in Hothers as [-> _]. exact Ht.
  - rewrite step_child_eq.
    apply negb_true_iff, Nat.eqb_neq in Hnc.
    specialize (Hothers p Hnc). apply listening_false in Hothers as [_ ->]. exact Ht.
Qed.

Lemma tracked_run (pid : Pid) (evs : list Event) (this : State) :
  tracked pid this ->
  within_cycle pid evs = true ->
  tracked pid (fst (run evs this)) /\ notifications pid (snd (run evs this)) = 0.
Proof.
  revert this. induction evs as [|ev evs IH]; intros this Ht Hevs; cbn.
  - split; [assumption | reflexivity].
  - cbn in Hevs. apply andb_true_iff in Hevs as [Hev Hevs].
    destruct (IH _ (tracked_step pid ev this Ht Hev) Hevs) as [Ht' Hn].
    split; [assumption|]. rewrite Hn.
    apply andb_true_iff in Hev as [_ Hnc]. apply negb_true_iff in Hnc.
    rewrite Hnc. reflexivity.
Qed.

Lemma tracked_fire (pid : Pid) (ev : Event) (this : State) :
  tracked pid this ->
  concerns pid ev = true ->
  trace_of (step ev this) = notify (exitListener this) /\
  idle (state_of (step ev this)) /\
  silent pid (state_of (step ev this)).
Proof.
  intros (Hp & He & Hx & Hothers) Hev.
  assert (Hstep : step ev this = onExit this).
  { destruct ev as [l|args| |p|p]; cbn in Hev; try discriminate;
      apply Nat.eqb_eq in Hev; subst p; cbn [step];
      rewrite step_child_eq; [rewrite He | rewrite Hx]; reflexivity. }
  rewrite Hstep. split; [rewrite onExit_eq; reflexivity|].
  assert (Hall : forall p, listening p (state_of (onExit this)) = false).
  { intros p. rewrite listening_onExit, Hp.
    case_decide as Hpp; [reflexivity | apply Hothers; congruence]. }
  split; [split|split].
  - rewrite onExit_eq, Hp. reflexivity.
  - exact Hall.
  - rewrite length_children_onExit. unfold listens in He.
    destruct (children this !! pid) eqn:Hl; [|discriminate].
    eapply lookup_lt_Some; eassumption.
  - apply Hall.
Qed.
(** *** The same, whatever the state at the start *)

Lemma in_cycle_start (args : list string) (this : State) :
  in_cycle (length (children this)) (state_of (startInternal args this)).
Proof.
  rewrite startInternal_eq. unfold state_of, in_cycle, listens; cbn.
  rewrite lookup_app_r, Nat.sub_diag, length_app by lia. cbn.
  split; [lia|]. left. repeat split.
Qed.

Lemma in_cycle_onExit (pid : Pid) (this : State) :
  in_cycle pid this ->
  silent pid (state_of (onExit this)) /\ process (state_of (onExit this)) = None.
Proof.
  intros [Hlt Hcase]. split; [split|].
  - rewrite length_children_onExit. exact Hlt.
  - rewrite listening_onExit.
    destruct Hcase as [(_ & _ & ->)|[Hoff ->]]; [case_decide; congruence | exact Hoff].
  - rewrite onExit_eq. unfold state_of; cbn.
    destruct Hcase as [(_ & _ & ->)|[_ Hnone]]; [reflexivity | rewrite Hnone; exact Hnone].
Qed.

Lemma silent_in_cycle (pid : Pid) (this : State) :
  silent pid this -> process this = None -> in_cycle pid this.
Proof. intros [Hlt Hoff] Hnone. split; [exact Hlt | right; split; assumption]. Qed.

Lemma in_cycle_step (pid : Pid) (ev : Event) (this : State) :
  in_cycle pid this ->
  negb (is_start ev) && negb (concerns pid ev) = true ->
  in_cycle pid (state_of (step ev this)).
Proof.
  intros Hin Hev. apply andb_true_iff in Hev as [Hns Hnc].
  assert (Hchild : forall sel p,
    in_cycle pid (state_of (bind get (fun this => when (listens sel p this) onExit) this))).
  { intros sel p. rewrite step_child_eq. destruct (listens sel p this); [|exact Hin].
    destruct (in_cycle_onExit pid this Hin) as [Hs Hnone].
    apply silent_in_cycle; assumption. }
  destruct ev as [l|args| |p|p]; cbn in Hns; try discriminate; cbn [step].
  - exact Hin.
  - unfold stop, bind, get, emit, ret, state_of; cbn.
    destruct (process this); exact Hin.
  - apply Hchild.
  - apply Hchild.
Qed.

Lemma in_cycle_run (pid : Pid) (evs : list Event) (this : State) :
  in_cycle pid this ->
  within_cycle pid evs = true ->
  in_cycle pid (fst (run evs this)) /\ notifications pid (snd (run evs this)) = 0.
Proof.
  revert this. induction evs as [|ev evs IH]; intros this Hin Hevs; cbn.
  - split; [assumption | reflexivity].
  - cbn in Hevs. apply andb_true_iff in Hevs as [Hev Hevs].
    destruct (IH _ (in_cycle_step pid ev this Hin Hev) Hevs) as [Hin' Hn].
    split; [assumption|]. rewrite Hn.
    apply andb_true_iff in Hev as [_ Hnc]. apply negb_true_iff in Hnc.
    rewrite Hnc. reflexivity.
Qed.

Lemma in_cycle_fire (pid : Pid) (ev : Event) (this : State) :
  in_cycle pid this ->
  concerns pid ev = true ->
  trace_of (step ev this)
  = (if listening pid this then notify (exitListener this) else []) /\
  process (state_of (step ev this)) = None /\
  silent pid (state_of (step ev this)).
Proof.
  intros Hin Hev. pose proof Hin as [Hlt [(He & Hx & Hp)|[Hoff Hnone]]].
  - assert (Hstep : step ev this = onExit this).
    { destruct ev as [l|args| |p|p]; cbn in Hev; try discriminate;
        apply Nat.eqb_eq in Hev; subst p; cbn [step];
        rewrite step_child_eq; [rewrite He | rewrite Hx]; reflexivity. }
    rewrite Hstep. destruct (in_cycle_onExit pid this Hin) as [Hs Hnone].
    unfold listening. rewrite He. cbn [orb].
    split; [rewrite onExit_eq; reflexivity|]. split; assumption.
  - assert (Hstep : step ev this = (tt, this, [])).
    { apply listening_false in Hoff as [He Hx].
      destruct ev as [l|args| |p|p]; cbn in Hev; try discriminate;
        apply Nat.eqb_eq in Hev; subst p; cbn [step];
        rewrite step_child_eq; [rewrite He | rewrite Hx]; reflexivity. }
    rewrite Hstep, Hoff. unfold trace_of, state_of; cbn.
    split; [reflexivity|]. split; [exact Hnone | split; assumption].
Qed.
End ProcessSupervision.

(** C7.  Exit notification of a supervised process.  Start a child and let
    any events follow in which [startInternal] is not called again before
    the child reports its first ['error'] or ['exit'].  Until that first
    event nothing is notified on behalf of the child.  The first event,
    whichever of the two it is, calls the registered exit listener once if
    the listeners of the child are still in place, and nothing otherwise;
    the listener finds [this.process] already cleared, and it is cleared
    after the event in any case.  No later event of that child notifies
    anything, whatever else happens, new starts included.  Hence at most one
    notification per cycle.  When moreover the supervisor tracked no child
    and no older child had a listener left at the start, the listeners of
    the child are in place at its first event, so the notification is
    made, and afterwards the supervisor is in such a state again: a new
    start is legal. *)
Theorem exit_notification_once_per_cycle :
  forall (this : SingletonProcess.State) (args : list string)
         (pre post : list SingletonProcess.Event) (ev : SingletonProcess.Event),
    let pid := length (SingletonProcess.children this) in
    let started := state_of (SingletonProcess.startInternal args this) in
    let before := fst (SingletonProcess.run pre started) in
    let after := state_of (SingletonProcess.step ev before) in
    SingletonProcess.within_cycle pid pre = true ->
    SingletonProcess.concerns pid ev = true ->
    SingletonProcess.notifications pid (snd (SingletonProcess.run pre started)) = 0
    /\ trace_of (SingletonProcess.step ev before)
       = (if SingletonProcess.listening pid before
          then SingletonProcess.notify (SingletonProcess.exitListener before)
          else [])
    /\ SingletonProcess.process after = None
    /\ SingletonProcess.notifications pid (snd (SingletonProcess.run post after)) = 0
    /\ SingletonProcess.notifications pid
         (snd (SingletonProcess.run (pre ++ ev :: post) started)) <= 1
    /\ (SingletonProcess.idle this ->
        SingletonProcess.listening pid before = true /\ SingletonProcess.idle after).
Proof.
  intros this args pre post ev pid started before after Hpre Hev.
  destruct (in_cycle_run pid pre started (in_cycle_start args this) Hpre)
    as [Hin Hquiet].
  destruct (in_cycle_fire pid ev before Hin Hev) as (Htrace & Hnone & Hsilent).
  pose proof (silent_run pid post after Hsilent) as Hpost.
  split; [exact Hquiet|]. split; [exact Htrace|]. split; [exact Hnone|].
  split; [exact Hpost|]. split.
  - rewrite supervisor_run_app. cbn [snd]. rewrite supervisor_notifications_app.
    fold before. cbn [SingletonProcess.run snd SingletonProcess.notifications].
    fold after. rewrite Hquiet, Hpost, Hev, Htrace.
    pose proof (supervisor_length_notify (SingletonProcess.exitListener before)).
    destruct (SingletonProcess.listening pid before); cbn; lia.
  - intros Hidle.
    destruct (tracked_run pid pre started (tracked_start args this Hidle) Hpre)
      as [Htracked _].
    destruct (tracked_fire pid ev before Htracked Hev) as (_ & Hafter & _).
    split; [|exact Hafter].
    destruct Htracked as (_ & He & _). unfold SingletonProcess.listening.
    fold before in He. rewrite He. reflexivity.
Qed.

Lemma exit_notification_once_per_cycle_witness :
  SingletonProcess.within_cycle 0
    [SingletonProcess.CallSetExitListener (Some 7); SingletonProcess.CallStop] = true
  /\ SingletonProcess.notifications 0
       (snd (SingletonProcess.run
          ([SingletonProcess.CallSetExitListener (Some 7); SingletonProcess.CallStop]
           ++ SingletonProcess.ChildError 0
           :: [SingletonProcess.ChildExit 0; SingletonProcess.CallStartInternal [];
               SingletonProcess.ChildExit 0])
          (state_of (SingletonProcess.startInternal ["-u"]
                       (SingletonProcess.constructor "ss-local"))))) <= 1.
Proof.
  split; [reflexivity|].
  destruct (exit_notification_once_per_cycle
              (SingletonProcess.constructor "ss-local") ["-u"]
              [SingletonProcess.CallSetExitListener (Some 7); SingletonProcess.CallStop]
              [SingletonProcess.ChildExit 0; SingletonProcess.CallStartInternal [];
               SingletonProcess.ChildExit 0]
              (SingletonProcess.ChildError 0) eq_refl eq_refl)
    as (_ & _ & _ & _ & H & _).
  exact H.
Defined.

(** What such a run does, event by event: the kill, the
    single notification on ['error'], and silence on the ['exit'] that
    follows, also after a new start. *)
Example start_stop_error_exit :
  snd (SingletonProcess.run
         [SingletonProcess.CallSetExitListener (Some 7);
          SingletonProcess.CallStartInternal ["-u"];
          SingletonProcess.CallStop;
          SingletonProcess.ChildError 0;
          SingletonProcess.ChildExit 0;
          SingletonProcess.CallStartInternal [];
          SingletonProcess.ChildExit 0]
         (SingletonProcess.constructor "ss-local"))
  = [(SingletonProcess.CallSetExitListener (Some 7), []);
     (SingletonProcess.CallStartInternal ["-u"], [SingletonProcess.Spawn 0 "ss-local" ["-u"]]);
     (SingletonProcess.CallStop, [SingletonProcess.Kill 0]);
     (SingletonProcess.ChildError 0, [SingletonProcess.InvokeExitListener 7 None]);
     (SingletonProcess.ChildExit 0, []);
     (SingletonProcess.CallStartInternal [], [SingletonProcess.Spawn 1 "ss-local" []]);
     (SingletonProcess.ChildExit 0, [])].
Proof. reflexivity. Qed.

(** Why the cycle must not contain a second start: [onExit] clears whatever
    child [this.process] names.  When child 0 is still running and child 1
    is started over it, the ['error'] of child 0 removes the listeners of
    child 1 and leaves its own in place, and its ['exit'] notifies again.
    Child 1, whose own cycle holds no other start, is never notified
    about. *)
Example start_over_running_child :
  snd (SingletonProcess.run
         [SingletonProcess.CallSetExitListener (Some 7);
          SingletonProcess.CallStartInternal [];
          SingletonProcess.CallStartInternal [];
          SingletonProcess.ChildError 0;
          SingletonProcess.ChildExit 0;
          SingletonProcess.ChildExit 1]
         (SingletonProcess.constructor "ss-local"))
  = [(SingletonProcess.CallSetExitListener (Some 7), []);
     (SingletonProcess.CallStartInternal [], [SingletonProcess.Spawn 0 "ss-local" []]);
     (SingletonProcess.CallStartInternal [], [SingletonProcess.Spawn 1 "ss-local" []]);
     (SingletonProcess.ChildError 0, [SingletonProcess.InvokeExitListener 7 None]);
     (SingletonProcess.ChildExit 0, [SingletonProcess.InvokeExitListener 7 None]);
     (SingletonProcess.ChildExit 1, [])].
Proof. reflexivity. Qed.

(** C8.  An [SsLocal] built for local port 1081 and started with host
    203.0.113.5, port 65336, password pw and method aes-128-cfb spawns its
    binary with exactly the arguments
    -l 1081 -s 203.0.113.5 -p 65336 -k pw -m aes-128-cfb -t 5 -u. *)
Theorem SsLocal_start_arguments :
  forall pathToEmbeddedBinary : string -> string -> string,
    snd (SsLocal.start
           {| SsLocal.host := Some "203.0.113.5";
              SsLocal.port := Some 65336%Z;
              SsLocal.password := Some "pw";
              SsLocal.method := Some "aes-128-cfb" |}
           (SsLocal.constructor pathToEmbeddedBinary 1081%Z))
    = [SingletonProcess.Spawn 0 (pathToEmbeddedBinary "shadowsocks-libev" "ss-local")
         ["-l"; "1081"; "-s"; "203.0.113.5"; "-p"; "65336"; "-k"; "pw";
          "-m"; "aes-128-cfb"; "-t"; "5"; "-u"]].
Proof. intros pathToEmbeddedBinary. reflexivity. Qed.

(** C9.  A [Tun2socks] built for proxy address 127.0.0.1 and port 1081
    spawns its binary with: --tundev and, on Linux, outline-tun0, elsewhere
    the tap description tap0901:outline-tap0:10.0.85.2:10.0.85.0:255.255.255.0;
    --netif-ipaddr 10.0.85.1; --netif-netmask 255.255.255.0;
    --socks-server-addr 127.0.0.1:1081; --loglevel error; --transparent-dns;
    --socks5-udp; --udp-relay-addr 127.0.0.1:1081. *)
Theorem Tun2socks_start_arguments :
  forall (pathToEmbeddedBinary : string -> string -> string) (platform : string),
    snd (Tun2socks.start platform
           (Tun2socks.constructor pathToEmbeddedBinary "127.0.0.1" 1081%Z))
    = [SingletonProcess.Spawn 0 (pathToEmbeddedBinary "badvpn" "badvpn-tun2socks")
         ["--tundev";
          if String.eqb platform "linux" then "outline-tun0"
          else "tap0901:outline-tap0:10.0.85.2:10.0.85.0:255.255.255.0";
          "--netif-ipaddr"; "10.0.85.1";
          "--netif-netmask"; "255.255.255.0";
          "--socks-server-addr"; "127.0.0.1:1081";
          "--loglevel"; "error";
          "--transparent-dns";
          "--socks5-udp";
          "--udp-relay-addr"; "127.0.0.1:1081"]].
Proof.
  intros pathToEmbeddedBinary platform.
  unfold Tun2socks.start, Tun2socks.args, Tun2socks.tundev,
    TUN2SOCKS_TAP_DEVICE_NAME, isLinux.
  rewrite startInternal_eq.
  destruct (String.eqb platform "linux"); reflexivity.
Qed.
(** * Lists extended at their end *)

Lemma alter_last {A} (f : A -> A) (l : list A) (x : A) :
  alter f (length l) (l ++ [x]) = l ++ [f x].
Proof.
  rewrite <- (Nat.add_0_r (length l)). rewrite alter_app_r. reflexivity.
Qed.

Lemma lookup_last {A} (l : list A) (x : A) : (l ++ [x]) !! length l = Some x.
Proof. apply list_lookup_middle. reflexivity. Qed.


(** * Whole runs of a supervisor *)

Section SupervisorRuns.
Import SingletonProcess.

Lemma idle_child_event (sel : ChildProcess -> bool) (p : Pid) (this : State) :
  listens sel p this = false ->
  bind get (fun this => when (listens sel p this) onExit) this = (tt, this, []).
Proof. intros H. rewrite step_child_eq, H. reflexivity. Qed.

Lemma settled_progress (ev : Event) (this : State) :
  settled this ->
  (if is_start ev
   then match process this with Some _ => false | None => true end
   else true) = true ->
  progress ev this.
Proof.
  intros [Hidle|[pid Htracked]] Hlegal.
  - pose proof Hidle as [Hnone Hquiet].
    destruct ev as [l|args| |p|p]; cbn [is_start] in Hlegal.
    + apply pr_idle; try assumption; reflexivity.
    + apply pr_start; try assumption; try reflexivity.
      * apply tracked_start, Hidle.
      * cbn [step]. rewrite startInternal_eq. unfold state_of; cbn.
        rewrite length_app. cbn. lia.
    + assert (Hstop : step CallStop this = (tt, this, [])).
      { cbn [step]. unfold stop, bind, get, ret. rewrite Hnone. reflexivity. }
      apply pr_idle; try assumption; try reflexivity; rewrite Hstop; try assumption;
        reflexivity.
    + assert (Hstep : step (ChildError p) this = (tt, this, [])).
      { cbn [step]. apply idle_child_event.
        specialize (Hquiet p). apply listening_false in Hquiet as [-> _]. reflexivity. }
      apply pr_idle; try assumption; try reflexivity; rewrite Hstep; try assumption;
        reflexivity.
    + assert (Hstep : step (ChildExit p) this = (tt, this, [])).
      { cbn [step]. apply idle_child_event.
        specialize (Hquiet p). apply listening_false in Hquiet as [_ ->]. reflexivity. }
      apply pr_idle; try assumption; try reflexivity; rewrite Hstep; try assumption;
        reflexivity.
  - pose proof Htracked as (Hp & He & Hx & Hothers).
    destruct (concerns pid ev) eqn:Hc.
    + destruct (tracked_fire pid ev this Htracked Hc) as (Htr & Hi & Hs).
      apply (pr_fire ev this pid); assumption.
    + destruct (is_start ev) eqn:Hst; [rewrite Hp in Hlegal; discriminate|].
      assert (Hkeep : tracked pid (state_of (step ev this))).
      { apply tracked_step; [exact Htracked|]. rewrite Hst, Hc. reflexivity. }
      apply (pr_wait ev this pid); try assumption.
      * destruct ev as [l|args| |p|p]; cbn in Hst, Hc; try discriminate; cbn [step].
        -- reflexivity.
        -- unfold stop, bind, get, emit, ret, state_of; cbn. rewrite Hp. reflexivity.
        -- apply Nat.eqb_neq in Hc. specialize (Hothers p Hc).
           apply listening_false in Hothers as [Hoff _].
           rewrite (idle_child_event _ _ _ Hoff). reflexivity.
        -- apply Nat.eqb_neq in Hc. specialize (Hothers p Hc).
           apply listening_false in Hothers as [_ Hoff].
           rewrite (idle_child_event _ _ _ Hoff). reflexivity.
      * destruct ev as [l|args| |p|p]; cbn in Hst, Hc; try discriminate; cbn [step].
        -- reflexivity.
        -- unfold stop, bind, get, emit, ret, trace_of; cbn. rewrite Hp. reflexivity.
        -- apply Nat.eqb_neq in Hc. specialize (Hothers p Hc).
           apply listening_false in Hothers as [Hoff _].
           rewrite (idle_child_event _ _ _ Hoff). reflexivity.
        -- apply Nat.eqb_neq in Hc. specialize (Hothers p Hc).
           apply listening_false in Hothers as [_ Hoff].
           rewrite (idle_child_event _ _ _ Hoff). reflexivity.
Qed.

Lemma progress_settled (ev : Event) (this : State) :
  progress ev this -> settled (state_of (step ev this)).
Proof.
  intros [? ? Ht ? ?|? ? Hi ? ?|pid ? ? Hi ? ?|pid ? ? ? Ht ? ?].
  - right. eexists. exact Ht.
  - left. exact Hi.
  - left. exact Hi.
  - right. exists pid. exact Ht.
Qed.

Lemma tracked_allowance (pid q : Pid) (this : State) :
  tracked q this -> allowance pid this = if decide (pid = q) then 1 else
    if decide (pid < length (children this)) then 0 else 1.
Proof.
  intros (Hp & He & Hx & Hothers). unfold allowance.
  destruct (decide (pid = q)) as [->|Hne].
  - unfold listening. rewrite He. cbn. case_decide; reflexivity.
  - rewrite (Hothers pid Hne). reflexivity.
Qed.

Lemma idle_allowance (pid : Pid) (this : State) :
  idle this -> allowance pid this = if decide (pid < length (children this)) then 0 else 1.
Proof. intros [_ Hquiet]. unfold allowance. rewrite (Hquiet pid). reflexivity. Qed.

Lemma tracked_spawned (q : Pid) (this : State) :
  tracked q this -> q < length (children this).
Proof.
  intros (_ & He & _). unfold listens in He.
  destruct (children this !! q) eqn:Hl; [|discriminate].
  eapply lookup_lt_Some; eassumption.
Qed.

Lemma notifications_bound (pid : Pid) (evs : list Event) (this : State) :
  settled this ->
  well_used evs this = true ->
  notifications pid (snd (run evs this)) <= allowance pid this.
Proof.
  revert this. induction evs as [|ev evs IH]; intros this Hs Hused; cbn; [lia|].
  cbn in Hused. apply andb_true_iff in Hused as [Hlegal Hused].
  pose proof (settled_progress ev this Hs Hlegal) as Hprog.
  specialize (IH _ (progress_settled ev this Hprog) Hused).
  destruct Hprog as [Hi Hst Ht Hlen Htr|Hi Hst Hi' Hlen Htr
                    |q Ht Hc Hi' Hsil Htr|q Ht Hst Hc Ht' Hlen Htr].
  - rewrite Htr. cbn [length].
    rewrite (tracked_allowance pid _ _ Ht), Hlen in IH.
    rewrite (idle_allowance pid this Hi).
    destruct (concerns pid ev); repeat case_decide; lia.
  - rewrite Htr. cbn [List.filter length].
    rewrite (idle_allowance pid _ Hi'), Hlen in IH.
    rewrite (idle_allowance pid this Hi).
    destruct (concerns pid ev); repeat case_decide; lia.
  - rewrite Htr. rewrite (tracked_allowance pid q this Ht).
    rewrite (idle_allowance pid _ Hi') in IH.
    pose proof (supervisor_length_notify (exitListener this)) as Hone.
    pose proof (tracked_spawned q this Ht) as Hq.
    destruct Hsil as [Hq' _].
    destruct (decide (pid = q)) as [->|Hne].
    + case_decide; [|lia]. destruct (concerns q ev); lia.
    + assert (Hcp : concerns pid ev = false).
      { destruct ev as [l|args| |p|p]; cbn in Hc |- *; try reflexivity;
          apply Nat.eqb_eq in Hc; subst p; apply Nat.eqb_neq; congruence. }
      rewrite Hcp.
      assert (Hlen : length (children (state_of (step ev this))) = length (children this)).
      { assert (Hstep : step ev this = onExit this).
        { destruct Ht as (_ & He & Hx & _).
          destruct ev as [l|args| |p|p]; cbn in Hc; try discriminate;
            apply Nat.eqb_eq in Hc; subst p; cbn [step];
            rewrite step_child_eq; [rewrite He | rewrite Hx]; reflexivity. }
        rewrite Hstep. apply length_children_onExit. }
      rewrite Hlen in IH. repeat case_decide; lia.
  - rewrite Htr. cbn [length].
    rewrite (tracked_allowance pid q _ Ht'), Hlen in IH.
    rewrite (tracked_allowance pid q this Ht).
    destruct (concerns pid ev); repeat case_decide; lia.
Qed.

Lemma all_notifications_bound (evs : list Event) (this : State) :
  settled this ->
  well_used evs this = true ->
  all_notifications (snd (run evs this))
  <= starts evs + match process this with Some _ => 1 | None => 0 end.
Proof.
  revert this. induction evs as [|ev evs IH]; intros this Hs Hused; cbn; [lia|].
  cbn in Hused. apply andb_true_iff in Hused as [Hlegal Hused].
  pose proof (settled_progress ev this Hs Hlegal) as Hprog.
  specialize (IH _ (progress_settled ev this Hprog) Hused).
  unfold starts in *. cbn [List.filter].
  destruct Hprog as [Hi Hst Ht Hlen Htr|Hi Hst Hi' Hlen Htr
                    |q Ht Hc Hi' Hsil Htr|q Ht Hst Hc Ht' Hlen Htr].
  - rewrite Htr, Hst. cbn [length]. destruct Hi as [-> _].
    destruct Ht as (Hp & _). rewrite Hp in IH. lia.
  - rewrite Htr, Hst. cbn [List.filter length]. destruct Hi as [-> _].
    destruct Hi' as [Hp _]. rewrite Hp in IH. lia.
  - rewrite Htr. destruct Ht as (-> & _). destruct Hi' as [Hp _]. rewrite Hp in IH.
    pose proof (supervisor_length_notify (exitListener this)) as Hone.
    destruct (is_start ev); cbn [length]; lia.
  - rewrite Htr, Hst. cbn [length]. destruct Ht as (-> & _).
    destruct Ht' as (Hp & _). rewrite Hp in IH. lia.
Qed.

Lemma settled_run (evs : list Event) (this : State) :
  settled this -> well_used evs this = true -> settled (fst (run evs this)).
Proof.
  revert this. induction evs as [|ev evs IH]; intros this Hs Hused; cbn; [exact Hs|].
  cbn in Hused. apply andb_true_iff in Hused as [Hlegal Hused].
  apply IH; [|exact Hused].
  apply progress_settled, settled_progress; assumption.
Qed.
End SupervisorRuns.

(** X1.  From an idle supervisor, over any sequence of calls and child
    events in which [startInternal] is only called while no child is
    tracked, the events of one child cause at most one call of the exit
    listener: its ['error'] and its ['exit'] never both notify, and the
    children of earlier cycles stay silent. *)
Theorem each_child_notifies_at_most_once :
  forall (this : SingletonProcess.State) (evs : list SingletonProcess.Event)
         (pid : nat),
    SingletonProcess.idle this ->
    SingletonProcess.well_used evs this = true ->
    SingletonProcess.notifications pid (snd (SingletonProcess.run evs this)) <= 1.
Proof.
  intros this evs pid Hidle Hused.
  etransitivity.
  - apply notifications_bound; [left; exact Hidle | exact Hused].
  - unfold SingletonProcess.allowance.
    case_decide; [destruct (SingletonProcess.listening pid this)|]; lia.
Qed.

Lemma fresh_supervisor_idle (path : string) :
  SingletonProcess.idle (SingletonProcess.constructor path).
Proof. split; reflexivity. Qed.

Lemma each_child_notifies_at_most_once_witness :
  SingletonProcess.notifications 0
    (snd (SingletonProcess.run
            [SingletonProcess.CallSetExitListener (Some 7);
             SingletonProcess.CallStartInternal ["-u"];
             SingletonProcess.CallStop;
             SingletonProcess.ChildError 0;
             SingletonProcess.ChildExit 0;
             SingletonProcess.CallStartInternal ["-u"];
             SingletonProcess.ChildExit 0;
             SingletonProcess.ChildExit 1]
            (SingletonProcess.constructor "ss-local"))) <= 1.
Proof.
  apply (each_child_notifies_at_most_once (SingletonProcess.constructor "ss-local")).
  - apply fresh_supervisor_idle.
  - reflexivity.
Defined.

(** X2.  Under the same discipline the exit listener is called at most
    once per start, whatever the number of child events, and the run ends
    with the supervisor idle or tracking one child that has both of its
    listeners, so that the discipline can go on. *)
Theorem notifications_bounded_by_starts :
  forall (this : SingletonProcess.State) (evs : list SingletonProcess.Event),
    SingletonProcess.idle this ->
    SingletonProcess.well_used evs this = true ->
    SingletonProcess.all_notifications (snd (SingletonProcess.run evs this))
      <= SingletonProcess.starts evs /\
    SingletonProcess.settled (fst (SingletonProcess.run evs this)).
Proof.
  intros this evs Hidle Hused. split.
  - pose proof (all_notifications_bound evs this (or_introl Hidle) Hused) as H.
    destruct Hidle as [Hnone _]. rewrite Hnone in H. lia.
  - apply settled_run; [left; exact Hidle | exact Hused].
Qed.

Lemma notifications_bounded_by_starts_witness :
  SingletonProcess.all_notifications
    (snd (SingletonProcess.run
            [SingletonProcess.CallSetExitListener (Some 7);
             SingletonProcess.CallStartInternal ["-u"];
             SingletonProcess.ChildError 0;
             SingletonProcess.ChildExit 0;
             SingletonProcess.CallStartInternal ["-u"];
             SingletonProcess.CallStop;
             SingletonProcess.ChildExit 1;
             SingletonProcess.ChildExit 1]
            (SingletonProcess.constructor "ss-local"))) <= 2 /\
  SingletonProcess.settled
    (fst (SingletonProcess.run
            [SingletonProcess.CallSetExitListener (Some 7);
             SingletonProcess.CallStartInternal ["-u"];
             SingletonProcess.ChildError 0;
             SingletonProcess.ChildExit 0;
             SingletonProcess.CallStartInternal ["-u"];
             SingletonProcess.CallStop;
             SingletonProcess.ChildExit 1;
             SingletonProcess.ChildExit 1]
            (SingletonProcess.constructor "ss-local"))).
Proof.
  apply (notifications_bounded_by_starts (SingletonProcess.constructor "ss-local")).
  - apply fresh_supervisor_idle.
  - reflexivity.
Defined.

(** X3.  [startInternal] has no guard.  Called twice in a row, from any
    state, it spawns two children and tracks the second.  The ['error'] and
    the ['exit'] of the first child then both call the exit listener, since
    the listeners removed are those of the tracked child; after the first of
    them the instance tracks nothing, so [stop] kills nothing and the exit
    of the second child is not reported. *)
Theorem second_start_orphans_running_child :
  forall (this : SingletonProcess.State) (args1 args2 : list string),
    let first := length (SingletonProcess.children this) in
    let second := S first in
    snd (SingletonProcess.run
           [SingletonProcess.CallStartInternal args1;
            SingletonProcess.CallStartInternal args2;
            SingletonProcess.ChildError first;
            SingletonProcess.ChildExit first;
            SingletonProcess.CallStop;
            SingletonProcess.ChildExit second]
           this)
    = [(SingletonProcess.CallStartInternal args1,
        [SingletonProcess.Spawn first (SingletonProcess.path this) args1]);
       (SingletonProcess.CallStartInternal args2,
        [SingletonProcess.Spawn second (SingletonProcess.path this) args2]);
       (SingletonProcess.ChildError first,
        SingletonProcess.notify (SingletonProcess.exitListener this));
       (SingletonProcess.ChildExit first,
        SingletonProcess.notify (SingletonProcess.exitListener this));
       (SingletonProcess.CallStop, []);
       (SingletonProcess.ChildExit second, [])].
Proof.
  intros this args1 args2 first second.
  pose (on := {| SingletonProcess.on_error := true; SingletonProcess.on_exit := true |}).
  pose (off := {| SingletonProcess.on_error := false; SingletonProcess.on_exit := false |}).
  pose (s1 := {| SingletonProcess.path := SingletonProcess.path this;
                 SingletonProcess.process := Some first;
                 SingletonProcess.exitListener := SingletonProcess.exitListener this;
                 SingletonProcess.children := SingletonProcess.children this ++ [on] |}).
  pose (s2 := {| SingletonProcess.path := SingletonProcess.path this;
                 SingletonProcess.process := Some second;
                 SingletonProcess.exitListener := SingletonProcess.exitListener this;
                 SingletonProcess.children :=
                   (SingletonProcess.children this ++ [on]) ++ [on] |}).
  pose (s3 := {| SingletonProcess.path := SingletonProcess.path this;
                 SingletonProcess.process := None;
                 SingletonProcess.exitListener := SingletonProcess.exitListener this;
                 SingletonProcess.children :=
                   (SingletonProcess.children this ++ [on]) ++ [off] |}).
  assert (Hsecond : length (SingletonProcess.children this ++ [on]) = second).
  { rewrite length_app. cbn. subst second first. lia. }
  assert (H1 : SingletonProcess.step (SingletonProcess.CallStartInternal args1) this
               = (tt, s1, [SingletonProcess.Spawn first (SingletonProcess.path this) args1])).
  { apply startInternal_eq. }
  assert (H2 : SingletonProcess.step (SingletonProcess.CallStartInternal args2) s1
               = (tt, s2, [SingletonProcess.Spawn second (SingletonProcess.path this) args2])).
  { cbn [SingletonProcess.step]. rewrite startInternal_eq. cbn. rewrite Hsecond.
    reflexivity. }
  assert (Hfirst : forall c,
            ((SingletonProcess.children this ++ [on]) ++ [c]) !! first = Some on).
  { intros c. rewrite lookup_app_l by (rewrite Hsecond; subst second; lia).
    apply lookup_last. }
  assert (H3 : SingletonProcess.step (SingletonProcess.ChildError first) s2
               = (tt, s3, SingletonProcess.notify (SingletonProcess.exitListener this))).
  { cbn [SingletonProcess.step]. rewrite step_child_eq.
    unfold SingletonProcess.listens. cbn [SingletonProcess.children s2].
    rewrite Hfirst. cbn [SingletonProcess.on_error on].
    rewrite onExit_eq. cbn. rewrite <- Hsecond, alter_last. reflexivity. }
  assert (H4 : SingletonProcess.step (SingletonProcess.ChildExit first) s3
               = (tt, s3, SingletonProcess.notify (SingletonProcess.exitListener this))).
  { cbn [SingletonProcess.step]. rewrite step_child_eq.
    unfold SingletonProcess.listens. cbn [SingletonProcess.children s3].
    rewrite Hfirst. cbn [SingletonProcess.on_exit on].
    rewrite onExit_eq. reflexivity. }
  assert (H5 : SingletonProcess.step SingletonProcess.CallStop s3 = (tt, s3, [])).
  { reflexivity. }
  assert (H6 : SingletonProcess.step (SingletonProcess.ChildExit second) s3 = (tt, s3, [])).
  { cbn [SingletonProcess.step]. rewrite step_child_eq.
    unfold SingletonProcess.listens. cbn [SingletonProcess.children s3].
    rewrite <- Hsecond, lookup_last. reflexivity. }
  cbn [SingletonProcess.run].
  rewrite H1; cbn [state_of trace_of fst snd].
  rewrite H2; cbn [state_of trace_of fst snd].
  rewrite H3; cbn [state_of trace_of fst snd].
  rewrite H4; cbn [state_of trace_of fst snd].
  rewrite H5; cbn [state_of trace_of fst snd].
  rewrite H6; cbn [state_of trace_of fst snd].
  reflexivity.
Qed.

(** X4.  The exit listener is read when the child ends, not when it is
    started.  While a child is tracked, [setExitListener] replaces the
    listener without any other effect, and the next ['error'] or ['exit']
    of the child calls the new listener, or nobody when the listener was
    unset; either way the instance is idle afterwards. *)
Theorem exit_listener_read_when_child_ends :
  forall (this : SingletonProcess.State) (pid : nat) (l : option Callback)
         (ev : SingletonProcess.Event),
    let r := SingletonProcess.run [SingletonProcess.CallSetExitListener l; ev] this in
    SingletonProcess.tracked pid this ->
    SingletonProcess.concerns pid ev = true ->
    snd r = [(SingletonProcess.CallSetExitListener l, []);
             (ev, SingletonProcess.notify l)]
    /\ SingletonProcess.idle (fst r).
Proof.
  intros this pid l ev r Ht Hev. subst r.
  assert (Ht' : SingletonProcess.tracked pid (SingletonProcess.set_exitListener l this))
    by exact Ht.
  destruct (tracked_fire pid ev _ Ht' Hev) as (Htr & Hidle & _).
  cbn [SingletonProcess.run fst snd SingletonProcess.step].
  change (state_of (SingletonProcess.setExitListener l this))
    with (SingletonProcess.set_exitListener l this).
  change (trace_of (SingletonProcess.setExitListener l this))
    with (@nil SingletonProcess.Effect).
  rewrite Htr. split; [reflexivity | exact Hidle].
Qed.

Lemma started_supervisor_tracked :
  SingletonProcess.tracked 0
    (fst (SingletonProcess.run
            [SingletonProcess.CallSetExitListener (Some 7);
             SingletonProcess.CallStartInternal ["-u"]]
            (SingletonProcess.constructor "ss-local"))).
Proof.
  repeat split. intros [|p] Hp; [contradiction|]. reflexivity.
Defined.

Lemma exit_listener_read_when_child_ends_witness :
  snd (SingletonProcess.run
         [SingletonProcess.CallSetExitListener None; SingletonProcess.ChildExit 0]
         (fst (SingletonProcess.run
                 [SingletonProcess.CallSetExitListener (Some 7);
                  SingletonProcess.CallStartInternal ["-u"]]
                 (SingletonProcess.constructor "ss-local"))))
  = [(SingletonProcess.CallSetExitListener None, []);
     (SingletonProcess.ChildExit 0, [])].
Proof.
  apply (exit_listener_read_when_child_ends _ 0 None (SingletonProcess.ChildExit 0)
           started_supervisor_tracked eq_refl).
Defined.


(** X6.  The two files agree on the virtual router: the address that
    [Tun2socks.start] gives to [--netif-ipaddr] is the [routerIp] that
    [RoutingService.start] sends to the service, on every platform and for
    every proxy. *)
Theorem router_address_agrees :
  forall (platform : string) (this : Tun2socks.State) (proxyAddress : string),
    exists ip : string,
      nth_error (Tun2socks.args platform this) 2 = Some "--netif-ipaddr"
      /\ nth_error (Tun2socks.args platform this) 3 = Some ip
      /\ In ("routerIp", RoutingService.PString ip)
            (RoutingService.parameters (RoutingService.configure_request proxyAddress)).
Proof.
  intros platform this proxyAddress. exists TUN2SOCKS_VIRTUAL_ROUTER_IP.
  split; [reflexivity|]. split; [reflexivity|]. right. left. reflexivity.
Qed.

(** * Properties of routing.ts *)

Section RoutingClient.
Import RoutingService.
Variable platform : string.

Local Abbreviation Op := (M State Effect).

(** *** Invariants of computations *)

Section Preserves.
Variable P : State -> Prop.

Lemma preserves_ret {A} (a : A) : preserves P (ret a).
Proof. intros s H. exact H. Qed.

Lemma preserves_get : preserves P get.
Proof. intros s H. exact H. Qed.

Lemma preserves_emit (e : Effect) : preserves P (emit e).
Proof. intros s H. exact H. Qed.

Lemma preserves_modify (f : State -> State) :
  (forall s, P s -> P (f s)) -> preserves P (modify f).
Proof. intros Hf s H. apply Hf, H. Qed.

Lemma preserves_bind {A B} (m : Op A) (k : A -> Op B) :
  preserves P m -> (forall a, preserves P (k a)) -> preserves P (bind m k).
Proof.
  intros Hm Hk s H. specialize (Hm s H). unfold bind, state_of in *.
  destruct (m s) as [[a s1] t1]; cbn in Hm. specialize (Hk a s1 Hm).
  destruct (k a s1) as [[b s2] t2]. exact Hk.
Qed.

Lemma preserves_when (c : bool) (m : Op unit) :
  preserves P m -> preserves P (when c m).
Proof. intros Hm. destruct c; [exact Hm | apply preserves_ret]. Qed.

Lemma preserves_for_each {A} (xs : list A) (f : A -> Op unit) :
  (forall x, preserves P (f x)) -> preserves P (for_each xs f).
Proof.
  intros Hf. induction xs as [|x xs IH]; cbn.
  - apply preserves_ret.
  - apply preserves_bind; [apply Hf | intros _; exact IH].
Qed.
End Preserves.

(** One step through the structure of a computation; [prim] deals with
    the operations that are not built from the others. *)
Ltac step_preserves prim :=
  lazymatch goal with
  | |- preserves _ (bind _ _) => apply preserves_bind
  | |- preserves _ (ret _) => apply preserves_ret
  | |- preserves _ get => apply preserves_get
  | |- preserves _ (emit _) => apply preserves_emit
  | |- preserves _ (when _ _) => apply preserves_when
  | |- preserves _ (for_each _ _) => apply preserves_for_each
  | |- preserves _ (match ?x with _ => _ end) => destruct x
  | |- preserves _ _ => prim
  | |- _ => progress intros
  end.

(** *** A settled promise never changes *)

Section Settled.
Variables (p : PromiseId) (pr : Promise).
Hypothesis Hsettled : settlement pr <> Pending.

Lemma keeps_new_promise x : preserves (keeps p pr) (new_promise x).
Proof.
  intros s H. unfold keeps, new_promise, bind, get, modify, ret, state_of in *; cbn.
  apply lookup_app_l_Some, H.
Qed.

Lemma keeps_alter_pending q how s a :
  keeps p pr s ->
  promises s !! q = Some {| settlement := Pending; adopted_by := a |} ->
  alter (with_settlement how) q (promises s) !! p = Some pr.
Proof.
  intros H Hq. rewrite list_lookup_alter_ne; [exact H|].
  intros ->. unfold keeps in H. rewrite H in Hq.
  injection Hq as ->. apply Hsettled. reflexivity.
Qed.

Lemma keeps_call_settle q how : preserves (keeps p pr) (call_settle q how).
Proof.
  intros s H. unfold call_settle, enqueue, bind, get, modify, ret, state_of; cbn.
  destruct (promises s !! q) as [[[] a]|] eqn:Hq; try exact H.
  destruct a; cbn; eapply keeps_alter_pending; eassumption.
Qed.

Lemma keeps_settle_result q how : preserves (keeps p pr) (settle_result q how).
Proof.
  intros s H. unfold settle_result, bind, get, modify, emit, ret, state_of; cbn.
  destruct (promises s !! q) as [[[] a]|] eqn:Hq; try exact H.
  cbn; eapply keeps_alter_pending; eassumption.
Qed.

Lemma keeps_modify f :
  (forall s, promises (f s) = promises s) -> preserves (keeps p pr) (modify f).
Proof. intros Hf. apply preserves_modify. intros s H. unfold keeps. rewrite Hf. exact H. Qed.

Ltac keeps_prim :=
  idtac;
  lazymatch goal with
  | |- preserves _ (new_promise _) => apply keeps_new_promise
  | |- preserves _ (call_settle _ _) => apply keeps_call_settle
  | |- preserves _ (settle_result _ _) => apply keeps_settle_result
  | |- preserves _ (modify _) => apply keeps_modify; intros ?; reflexivity
  end.

Lemma keeps_step ev : preserves (keeps p pr) (step platform ev).
Proof.
  unfold step, dispatch, drain, onData, onClose, onConnect, onError, start, stop,
    getSocket, setDisconnectionListener, run_job, resume, createConnection,
    settle_acquisition, alter_socket, enqueue.
  destruct ev; repeat step_preserves keeps_prim.
Qed.

Lemma keeps_run evs this :
  keeps p pr this -> keeps p pr (fst (run platform evs this)).
Proof.
  revert this. induction evs as [|ev evs IH]; intros this H; cbn; [exact H|].
  apply IH, keeps_step, H.
Qed.
End Settled.

(** *** What the resolving functions do *)

Lemma pending_distinct (ps : list Promise) p result :
  ps !! p = Some {| settlement := Pending; adopted_by := Some result |} ->
  ps !! result = Some {| settlement := Pending; adopted_by := None |} ->
  p <> result.
Proof. intros Hp Hr ->. congruence. Qed.

(** Symbolic execution of one step from a state given field by field. *)
Ltac exec :=
  repeat progress
    (unfold step, dispatch, drain, onData, onClose, onConnect, onError, start, stop,
       getSocket, setDisconnectionListener, resume, run_job, createConnection,
       settle_acquisition, alter_socket, call_settle, settle_result, enqueue,
       new_promise, when, bind, get, modify, emit, ret,
       state_of, trace_of, value_of, settlement_of, flag in *;
     cbn in *).

Lemma kept_settlement p pr this :
  keeps p pr this -> settlement_of p this = Some (settlement pr).
Proof. unfold keeps, settlement_of. intros ->. reflexivity. Qed.

(** C1.  A [configureRouting] response that reaches the data listener
    while a Configure is pending settles the promise that [start] handed to
    its caller: with status 0 it is fulfilled, and it stays fulfilled
    whatever happens afterwards; with status 2 it is rejected with
    [UnsupportedRoutingTable]; with any other status, 1 included, it is
    rejected with [ConfigureSystemProxyFailure]; both errors carry the
    [errorMessage] of the response. *)
Theorem configure_response_settles_start :
  forall (this : State) (s : SocketId) (r : RoutingServiceResponse)
         (p result : PromiseId),
    microtasks this = [] ->
    flag on_data s this = true ->
    configure_pending this p result ->
    action r = CONFIGURE_ROUTING ->
    let after := state_of (step platform (SocketData s r) this) in
    (statusCode r = SUCCESS ->
       settlement_of result after = Some Fulfilled /\
       forall evs,
         settlement_of result (fst (run platform evs after)) = Some Fulfilled)
    /\ (statusCode r = UNSUPPORTED_ROUTING_TABLE ->
          settlement_of result after
          = Some (Rejected (UnsupportedRoutingTable (errorMessage r))))
    /\ (statusCode r <> SUCCESS ->
        statusCode r <> UNSUPPORTED_ROUTING_TABLE ->
          settlement_of result after
          = Some (Rejected (ConfigureSystemProxyFailure (errorMessage r)))).
Proof.
  intros this s r p result Hq Hdata (Hf & Hr & Hp & Hres) Hact after.
  pose proof (pending_distinct _ _ _ Hp Hres) as Hne.
  assert (Hlook : forall how,
    alter (with_settlement how) result (alter (with_settlement how) p (promises this))
      !! result = Some {| settlement := how; adopted_by := None |}).
  { intros how. rewrite list_lookup_alter_eq, list_lookup_alter_ne, Hres by exact Hne.
    reflexivity. }
  assert (Hok : statusCode r = SUCCESS ->
    keeps result {| settlement := Fulfilled; adopted_by := None |} after).
  { intros Hcode. subst after. destruct this as [sk dl fs rs fp sks ps mt]; cbn in *. subst.
    exec. rewrite Hdata; exec. rewrite Hact, Hcode; exec. rewrite Hp; exec.
    rewrite list_lookup_alter_ne by exact Hne. rewrite Hres; exec. apply Hlook. }
  assert (Hko : statusCode r <> SUCCESS ->
    keeps result
      {| settlement :=
           Rejected (if Z.eqb (statusCode r) UNSUPPORTED_ROUTING_TABLE
                     then UnsupportedRoutingTable (errorMessage r)
                     else ConfigureSystemProxyFailure (errorMessage r));
         adopted_by := None |} after).
  { intros Hcode. apply Z.eqb_neq in Hcode.
    subst after. destruct this as [sk dl fs rs fp sks ps mt]; cbn in *. subst.
    exec. rewrite Hdata; exec. rewrite Hact, Hcode; exec. rewrite Hp; exec.
    rewrite list_lookup_alter_ne by exact Hne. rewrite Hres; exec. apply Hlook. }
  split; [|split].
  - intros Hcode. specialize (Hok Hcode). split.
    + apply (kept_settlement _ _ _ Hok).
    + intros evs.
      assert (Hdone : settlement {| settlement := Fulfilled; adopted_by := None |}
                      <> Pending) by discriminate.
      apply (kept_settlement _ _ _ (keeps_run _ _ Hdone evs _ Hok)).
  - intros Hcode.
    assert (Hns : statusCode r <> SUCCESS) by (rewrite Hcode; discriminate).
    specialize (Hko Hns). rewrite Hcode in Hko. apply (kept_settlement _ _ _ Hko).
  - intros Hns Hnu. specialize (Hko Hns).
    apply Z.eqb_neq in Hnu. rewrite Hnu in Hko. apply (kept_settlement _ _ _ Hko).
Qed.

(** C2.  When a socket is stored, [start] returns a promise that is
    already rejected with the error "already connected, please call stop
    first".  Nothing else happens: the trace is empty (no connection is
    opened, nothing is written), and the instance is as before but for the
    record of the promise returned. *)
Theorem start_while_connected :
  forall (this : State) (s : SocketId) (proxyAddress : string),
    socket this = Some s ->
    start platform proxyAddress this =
      (length (promises this),
       set_promises
         (promises this ++
            [{| settlement := Rejected (JsError "already connected, please call stop first");
                adopted_by := None |}]) this,
       []).
Proof.
  intros this s proxyAddress Hs.
  unfold start, new_promise, bind, get, modify, ret; cbn. rewrite Hs. reflexivity.
Qed.

(** C10.  A [configureRouting] response that reaches the data listener
    when [fulfillStart] and [rejectStart] are not both set is logged as
    unexpected and the socket is ended.  The instance is left as it was: no
    promise settles.  The status code plays no part. *)
Theorem unexpected_configure_response :
  forall (this : State) (s : SocketId) (r : RoutingServiceResponse),
    microtasks this = [] ->
    flag on_data s this = true ->
    fulfillStart this = None \/ rejectStart this = None ->
    action r = CONFIGURE_ROUTING ->
    step platform (SocketData s r) this =
      (tt, this,
       [ConsoleLogReceived r;
        ConsoleError "unexpected CONFIGURE_ROUTING response";
        SocketEnd s]).
Proof.
  intros this s r Hq Hdata Hunset Hact.
  destruct this as [sk dl fs rs fp sks ps mt]; cbn in *. subst.
  exec. rewrite Hdata; cbn. rewrite Hact; cbn.
  destruct Hunset as [-> | ->]; [|destruct fs]; reflexivity.
Qed.

(** C5.  A [configureRouting] response with a status other than 0, while
    a Configure is pending.  The data listener calls [rejectStart] and then
    [newSocket.end()]; when it returns, the promise built in [start] is
    rejected and the promise held by the caller of [start] is still
    pending.  That promise is rejected in the microtask that follows, that
    is, after the socket has been ended. *)
Theorem failed_configure_ends_socket_before_rejection :
  forall (this : State) (s : SocketId) (r : RoutingServiceResponse)
         (p result : PromiseId),
    microtasks this = [] ->
    flag on_data s this = true ->
    configure_pending this p result ->
    action r = CONFIGURE_ROUTING ->
    statusCode r <> SUCCESS ->
    let e := if Z.eqb (statusCode r) UNSUPPORTED_ROUTING_TABLE
             then UnsupportedRoutingTable (errorMessage r)
             else ConfigureSystemProxyFailure (errorMessage r) in
    let listener := dispatch platform (SocketData s r) this in
    let whole := step platform (SocketData s r) this in
    trace_of listener = [ConsoleLogReceived r; SocketEnd s]
    /\ settlement_of p (state_of listener) = Some (Rejected e)
    /\ settlement_of result (state_of listener) = Some Pending
    /\ microtasks (state_of listener) = [Adopt result (Rejected e)]
    /\ trace_of whole = [ConsoleLogReceived r; SocketEnd s; Settled result (Rejected e)]
    /\ settlement_of result (state_of whole) = Some (Rejected e).
Proof.
  intros this s r p result Hq Hdata (Hf & Hr & Hp & Hres) Hact Hcode e listener whole.
  pose proof (pending_distinct _ _ _ Hp Hres) as Hne.
  apply Z.eqb_neq in Hcode.
  subst listener whole. destruct this as [sk dl fs rs fp sks ps mt]; cbn in *. subst.
  exec. rewrite Hdata; exec. rewrite Hact, Hcode; exec. rewrite Hp; exec.
  rewrite !list_lookup_alter_eq, !list_lookup_alter_ne, Hp, Hres by exact Hne; cbn.
  rewrite !list_lookup_alter_eq, !list_lookup_alter_ne, Hres by exact Hne; cbn.
  repeat split; reflexivity.
Qed.

(** *** The ['data'] listener on a [resetRouting] response *)

Lemma step_reset this s r :
  flag on_data s this = true ->
  action r = RESET_ROUTING ->
  step platform (SocketData s r) this =
    (tt, state_of (reset_outcome s this),
     ConsoleLogReceived r :: trace_of (reset_outcome s this)).
Proof.
  intros Hdata Hact. unfold reset_outcome.
  unfold step, dispatch, onData, when, bind, get, emit, state_of, trace_of; cbn.
  rewrite Hdata; cbn. rewrite Hact; cbn.
  destruct (match fulfillStop this with
            | Some f => call_settle f Fulfilled
            | None => ret tt
            end this) as [[[] s1] t1].
  unfold drain, bind, get, modify; cbn.
  destruct (for_each (microtasks s1) run_job (set_microtasks [] s1)) as [[[] s2] t2].
  cbn. rewrite <- app_assoc. reflexivity.
Qed.

Lemma not_rejected_by_fulfilling (ps : list Promise) (x q : nat) (e : Error) :
  settlement <$> alter (with_settlement Fulfilled) x ps !! q = Some (Rejected e) ->
  settlement <$> ps !! q = Some (Rejected e).
Proof.
  destruct (decide (x = q)) as [->|Hne].
  - rewrite list_lookup_alter_eq. destruct (ps !! q); cbn; congruence.
  - rewrite list_lookup_alter_ne by exact Hne. auto.
Qed.

Lemma reset_outcome_spec this s :
  microtasks this = [] ->
  (exists rest, trace_of (reset_outcome s this) = SocketEnd s :: rest) /\
  (forall q e,
     settlement_of q (state_of (reset_outcome s this)) = Some (Rejected e) ->
     settlement_of q this = Some (Rejected e)).
Proof.
  intros Hq. destruct this as [sk dl fs rs fp sks ps mt]; cbn in *. subst.
  unfold reset_outcome. exec.
  destruct fp as [f|]; exec; [|split; [eexists; reflexivity | auto]].
  destruct (ps !! f) as [[[] [o|]]|] eqn:Hf; exec;
    try (split; [eexists; reflexivity | auto; fail]).
  - destruct (alter (with_settlement Fulfilled) f ps !! o) as [[[] a]|] eqn:Ho; exec;
      (split; [eexists; reflexivity | intros q err H]);
      repeat apply not_rejected_by_fulfilling in H; exact H.
  - split; [eexists; reflexivity | intros q err H].
    apply not_rejected_by_fulfilling in H; exact H.
Qed.

(** C3.  A [resetRouting] response that reaches the data listener.  What
    happens does not depend on its status code or error message: two such
    responses lead to the same state and, after the log line, to the same
    trace.  The socket is ended right after the log line, before any
    microtask runs.  No promise is rejected by the step.  When a Reset is
    pending, the promise that [stop] handed to its caller is fulfilled,
    and it stays fulfilled whatever happens afterwards. *)
Theorem reset_response_resolves_and_ends :
  forall (this : State) (s : SocketId) (r : RoutingServiceResponse),
    microtasks this = [] ->
    flag on_data s this = true ->
    action r = RESET_ROUTING ->
    let after := step platform (SocketData s r) this in
    (forall r', action r' = RESET_ROUTING ->
       state_of (step platform (SocketData s r') this) = state_of after /\
       trace_of (step platform (SocketData s r') this)
       = ConsoleLogReceived r' :: tail (trace_of after))
    /\ (exists rest, trace_of after = ConsoleLogReceived r :: SocketEnd s :: rest)
    /\ (forall q e,
          settlement_of q (state_of after) = Some (Rejected e) ->
          settlement_of q this = Some (Rejected e))
    /\ (forall p result,
          reset_pending this p result ->
          trace_of after = [ConsoleLogReceived r; SocketEnd s; Settled result Fulfilled]
          /\ settlement_of result (state_of after) = Some Fulfilled
          /\ forall evs,
               settlement_of result (fst (run platform evs (state_of after)))
               = Some Fulfilled).
Proof.
  intros this s r Hq Hdata Hact after. subst after.
  rewrite (step_reset this s r Hdata Hact).
  destruct (reset_outcome_spec this s Hq) as [[rest Hrest] Hnone].
  split; [|split; [|split]].
  - intros r' Hact'. rewrite (step_reset this s r' Hdata Hact'). split; reflexivity.
  - exists rest. unfold trace_of in *; cbn. rewrite Hrest. reflexivity.
  - exact Hnone.
  - intros p result (Hf & Hp & Hres).
    pose proof (pending_distinct _ _ _ Hp Hres) as Hne.
    assert (Hrun : reset_outcome s this =
              (tt,
               set_promises
                 (alter (with_settlement Fulfilled) result
                    (alter (with_settlement Fulfilled) p (promises this))) this,
               [SocketEnd s; Settled result Fulfilled])).
    { clear Hrest Hnone. destruct this as [sk dl fs rs fp sks ps mt]; cbn in *. subst.
      unfold reset_outcome. exec. rewrite Hp; exec.
      rewrite list_lookup_alter_ne by exact Hne. rewrite Hres; exec. reflexivity. }
    rewrite Hrun. unfold state_of, trace_of; cbn.
    assert (Hkeep : keeps result {| settlement := Fulfilled; adopted_by := None |}
              (set_promises
                 (alter (with_settlement Fulfilled) result
                    (alter (with_settlement Fulfilled) p (promises this))) this)).
    { unfold keeps; cbn.
      rewrite list_lookup_alter_eq, list_lookup_alter_ne, Hres by exact Hne. reflexivity. }
    assert (Hdone : settlement {| settlement := Fulfilled; adopted_by := None |}
                    <> Pending) by discriminate.
    split; [reflexivity|]. split.
    + apply (kept_settlement _ _ _ Hkeep).
    + intros evs. apply (kept_settlement _ _ _ (keeps_run _ _ Hdone evs _ Hkeep)).
Qed.

(** *** Listeners of a socket *)

Lemma microtasks_run_job j : preserves (fun s => microtasks s = []) (run_job j).
Proof.
  destruct j; unfold run_job, resume, settle_result, new_promise.
  all: repeat step_preserves ltac:(apply preserves_modify; intros ? ?; assumption).
Qed.

Lemma microtasks_step ev this : microtasks (state_of (step platform ev this)) = [].
Proof.
  unfold step, drain, bind, get, modify, state_of; cbn.
  destruct (dispatch platform ev this) as [[[] s1] t1].
  pose proof (preserves_for_each (fun s => microtasks s = []) (microtasks s1) _
                microtasks_run_job (set_microtasks [] s1) eq_refl) as H.
  unfold state_of in H.
  destruct (for_each (microtasks s1) run_job (set_microtasks [] s1)) as [[[] s2] t2].
  exact H.
Qed.

Lemma microtasks_run evs this :
  microtasks this = [] -> microtasks (fst (run platform evs this)) = [].
Proof.
  revert this. induction evs as [|ev evs IH]; intros this H; cbn; [exact H|].
  apply IH, microtasks_step.
Qed.

Lemma drain_idle this : microtasks this = [] -> drain this = (tt, this, []).
Proof.
  intros Hq. unfold drain, bind, get, modify, ret; cbn. rewrite Hq; cbn.
  destruct this; cbn in *; subst; reflexivity.
Qed.

(** An event for which the socket has no listener does nothing. *)
Lemma step_unheard ev this :
  microtasks this = [] ->
  match ev with
  | SocketConnect s => flag once_connect s this = false
  | SocketData s _ => flag on_data s this = false
  | SocketClose s _ => flag once_close s this = false
  | SocketError s => flag once_error s this = false
  | _ => False
  end ->
  step platform ev this = (tt, this, []).
Proof.
  intros Hq Hflag.
  destruct ev; try contradiction;
    unfold step, dispatch, bind, get, when; cbn -[drain]; rewrite Hflag; cbn -[drain];
    rewrite (drain_idle _ Hq); reflexivity.
Qed.

Lemma flag_alter sel f k s this :
  flag sel s (set_sockets (alter f k (sockets this)) this) =
    if decide (k = s) then
      match sockets this !! s with Some x => sel (f x) | None => false end
    else flag sel s this.
Proof.
  unfold flag; cbn. case_decide as Hk.
  - subst. rewrite list_lookup_alter_eq. destruct (sockets this !! s); reflexivity.
  - rewrite list_lookup_alter_ne by exact Hk. reflexivity.
Qed.

Lemma flag_app sel s this more :
  s < length (sockets this) ->
  flag sel s (set_sockets (sockets this ++ more) this) = flag sel s this.
Proof. intros H. unfold flag; cbn. rewrite lookup_app_l by exact H. reflexivity. Qed.

Lemma flag_true_lt sel s this : flag sel s this = true -> s < length (sockets this).
Proof.
  unfold flag. destruct (sockets this !! s) eqn:H; [|discriminate].
  intros _. eapply lookup_lt_Some, H.
Qed.

Lemma flag_same sel s this this' :
  sockets this' = sockets this -> flag sel s this' = flag sel s this.
Proof. unfold flag. intros ->. reflexivity. Qed.

Section OneSocket.
Variable s : SocketId.

Lemma closing_alter f k :
  k <> s \/ (forall x, once_close x = true -> once_close (f x) = true) ->
  preserves (closing s) (alter_socket f k).
Proof.
  intros Hf. apply preserves_modify. intros this H. unfold closing in *.
  rewrite flag_alter. case_decide as Hk; [|exact H].
  destruct Hf as [Hf|Hf]; [contradiction|]. subst k. unfold flag in H.
  destruct (sockets this !! s); [apply Hf, H | discriminate].
Qed.

Lemma closing_createConnection address a :
  preserves (closing s) (createConnection address a).
Proof.
  intros this H. unfold closing in *.
  unfold createConnection, bind, get, modify, emit, ret, state_of; cbn.
  rewrite <- H. apply (flag_app once_close s this), (flag_true_lt _ _ _ H).
Qed.

Lemma closing_modify f :
  (forall this, sockets (f this) = sockets this) -> preserves (closing s) (modify f).
Proof.
  intros Hf. apply preserves_modify. intros this H. unfold closing in *.
  rewrite (flag_same _ _ this); [exact H | apply Hf].
Qed.

Ltac closing_prim :=
  idtac;
  lazymatch goal with
  | |- preserves _ (createConnection _ _) => apply closing_createConnection
  | |- preserves _ (alter_socket _ _) =>
      apply closing_alter;
      first [ left; assumption | right; intros ? ?; assumption
            | right; intros ? ?; reflexivity ]
  | |- preserves _ (modify _) => apply closing_modify; intros ?; reflexivity
  end.

Lemma closing_step ev :
  is_close_of s ev = false -> preserves (closing s) (step platform ev).
Proof.
  intros Hev.
  unfold step, dispatch, drain, onData, onClose, onConnect, onError, start, stop,
    getSocket, setDisconnectionListener, run_job, resume,
    settle_acquisition, call_settle, settle_result, new_promise, enqueue.
  destruct ev as [addr| |l|k|k r|k c|k]; cbn in Hev;
    try (apply Nat.eqb_neq in Hev);
    repeat step_preserves closing_prim.
Qed.

Lemma dead_alter f k : k <> s -> preserves (dead s) (alter_socket f k).
Proof.
  intros Hk. apply preserves_modify. intros this H. unfold dead in *.
  rewrite !flag_alter. case_decide; [contradiction|].
  cbn. rewrite length_alter. exact H.
Qed.

Lemma dead_createConnection address a :
  preserves (dead s) (createConnection address a).
Proof.
  intros this (H1 & H2 & H3 & H4 & Hlt). unfold dead in *.
  unfold createConnection, bind, get, modify, emit, ret, state_of; cbn.
  rewrite !(flag_app _ s this) by exact Hlt. rewrite length_app. cbn.
  repeat split; try assumption. lia.
Qed.

Lemma dead_modify f :
  (forall this, sockets (f this) = sockets this) -> preserves (dead s) (modify f).
Proof.
  intros Hf. apply preserves_modify. intros this H. unfold dead in *.
  rewrite (flag_same once_connect _ this), (flag_same on_data _ this),
    (flag_same once_close _ this), (flag_same once_error _ this), Hf by apply Hf.
  exact H.
Qed.

Lemma dead_getSocket a : preserves (dead s) (getSocket platform a).
Proof.
  intros this (H1 & H2 & H3 & H4 & Hlt). unfold dead in *.
  unfold getSocket, createConnection, alter_socket, enqueue,
    bind, get, modify, emit, ret, state_of; cbn.
  destruct (socket this); cbn.
  - repeat split; assumption.
  - unfold flag in *; cbn.
    rewrite !list_lookup_alter_ne by lia. rewrite !lookup_app_l by exact Hlt.
    rewrite length_alter, length_app; cbn. repeat split; try assumption. lia.
Qed.

Ltac dead_prim :=
  idtac;
  lazymatch goal with
  | |- preserves _ (createConnection _ _) => apply dead_createConnection
  | |- preserves _ (getSocket _ _) => apply dead_getSocket
  | |- preserves _ (alter_socket _ _) => apply dead_alter; assumption
  | |- preserves _ (modify _) => apply dead_modify; intros ?; reflexivity
  end.

Lemma dead_step ev this :
  microtasks this = [] ->
  dead s this ->
  dead s (state_of (step platform ev this)) /\
  (is_close_of s ev = true -> trace_of (step platform ev this) = []).
Proof.
  intros Hq Hdead. pose proof Hdead as (H1 & H2 & H3 & H4 & Hlt).
  assert (Hother : forall k, k <> s ->
    match ev with
    | SocketConnect k' | SocketData k' _ | SocketClose k' _ | SocketError k' => k' = k
    | _ => True
    end -> preserves (dead s) (step platform ev)).
  { intros k Hk Hev.
    unfold step, dispatch, drain, onData, onClose, onConnect, onError, start, stop,
      setDisconnectionListener, run_job, resume,
      settle_acquisition, call_settle, settle_result, new_promise, enqueue.
    destruct ev; subst; repeat step_preserves dead_prim. }
  destruct ev as [addr| |l|k|k r|k c|k]; cbn [is_close_of];
    try (split; [apply (Hother (S s)); [lia | exact I | exact Hdead] | discriminate]);
    (destruct (decide (k = s)) as [->|Hk];
     [ rewrite step_unheard by (cbn; assumption); split; [exact Hdead | reflexivity]
     | split; [apply (Hother k Hk); [reflexivity | exact Hdead]
              | try discriminate; intros Hc; apply Nat.eqb_eq in Hc; contradiction ] ]).
Qed.
End OneSocket.

Lemma client_run_app evs1 evs2 this :
  run platform (evs1 ++ evs2) this =
    (fst (run platform evs2 (fst (run platform evs1 this))),
     snd (run platform evs1 this) ++ snd (run platform evs2 (fst (run platform evs1 this)))).
Proof.
  revert this. induction evs1 as [|ev evs1 IH]; intros this; cbn.
  - destruct (run platform evs2 this); reflexivity.
  - rewrite IH. reflexivity.
Qed.

Lemma client_notifications_app s (log1 log2 : list (Event * list Effect)) :
  notifications s (log1 ++ log2) = notifications s log1 + notifications s log2.
Proof.
  induction log1 as [|[ev tr] log1 IH]; cbn; [reflexivity|]. rewrite IH. lia.
Qed.

Lemma closing_run s evs this :
  closing s this ->
  forallb (fun ev => negb (is_close_of s ev)) evs = true ->
  closing s (fst (run platform evs this)) /\
  notifications s (snd (run platform evs this)) = 0.
Proof.
  revert this. induction evs as [|ev evs IH]; intros this Hc Hevs; cbn.
  - split; [exact Hc | reflexivity].
  - cbn in Hevs. apply andb_true_iff in Hevs as [Hev Hevs].
    apply negb_true_iff in Hev.
    destruct (IH _ (closing_step s ev Hev this Hc) Hevs) as [Hc' Hn].
    split; [exact Hc'|]. rewrite Hev, Hn. reflexivity.
Qed.

Lemma dead_run s evs this :
  microtasks this = [] ->
  dead s this ->
  notifications s (snd (run platform evs this)) = 0.
Proof.
  revert this. induction evs as [|ev evs IH]; intros this Hq Hd; cbn; [reflexivity|].
  destruct (dead_step s ev this Hq Hd) as [Hd' Htr].
  rewrite (IH _ (microtasks_step ev this) Hd').
  destruct (is_close_of s ev); [rewrite Htr by reflexivity|]; reflexivity.
Qed.

Lemma close_step this s cause :
  microtasks this = [] ->
  closing s this ->
  step platform (SocketClose s cause) this =
    (tt,
     set_socket None
       (set_sockets
          (alter without_listeners s (alter (with_once_close false) s (sockets this)))
          this),
     ConsoleLog "disconnected from routing service"
     :: notify (disconnectionListener this)).
Proof.
  intros Hq Hc. unfold closing in Hc.
  destruct this as [sk dl fs rs fp sks ps mt]; cbn in *. subst.
  exec. rewrite Hc; exec. destruct dl; reflexivity.
Qed.

Lemma dead_after_close this s :
  closing s this ->
  dead s
    (set_socket None
       (set_sockets
          (alter without_listeners s (alter (with_once_close false) s (sockets this)))
          this)).
Proof.
  intros Hc. pose proof (flag_true_lt _ _ _ Hc) as Hlt.
  unfold dead, flag; cbn. rewrite !list_lookup_alter_eq, !length_alter.
  destruct (sockets this !! s); cbn; repeat split; assumption.
Qed.

Lemma client_length_notify l : length (List.filter is_notification (notify l)) = length (notify l).
Proof. destruct l; reflexivity. Qed.

(** C6.  The disconnect listener and the life of a connection.  Take a
    socket whose ['close'] listener is registered, that is, one that has
    connected.  Whatever happens before its ['close'] event, nothing is
    notified on its behalf.  Its ['close'] event, whatever made the socket
    close, logs the disconnection and calls the disconnect listener
    registered at that time, once, and the listener finds [this.socket]
    already cleared.  After that no event of this socket notifies anything.
    So over the whole life of the connection the listener is called once,
    or not at all when none is registered. *)
Theorem disconnect_listener_once_per_connection :
  forall (this : State) (s : SocketId) (pre post : list Event) (cause : CloseCause),
    let before := fst (run platform pre this) in
    let closed := step platform (SocketClose s cause) before in
    microtasks this = [] ->
    flag once_close s this = true ->
    forallb (fun ev => negb (is_close_of s ev)) pre = true ->
    notifications s (snd (run platform pre this)) = 0
    /\ trace_of closed
       = ConsoleLog "disconnected from routing service"
         :: notify (disconnectionListener before)
    /\ socket (state_of closed) = None
    /\ notifications s (snd (run platform post (state_of closed))) = 0
    /\ notifications s (snd (run platform (pre ++ SocketClose s cause :: post) this))
       = match disconnectionListener before with Some _ => 1 | None => 0 end.
Proof.
  intros this s pre post cause before closed Hq Hc Hpre.
  destruct (closing_run s pre this Hc Hpre) as [Hc' Hquiet]. fold before in Hc'.
  pose proof (microtasks_run pre this Hq) as Hq'. fold before in Hq'.
  pose proof (close_step before s cause Hq' Hc') as Hstep. fold closed in Hstep.
  assert (Hpost : notifications s (snd (run platform post (state_of closed))) = 0).
  { apply dead_run; [apply microtasks_step|].
    rewrite Hstep. apply dead_after_close, Hc'. }
  split; [exact Hquiet|]. split; [rewrite Hstep; reflexivity|].
  split; [rewrite Hstep; reflexivity|]. split; [exact Hpost|].
  rewrite client_run_app. cbn [snd]. rewrite client_notifications_app. fold before.
  cbn [run snd notifications is_close_of]. fold closed.
  rewrite Hquiet, Hpost, Nat.eqb_refl.
  replace (trace_of closed) with
    (ConsoleLog "disconnected from routing service" :: notify (disconnectionListener before))
    by (rewrite Hstep; reflexivity).
  cbn [List.filter is_notification]. rewrite client_length_notify.
  destruct (disconnectionListener before); reflexivity.
Qed.

(** *** Every state between two events is well formed *)

Lemma snoc_old (A : list (option PromiseId)) x i y :
  A !! i = Some y -> (A ++ [x]) !! i = Some y.
Proof. apply lookup_app_l_Some. Qed.

Lemma snoc_new (A : list (option PromiseId)) x : (A ++ [x]) !! length A = Some x.
Proof. apply list_lookup_middle. reflexivity. Qed.

Lemma snoc_inv (A : list (option PromiseId)) x i y :
  (A ++ [x]) !! i = Some y -> A !! i = Some y \/ (i = length A /\ x = y).
Proof. intros H. apply lookup_snoc_Some in H. tauto. Qed.

Lemma in_range (A : list (option PromiseId)) i x : A !! i = Some x -> i < length A.
Proof. apply lookup_lt_Some. Qed.

Lemma await_dropped (Q : list (option Awaiter)) s s' a :
  alter (fun _ => None) s Q !! s' = Some (Some a) -> s <> s' /\ Q !! s' = Some (Some a).
Proof.
  destruct (decide (s = s')) as [->|Hne].
  - rewrite list_lookup_alter_eq. destruct (Q !! s'); discriminate.
  - rewrite list_lookup_alter_ne by exact Hne. auto.
Qed.

Lemma wf_initial : wf (view constructor).
Proof. split; cbn; unfold adopts, handed_out, awaits; cbn; intros; discriminate. Qed.

Lemma wf_push_result v : wf v -> wf (push_adopt None v).
Proof.
  intros [Hs Hp Hap Had Hinj Haw Hawi].
  split; unfold adopts, handed_out, awaits in *; cbn.
  - intros i Hi. destruct (Hs i Hi) as [o Ho]. exists o. apply snoc_old, Ho.
  - intros q Hq. destruct (Hp q Hq) as [o Ho]. exists o. apply snoc_old, Ho.
  - exact Hap.
  - intros i o H. apply snoc_inv in H as [H|[_ ?]]; [|discriminate].
    apply snoc_old, (Had i o H).
  - intros i j o Hi Hj.
    apply snoc_inv in Hi as [Hi|[_ ?]]; [|discriminate].
    apply snoc_inv in Hj as [Hj|[_ ?]]; [|discriminate].
    apply (Hinj i j o Hi Hj).
  - intros s a H. destruct (Haw s a H) as [Hh Hn]. split; [apply snoc_old, Hh|].
    intros i Hi. apply snoc_inv in Hi as [Hi|[_ ?]]; [|discriminate]. apply (Hn i Hi).
  - exact Hawi.
Qed.

Lemma free_new v : wf v -> free (push_adopt None v) (length (v_adopt v)).
Proof.
  intros [Hs Hp Hap Had Hinj Haw Hawi].
  unfold free, adopts, handed_out, awaits in *; cbn. split; [apply snoc_new|]. split.
  - intros i Hi. apply snoc_inv in Hi as [Hi|[_ ?]]; [|discriminate].
    apply Had, in_range in Hi. lia.
  - intros s a H Heq. destruct (Haw s a H) as [Hh _]. apply in_range in Hh. lia.
Qed.

Lemma wf_push_await v a : wf v -> free v (result_of a) -> wf (push_await a v).
Proof.
  intros [Hs Hp Hap Had Hinj Haw Hawi] (Hh & Hn & Hother).
  assert (Hcase : forall s a',
    (v_await v ++ [Some a]) !! s = Some (Some a') ->
    v_await v !! s = Some (Some a') \/ (s = length (v_await v) /\ a' = a)).
  { intros s a' H. apply lookup_snoc_Some in H as [[_ H]|[-> H]]; [left; exact H|].
    right. split; [reflexivity | congruence]. }
  split; unfold adopts, handed_out, awaits in *; cbn; try assumption.
  - intros s a' H. apply Hcase in H as [H|[_ ->]]; [apply (Haw s a' H)|].
    split; assumption.
  - intros s1 s2 a1 a2 H1 H2 Heq.
    apply Hcase in H1 as [H1|[-> ->]]; apply Hcase in H2 as [H2|[-> ->]].
    + apply (Hawi s1 s2 a1 a2 H1 H2 Heq).
    + exfalso. apply (Hother s1 a1 H1 Heq).
    + exfalso. apply (Hother s2 a2 H2). symmetry. exact Heq.
    + reflexivity.
Qed.

Lemma wf_drop_await v s : wf v -> wf (drop_await s v).
Proof.
  intros [Hs Hp Hap Had Hinj Haw Hawi].
  split; unfold adopts, handed_out, awaits in *; cbn; try assumption.
  - intros s' a H. apply await_dropped in H as [_ H]. apply (Haw s' a H).
  - intros s1 s2 a1 a2 H1 H2.
    apply await_dropped in H1 as [_ H1]. apply await_dropped in H2 as [_ H2].
    apply (Hawi s1 s2 a1 a2 H1 H2).
Qed.

Lemma free_dropped v s a : wf v -> awaits v s a -> free (drop_await s v) (result_of a).
Proof.
  intros [Hs Hp Hap Had Hinj Haw Hawi] H.
  unfold free, adopts, handed_out, awaits in *; cbn.
  destruct (Haw s a H) as [Hh Hn]. split; [exact Hh|]. split; [exact Hn|].
  intros s' a' H' Heq. apply await_dropped in H' as [Hne H'].
  apply Hne. apply (Hawi s s' a a' H H'). symmetry. exact Heq.
Qed.

(** The promise that a method returns adopting the free promise [r] of the
    method. *)
Lemma wf_adopted v r :
  wf v -> free v r ->
  let v' := push_adopt (Some r) v in
  (forall i o, adopts v i o -> adopts v' i o) /\
  adopts v' (length (v_adopt v)) r /\
  (forall i o, adopts v' i o -> handed_out v' o) /\
  (forall i j o, adopts v' i o -> adopts v' j o -> i = j) /\
  (forall s a, awaits v' s a ->
     handed_out v' (result_of a) /\ forall i, ~ adopts v' i (result_of a)) /\
  (forall s1 s2 a1 a2,
     awaits v' s1 a1 -> awaits v' s2 a2 -> result_of a1 = result_of a2 -> s1 = s2).
Proof.
  intros [Hs Hp Hap Had Hinj Haw Hawi] (Hh & Hn & Hother).
  unfold adopts, handed_out, awaits in *; cbn.
  split; [intros i o H; apply snoc_old, H|]. split; [apply snoc_new|].
  split; [|split; [|split]]; try assumption.
  - intros i o H. apply snoc_inv in H as [H|[_ H]].
    + apply snoc_old, (Had i o H).
    + injection H as <-. apply snoc_old, Hh.
  - intros i j o Hi Hj.
    apply snoc_inv in Hi as [Hi|[-> Hi]]; apply snoc_inv in Hj as [Hj|[-> Hj]].
    + apply (Hinj i j o Hi Hj).
    + injection Hj as <-. exfalso. apply (Hn i Hi).
    + injection Hi as <-. exfalso. apply (Hn j Hj).
    + reflexivity.
  - intros s a H. destruct (Haw s a H) as [Hha Hna]. split; [apply snoc_old, Hha|].
    intros i Hi. apply snoc_inv in Hi as [Hi|[_ Hi]]; [apply (Hna i Hi)|].
    injection Hi as Hi. apply (Hother s a H). symmetry. exact Hi.
Qed.

Lemma wf_adopt_start v r :
  wf v -> free v r -> wf (store_start (length (v_adopt v)) (push_adopt (Some r) v)).
Proof.
  intros Hwf Hfree.
  destruct (wf_adopted v r Hwf Hfree) as (Hold & Hnew & Had' & Hinj' & Haw' & Hawi').
  destruct Hwf as [Hs Hp Hap Had Hinj Haw Hawi].
  split; try assumption.
  - intros i Hi. cbn in Hi. injection Hi as <-. exists r. exact Hnew.
  - intros q Hq. destruct (Hp q Hq) as [o Ho]. exists o. apply Hold, Ho.
  - intros i Hi Hq. cbn in Hi, Hq. injection Hi as <-.
    destruct (Hp _ Hq) as [o Ho]. apply in_range in Ho. lia.
Qed.

Lemma wf_adopt_stop v r :
  wf v -> free v r -> wf (store_stop (length (v_adopt v)) (push_adopt (Some r) v)).
Proof.
  intros Hwf Hfree.
  destruct (wf_adopted v r Hwf Hfree) as (Hold & Hnew & Had' & Hinj' & Haw' & Hawi').
  destruct Hwf as [Hs Hp Hap Had Hinj Haw Hawi].
  split; try assumption.
  - intros i Hi. destruct (Hs i Hi) as [o Ho]. exists o. apply Hold, Ho.
  - intros q Hq. cbn in Hq. injection Hq as <-. exists r. exact Hnew.
  - intros i Hi Hq. cbn in Hi, Hq. injection Hq as <-.
    destruct (Hs _ Hi) as [o Ho]. apply in_range in Ho. lia.
Qed.

Lemma evolves_wf v v' : wf v -> evolves v v' -> wf v'.
Proof.
  intros Hwf Hev. destruct Hev as [| |a Ha|s|s result proxyAddress Hs|s result Hs|].
  - exact Hwf.
  - apply wf_push_result, Hwf.
  - apply wf_push_await; [apply wf_push_result, Hwf|].
    rewrite Ha. apply free_new, Hwf.
  - apply wf_drop_await, Hwf.
  - apply (wf_adopt_start (drop_await s v) result); [apply wf_drop_await, Hwf|].
    apply (free_dropped v s _ Hwf Hs).
  - apply (wf_adopt_stop (drop_await s v) result); [apply wf_drop_await, Hwf|].
    apply (free_dropped v s _ Hwf Hs).
  - pose proof (wf_adopt_stop (push_adopt None v) (length (v_adopt v))
                  (wf_push_result v Hwf) (free_new v Hwf)) as H.
    cbn in H. rewrite length_app in H. cbn in H.
    replace (length (v_adopt v) + 1) with (S (length (v_adopt v))) in H by lia.
    exact H.
Qed.

Lemma evolves_to v v1 v2 : evolves v v1 -> v1 = v2 -> evolves v v2.
Proof. intros H <-. exact H. Qed.

Lemma adopt_settled how p (ps : list Promise) :
  adopted_by <$> alter (with_settlement how) p ps = adopted_by <$> ps.
Proof.
  rewrite (list_fmap_alter adopted_by (with_settlement how) (fun x => x)).
  - apply list_alter_id. reflexivity.
  - apply Forall_forall. reflexivity.
Qed.

Lemma await_flags f s (sks : list Socket) :
  (forall k, acquiring (f k) = acquiring k) ->
  acquiring <$> alter f s sks = acquiring <$> sks.
Proof.
  intros Hf. rewrite (list_fmap_alter acquiring f (fun x => x)).
  - apply list_alter_id. reflexivity.
  - apply Forall_forall. intros k _. apply Hf.
Qed.

Lemma await_settled s (sks : list Socket) :
  acquiring <$> alter (with_acquiring None) s sks
  = alter (fun _ => None) s (acquiring <$> sks).
Proof.
  apply list_fmap_alter, Forall_forall. reflexivity.
Qed.

Ltac view_eq :=
  unfold view, push_adopt, push_await, drop_await, store_start, store_stop; cbn;
  rewrite ?fmap_app, ?adopt_settled, ?await_settled, ?length_fmap; cbn;
  rewrite ?await_flags by reflexivity;
  rewrite ?fmap_app, ?adopt_settled, ?await_settled, ?length_fmap, ?length_app; cbn;
  rewrite ?Nat.add_1_r;
  try reflexivity.

(** Messages and closings leave the view as it is. *)

Section SameView.
Variable v : View.

Lemma same_view_call_settle p how : preserves (same_view v) (call_settle p how).
Proof.
  intros this [Hv Hq].
  unfold call_settle, enqueue, bind, get, modify, ret, state_of; cbn.
  destruct (promises this !! p) as [[[] [o|]]|]; cbn; try (split; assumption).
  - split; [rewrite <- Hv; view_eq|]. cbn. apply Forall_app. split; [exact Hq|].
    repeat constructor.
  - split; [rewrite <- Hv; view_eq | exact Hq].
Qed.

Lemma view_settle_result p how this :
  view (state_of (settle_result p how this)) = view this.
Proof.
  unfold settle_result, bind, get, modify, emit, ret, state_of; cbn.
  destruct (promises this !! p) as [[[] a]|]; cbn; try reflexivity. view_eq.
Qed.

Lemma same_view_alter f k :
  (forall x, acquiring (f x) = acquiring x) ->
  preserves (same_view v) (alter_socket f k).
Proof.
  intros Hf. apply preserves_modify. intros this [Hv Hq].
  split; [|exact Hq]. rewrite <- Hv. unfold view; cbn.
  rewrite (await_flags f k _ Hf). reflexivity.
Qed.

Lemma same_view_modify f :
  (forall this, view (f this) = view this) ->
  (forall this, microtasks (f this) = microtasks this) ->
  preserves (same_view v) (modify f).
Proof.
  intros Hf Hm. apply preserves_modify. intros this [Hv Hq].
  split; [rewrite Hf; exact Hv | unfold same_view; rewrite Hm; exact Hq].
Qed.

Ltac same_view_prim :=
  idtac;
  lazymatch goal with
  | |- preserves _ (call_settle _ _) => apply same_view_call_settle
  | |- preserves _ (alter_socket _ _) =>
      apply same_view_alter; intros ?; reflexivity
  | |- preserves _ (modify _) => apply same_view_modify; intros ?; reflexivity
  end.

Lemma same_view_data k r : preserves (same_view v) (dispatch platform (SocketData k r)).
Proof. unfold dispatch, onData. repeat step_preserves same_view_prim. Qed.

Lemma same_view_close k c : preserves (same_view v) (dispatch platform (SocketClose k c)).
Proof. unfold dispatch, onClose. repeat step_preserves same_view_prim. Qed.

Lemma same_view_drain this : same_view v this -> view (state_of (drain this)) = v.
Proof.
  intros [Hv Hq].
  assert (Hjobs : forall js s,
    Forall is_adopt js -> view s = v -> view (state_of (for_each js run_job s)) = v).
  { induction js as [|j js IH]; intros s Hjs Hs; [exact Hs|].
    apply Forall_cons in Hjs as [Hj Hjs'].
    destruct j as [|p how]; [contradiction|]. cbn [for_each].
    unfold bind, state_of. cbn [run_job].
    pose proof (view_settle_result p how s) as Hs'. rewrite Hs in Hs'.
    unfold state_of in Hs'. destruct (settle_result p how s) as [[[] s1] t1]; cbn in Hs'.
    specialize (IH s1 Hjs' Hs'). unfold state_of in IH.
    destruct (for_each js run_job s1) as [[[] s2] t2]. exact IH. }
  unfold drain, bind, get, modify, state_of; cbn.
  specialize (Hjobs (microtasks this) (set_microtasks [] this) Hq Hv).
  unfold state_of in Hjobs.
  destruct (for_each (microtasks this) run_job (set_microtasks [] this)) as [[[] s2] t2].
  exact Hjobs.
Qed.
End SameView.

Lemma state_of_step ev this :
  state_of (step platform ev this) = state_of (drain (state_of (dispatch platform ev this))).
Proof.
  unfold step, bind, state_of.
  destruct (dispatch platform ev this) as [[[] s1] t1]; cbn -[drain].
  destruct (drain s1) as [[[] s2] t2]. reflexivity.
Qed.

Lemma step_evolves ev this :
  microtasks this = [] ->
  evolves (view this) (view (state_of (step platform ev this))).
Proof.
  intros Hq.
  assert (Hsame : same_view (view this) this).
  { split; [reflexivity | rewrite Hq; constructor]. }
  destruct ev as [addr| |l|k|k r|k c|k];
    try (rewrite state_of_step;
         erewrite same_view_drain;
         [ apply ev_same
         | first [ apply same_view_data | apply same_view_close ]; exact Hsame ]);
    clear Hsame;
    destruct this as [sk dl fs rs fp sks ps mt]; cbn in *; subst.
  - exec. destruct sk; exec.
    + eapply evolves_to; [apply ev_result | view_eq].
    + eapply evolves_to; [apply (ev_await _ (InStart (length ps) addr)) | view_eq].
      cbn. rewrite length_fmap. reflexivity.
  - exec. destruct sk; exec.
    + eapply evolves_to; [apply ev_stop_stored | view_eq].
    + eapply evolves_to; [apply (ev_await _ (InStop (length ps))) | view_eq].
      cbn. rewrite length_fmap. reflexivity.
  - exec. apply ev_same.
  - exec. destruct (sks !! k) as [sock|] eqn:Hk; exec; [|apply ev_same].
    destruct (once_connect sock) eqn:Hc; exec; [|apply ev_same].
    rewrite !list_lookup_alter_eq, Hk; exec.
    destruct (acquiring sock) as [[o addr|o]|] eqn:Ha; exec.
    + eapply evolves_to; [apply (ev_start _ k o addr) | view_eq].
      unfold awaits; cbn. rewrite list_lookup_fmap, Hk; cbn. rewrite Ha. reflexivity.
    + eapply evolves_to; [apply (ev_stop _ k o) | view_eq].
      unfold awaits; cbn. rewrite list_lookup_fmap, Hk; cbn. rewrite Ha. reflexivity.
    + eapply evolves_to; [apply ev_same | view_eq].
  - exec. destruct (sks !! k) as [sock|] eqn:Hk; exec; [|apply ev_same].
    destruct (once_error sock) eqn:Hc; exec; [|apply ev_same].
    rewrite !list_lookup_alter_eq, Hk; exec.
    destruct (acquiring sock) as [a|] eqn:Ha; exec.
    + destruct (ps !! result_of a) as [[[] x]|]; exec;
        (eapply evolves_to; [apply (ev_give_up _ k) | view_eq]).
    + eapply evolves_to; [apply ev_same | view_eq].
Qed.

Lemma reachable_wf this :
  reachable platform this -> wf (view this) /\ microtasks this = [].
Proof.
  intros [evs ->].
  assert (H : forall evs this,
    wf (view this) /\ microtasks this = [] ->
    wf (view (fst (run platform evs this))) /\
    microtasks (fst (run platform evs this)) = []).
  { clear evs. induction evs as [|ev evs IH]; intros this [Hwf Hq]; cbn; [split; assumption|].
    apply IH. split; [|apply microtasks_step].
    apply (evolves_wf _ _ Hwf), step_evolves, Hq. }
  apply H. split; [apply wf_initial | reflexivity].
Qed.

(** *** Other messages while a Configure is pending *)

Lemma reset_keeps_configure this s p result :
  wf (view this) ->
  microtasks this = [] ->
  configure_pending this p result ->
  configure_pending (state_of (reset_outcome s this)) p result.
Proof.
  intros [_ Hstop Hapart Hadopter Hinj _ _] Hq (Hf & Hr & Hp & Hres).
  unfold adopts, handed_out in *.
  destruct this as [sk dl fs rs fp sks ps mt]; cbn in *. subst.
  assert (Hap : (adopted_by <$> ps) !! p = Some (Some result))
    by (rewrite list_lookup_fmap, Hp; reflexivity).
  unfold reset_outcome, configure_pending. exec.
  destruct fp as [f|]; exec; [|repeat split; assumption].
  assert (Hfp : f <> p) by (intros ->; apply (Hapart p); reflexivity).
  destruct (Hstop f eq_refl) as [o' Ho'].
  assert (Hfr : f <> result).
  { intros ->. rewrite list_lookup_fmap, Hres in Ho'. discriminate. }
  destruct (ps !! f) as [[[] [o|]]|] eqn:Hlf; exec; try (repeat split; assumption).
  - rewrite list_lookup_fmap, Hlf in Ho'. injection Ho' as <-.
    assert (Haf : (adopted_by <$> ps) !! f = Some (Some o))
      by (rewrite list_lookup_fmap, Hlf; reflexivity).
    assert (Hor : o <> result).
    { intros ->. apply Hfp. apply (Hinj f p result Haf Hap). }
    assert (Hop : o <> p).
    { intros ->. pose proof (Hadopter f p Haf) as Hh. rewrite Hap in Hh. discriminate. }
    destruct (alter (with_settlement Fulfilled) f ps !! o) as [[[] a]|] eqn:Hlo; exec;
      rewrite ?list_lookup_alter_ne by assumption; repeat split; assumption.
  - rewrite list_lookup_fmap, Hlf in Ho'. discriminate.
Qed.

(** C4, as the code has it.  A message whose action is not
    [configureRouting] reaches the data listener while a Configure is
    pending, in a state the instance can be in between two events.  The
    message is logged and the Configure stays pending: its resolving
    functions stay in place and neither its promise nor the promise held by
    the caller of [start] settles.  The socket is ended when the action is
    [resetRouting].  For every other action, [statusChanged] included, an
    error is logged and nothing else happens: the socket is not ended and
    the instance is left as it was. *)
Theorem other_response_while_configure_pending :
  forall (this : State) (s : SocketId) (r : RoutingServiceResponse)
         (p result : PromiseId),
    reachable platform this ->
    flag on_data s this = true ->
    configure_pending this p result ->
    action r <> CONFIGURE_ROUTING ->
    let after := step platform (SocketData s r) this in
    (exists rest, trace_of after = ConsoleLogReceived r :: rest)
    /\ configure_pending (state_of after) p result
    /\ (action r = RESET_ROUTING ->
          exists rest, trace_of after = ConsoleLogReceived r :: SocketEnd s :: rest)
    /\ (action r <> RESET_ROUTING ->
          after
          = (tt, this,
             [ConsoleLogReceived r;
              ConsoleError "unexpected response type received from routing service"])).
Proof.
  intros this s r p result Hreach Hdata Hpending Hnc after.
  destruct (reachable_wf this Hreach) as [Hwf Hq].
  destruct (String.eqb_spec (action r) RESET_ROUTING) as [Hreset|Hother].
  - subst after. rewrite (step_reset this s r Hdata Hreset).
    destruct (reset_outcome_spec this s Hq) as [[rest Hrest] _].
    unfold trace_of, state_of in *; cbn.
    split; [eexists; reflexivity|].
    split; [apply (reset_keeps_configure this s p result Hwf Hq Hpending)|].
    split; [intros _; exists rest; rewrite Hrest; reflexivity | contradiction].
  - assert (Hstep : after =
      (tt, this,
       [ConsoleLogReceived r;
        ConsoleError "unexpected response type received from routing service"])).
    { subst after. apply String.eqb_neq in Hnc, Hother.
      destruct this as [sk dl fs rs fp sks ps mt]; cbn in *. subst.
      exec. rewrite Hdata; exec. rewrite Hnc, Hother; exec. reflexivity. }
    rewrite Hstep. unfold trace_of, state_of; cbn.
    split; [eexists; reflexivity|]. split; [exact Hpending|].
    split; [contradiction | reflexivity].
Qed.


(** *** Sockets and promises created during a run

    New sockets and promises are put at the end of their list.  Lists are
    kept in the form [l ++ [x0; x1; ...]] and ranks in the form
    [S (... (length l))]. *)

Lemma length_past {A} (l m : list A) : length (l ++ m) = length m + length l.
Proof. rewrite length_app. lia. Qed.

Lemma lookup_past {A} (k : nat) (l m : list A) : (l ++ m) !! (k + length l) = m !! k.
Proof. rewrite lookup_app_r by lia. f_equal. lia. Qed.

Lemma alter_past {A} (f : A -> A) (k : nat) (l m : list A) :
  alter f (k + length l) (l ++ m) = l ++ alter f k m.
Proof. rewrite Nat.add_comm. apply alter_app_r. Qed.

Lemma lookup_past0 {A} (l m : list A) : (l ++ m) !! length l = m !! 0.
Proof. apply (lookup_past 0). Qed.
Lemma lookup_past1 {A} (l m : list A) : (l ++ m) !! S (length l) = m !! 1.
Proof. apply (lookup_past 1). Qed.
Lemma lookup_past2 {A} (l m : list A) : (l ++ m) !! S (S (length l)) = m !! 2.
Proof. apply (lookup_past 2). Qed.
Lemma lookup_past3 {A} (l m : list A) : (l ++ m) !! S (S (S (length l))) = m !! 3.
Proof. apply (lookup_past 3). Qed.

Lemma alter_past0 {A} (f : A -> A) (l m : list A) :
  alter f (length l) (l ++ m) = l ++ alter f 0 m.
Proof. apply (alter_past f 0). Qed.
Lemma alter_past1 {A} (f : A -> A) (l m : list A) :
  alter f (S (length l)) (l ++ m) = l ++ alter f 1 m.
Proof. apply (alter_past f 1). Qed.
Lemma alter_past2 {A} (f : A -> A) (l m : list A) :
  alter f (S (S (length l))) (l ++ m) = l ++ alter f 2 m.
Proof. apply (alter_past f 2). Qed.
Lemma alter_past3 {A} (f : A -> A) (l m : list A) :
  alter f (S (S (S (length l)))) (l ++ m) = l ++ alter f 3 m.
Proof. apply (alter_past f 3). Qed.

Ltac past :=
  repeat progress
    (rewrite <- ?app_assoc in *; rewrite ?length_past in *;
     cbn [app length Nat.add] in *;
     rewrite ?lookup_past0, ?lookup_past1, ?lookup_past2, ?lookup_past3,
       ?alter_past0, ?alter_past1, ?alter_past2, ?alter_past3 in *;
     cbn [lookup list_lookup alter list_alter] in *).

(** Symbolic execution of a step that creates sockets and promises; the
    state is given and returned field by field. *)
Ltac compact :=
  cbv [set_socket set_disconnectionListener set_fulfillStart set_rejectStart
       set_fulfillStop set_sockets set_promises set_microtasks
       socket disconnectionListener fulfillStart rejectStart fulfillStop
       sockets promises microtasks
       with_once_connect with_on_data with_once_close with_once_error
       with_acquiring without_listeners with_settlement
       once_connect on_data once_close once_error acquiring
       settlement adopted_by] in *.

Ltac exec_run := repeat progress (exec; past; compact).

Lemma run_cons ev evs this :
  run platform (ev :: evs) this =
    (fst (run platform evs (state_of (step platform ev this))),
     (ev, trace_of (step platform ev this))
     :: snd (run platform evs (state_of (step platform ev this)))).
Proof. reflexivity. Qed.

(** Symbolic execution of a run, event by event. *)
Ltac run_event :=
  rewrite run_cons;
  lazymatch goal with
  | |- context [step platform ?ev ?st] =>
      let E := fresh "E" in
      eassert (E : step platform ev st = _);
      [ exec_run; reflexivity
      | rewrite !E; clear E; cbn [state_of trace_of fst snd] ]
  end.

Ltac run_events := repeat run_event; cbn [run fst snd].

(** *** Calls and the connection they use *)

(** X7.  [start] on an instance that stores no socket opens a connection
    to the service address and writes nothing; its promise is pending and
    [this.socket] is still unset.  When that socket connects, the connect
    listener logs, registers the data and close listeners and stores the
    socket, and [start] goes on: it writes the [configureRouting] request
    with the proxy address on the new socket and a Configure is pending. *)
Theorem start_connects_then_configures :
  forall (this : State) (proxyAddress : string),
    let s := length (sockets this) in
    let result := length (promises this) in
    let called := step platform (CallStart proxyAddress) this in
    let connected := step platform (SocketConnect s) (state_of called) in
    socket this = None ->
    microtasks this = [] ->
    trace_of called = [CreateConnection s (SERVICE_ADDRESS platform)]
    /\ socket (state_of called) = None
    /\ settlement_of result (state_of called) = Some Pending
    /\ trace_of connected
       = [ConsoleLog "connected to routing service";
          SocketWrite s (configure_request proxyAddress)]
    /\ socket (state_of connected) = Some s
    /\ flag on_data s (state_of connected) = true
    /\ closing s (state_of connected)
    /\ configure_pending (state_of connected) (S result) result.
Proof.
  intros this proxyAddress s result called connected Hs Hq.
  subst s result called connected. unfold closing, configure_pending.
  destruct this as [sk dl fs rs fp sks ps mt]; cbn in *. subst.
  exec_run. repeat split; reflexivity.
Qed.

(** X8.  [stop] on an instance that stores no socket does the same with
    the [resetRouting] request: nothing is written before the socket has
    connected, and then a Reset is pending on the stored socket. *)
Theorem stop_connects_then_resets :
  forall (this : State),
    let s := length (sockets this) in
    let result := length (promises this) in
    let called := step platform CallStop this in
    let connected := step platform (SocketConnect s) (state_of called) in
    socket this = None ->
    microtasks this = [] ->
    trace_of called = [CreateConnection s (SERVICE_ADDRESS platform)]
    /\ socket (state_of called) = None
    /\ settlement_of result (state_of called) = Some Pending
    /\ trace_of connected
       = [ConsoleLog "connected to routing service"; SocketWrite s reset_request]
    /\ socket (state_of connected) = Some s
    /\ flag on_data s (state_of connected) = true
    /\ closing s (state_of connected)
    /\ reset_pending (state_of connected) (S result) result.
Proof.
  intros this s result called connected Hs Hq.
  subst s result called connected. unfold closing, reset_pending.
  destruct this as [sk dl fs rs fp sks ps mt]; cbn in *. subst.
  exec_run. repeat split; reflexivity.
Qed.

(** X9.  [stop] on an instance that stores a socket opens no connection:
    it writes the [resetRouting] request on the stored socket in the same
    turn of the event loop, and a Reset is pending.  The socket, the
    listeners and the callbacks of [start] are left as they were. *)
Theorem stop_writes_on_stored_socket :
  forall (this : State) (s : SocketId),
    let result := length (promises this) in
    let called := step platform CallStop this in
    socket this = Some s ->
    microtasks this = [] ->
    trace_of called = [SocketWrite s reset_request]
    /\ socket (state_of called) = Some s
    /\ sockets (state_of called) = sockets this
    /\ fulfillStart (state_of called) = fulfillStart this
    /\ rejectStart (state_of called) = rejectStart this
    /\ reset_pending (state_of called) (S result) result.
Proof.
  intros this s result called Hs Hq.
  subst result called. unfold reset_pending.
  destruct this as [sk dl fs rs fp sks ps mt]; cbn in *. subst.
  exec_run. repeat split; reflexivity.
Qed.

(** X10.  A connection that fails before it has connected.  The ['error']
    event of the new socket rejects the promise of the call that opened
    it, [start] or [stop], with [SystemConfigurationException].  Nothing
    is written, no callback is stored, [this.socket] stays unset, and the
    ['close'] event that follows reaches no listener: the disconnection
    listener is not called for a connection that never opened. *)
Theorem failed_connection_rejects_request :
  forall (this : State) (call : Event) (cause : CloseCause),
    let s := length (sockets this) in
    let result := length (promises this) in
    let r := run platform [call; SocketError s; SocketClose s cause] this in
    is_request call = true ->
    socket this = None ->
    microtasks this = [] ->
    snd r = [(call, [CreateConnection s (SERVICE_ADDRESS platform)]);
             (SocketError s, [Settled result (Rejected SystemConfigurationException)]);
             (SocketClose s cause, [])]
    /\ settlement_of result (fst r) = Some (Rejected SystemConfigurationException)
    /\ socket (fst r) = None
    /\ fulfillStart (fst r) = fulfillStart this
    /\ rejectStart (fst r) = rejectStart this
    /\ fulfillStop (fst r) = fulfillStop this.
Proof.
  intros this call cause s result r Hcall Hs Hq. subst s result r.
  destruct this as [sk dl fs rs fp sks ps mt]; cbn in Hs, Hq. subst.
  cbn [sockets promises fulfillStart rejectStart fulfillStop].
  destruct call; try discriminate; run_events; exec_run; repeat split; reflexivity.
Qed.

(** X11.  A whole session.  From an instance that stores no socket:
    [start], the connection, a successful [configureRouting] response,
    [stop], a [resetRouting] response and the closing of the socket.  One
    connection is opened; the two requests are written on it; the promise
    of [start] is fulfilled by the first response and the connection stays
    open; the promise of [stop] is fulfilled by the second, after the
    client has ended the socket; the ['close'] event calls the
    disconnection listener once and leaves the instance without socket,
    ready for a new [start]. *)
Theorem session_round_trip :
  forall (this : State) (proxyAddress : string)
         (configured reset : RoutingServiceResponse) (cause : CloseCause),
    let s := length (sockets this) in
    let result := length (promises this) in
    let r := run platform
               [CallStart proxyAddress; SocketConnect s; SocketData s configured;
                CallStop; SocketData s reset; SocketClose s cause] this in
    socket this = None ->
    microtasks this = [] ->
    action configured = CONFIGURE_ROUTING ->
    statusCode configured = SUCCESS ->
    action reset = RESET_ROUTING ->
    snd r = [(CallStart proxyAddress, [CreateConnection s (SERVICE_ADDRESS platform)]);
             (SocketConnect s,
              [ConsoleLog "connected to routing service";
               SocketWrite s (configure_request proxyAddress)]);
             (SocketData s configured,
              [ConsoleLogReceived configured; Settled result Fulfilled]);
             (CallStop, [SocketWrite s reset_request]);
             (SocketData s reset,
              [ConsoleLogReceived reset; SocketEnd s;
               Settled (S (S result)) Fulfilled]);
             (SocketClose s cause,
              ConsoleLog "disconnected from routing service"
              :: notify (disconnectionListener this))]
    /\ socket (fst r) = None
    /\ dead s (fst r)
    /\ length (sockets (fst r)) = S (length (sockets this)).
Proof.
  intros this proxyAddress configured reset cause s result r Hs Hq Hc Hok Hr.
  subst s result r. unfold dead.
  destruct this as [sk dl fs rs fp sks ps mt]; cbn in Hs, Hq. subst.
  destruct configured as [a1 st1 em1 cs1], reset as [a2 st2 em2 cs2];
    cbn in Hc, Hok, Hr. subst.
  cbn [sockets promises disconnectionListener].
  destruct dl; run_events; exec_run; repeat split; try reflexivity; lia.
Qed.

(** *** What the listeners leave alone *)

Section Passes.
Variable P : State -> Prop.
Variable Q : Effect -> Prop.

Lemma passes_ret {A} (a : A) : passes P Q (ret a).
Proof. intros s H. split; [exact H | constructor]. Qed.

Lemma passes_get : passes P Q get.
Proof. intros s H. split; [exact H | constructor]. Qed.

Lemma passes_emit (e : Effect) : Q e -> passes P Q (emit e).
Proof. intros He s H. split; [exact H | repeat constructor; exact He]. Qed.

Lemma passes_modify (f : State -> State) :
  (forall s, P s -> P (f s)) -> passes P Q (modify f).
Proof. intros Hf s H. split; [apply Hf, H | constructor]. Qed.

Lemma passes_bind {A B} (m : Op A) (k : A -> Op B) :
  passes P Q m -> (forall a, passes P Q (k a)) -> passes P Q (bind m k).
Proof.
  intros Hm Hk s H. specialize (Hm s H). unfold bind, state_of, trace_of in *.
  destruct (m s) as [[a s1] t1]; cbn in Hm. destruct Hm as [Hs1 Ht1].
  specialize (Hk a s1 Hs1).
  destruct (k a s1) as [[b s2] t2]; cbn in Hk |- *. destruct Hk as [Hs2 Ht2].
  split; [exact Hs2 | apply Forall_app; split; assumption].
Qed.

Lemma passes_when (c : bool) (m : Op unit) : passes P Q m -> passes P Q (when c m).
Proof. intros Hm. destruct c; [exact Hm | apply passes_ret]. Qed.

Lemma passes_for_each {A} (J : A -> Prop) (xs : list A) (f : A -> Op unit) :
  (forall x, J x -> passes P Q (f x)) -> Forall J xs -> passes P Q (for_each xs f).
Proof.
  intros Hf. induction xs as [|x xs IH]; intros Hxs; cbn.
  - apply passes_ret.
  - apply Forall_cons in Hxs as [Hx Hxs].
    apply passes_bind; [apply Hf, Hx | intros _; apply IH, Hxs].
Qed.

Lemma passes_bind_get {B} (k : State -> Op B) :
  (forall s0, P s0 -> passes P Q (k s0)) -> passes P Q (bind get k).
Proof.
  intros Hk s H. specialize (Hk s H s H).
  unfold bind, get, state_of, trace_of in *.
  destruct (k s s) as [[b s2] t2]. exact Hk.
Qed.

(** The microtasks, when all of them are of kind [J]. *)
Lemma passes_drain (J : Job -> Prop) :
  (forall s, P s -> Forall J (microtasks s)) ->
  (forall s, P s -> P (set_microtasks [] s)) ->
  (forall j, J j -> passes P Q (run_job j)) ->
  passes P Q drain.
Proof.
  intros Hjobs Hreset Hjob s H.
  assert (Hrest : passes P Q
            (bind (modify (set_microtasks []))
                  (fun _ => for_each (microtasks s) run_job))).
  { apply passes_bind; [apply passes_modify, Hreset|]. intros _.
    apply (passes_for_each J); [exact Hjob | apply Hjobs, H]. }
  specialize (Hrest s H).
  assert (Heq : drain s
                = bind (modify (set_microtasks []))
                       (fun _ => for_each (microtasks s) run_job) s).
  { unfold drain. unfold bind at 1, get.
    destruct (bind (modify (set_microtasks []))
                   (fun _ => for_each (microtasks s) run_job) s) as [[b s2] t2].
    reflexivity. }
  rewrite Heq. exact Hrest.
Qed.
End Passes.

Ltac step_passes prim :=
  lazymatch goal with
  | |- passes _ _ (bind _ _) => apply passes_bind
  | |- passes _ _ (ret _) => apply passes_ret
  | |- passes _ _ get => apply passes_get
  | |- passes _ _ (emit _) => apply passes_emit; try reflexivity
  | |- passes _ _ (when _ _) => apply passes_when
  | |- passes _ _ (match ?x with _ => _ end) => destruct x
  | |- passes _ _ _ => prim
  | |- _ => progress intros
  end.

Section DataListener.
Variable this : State.
Variable s : SocketId.

Lemma settling_call_settle p how :
  passes (settling this) (data_effects s) (call_settle p how).
Proof.
  intros st [Hst Hq]. unfold settling, settles_only in *.
  destruct Hst as (H1 & H2 & H3 & H4 & H5 & H6 & H7).
  unfold call_settle, enqueue, bind, get, modify, ret, state_of, trace_of; cbn.
  destruct (promises st !! p) as [[[] [o|]]|]; cbn;
    rewrite ?adopt_settled; repeat split; try assumption; try constructor.
  apply Forall_app. split; [exact Hq | repeat constructor].
Qed.

Lemma settling_settle_result p how :
  passes (settling this) (data_effects s) (settle_result p how).
Proof.
  intros st [Hst Hq]. unfold settling, settles_only in *.
  destruct Hst as (H1 & H2 & H3 & H4 & H5 & H6 & H7).
  unfold settle_result, bind, get, modify, emit, ret, state_of, trace_of; cbn.
  destruct (promises st !! p) as [[[] a]|]; cbn;
    rewrite ?adopt_settled; repeat split; try assumption; repeat constructor.
Qed.

Lemma settling_dispatch r :
  passes (settling this) (data_effects s) (dispatch platform (SocketData s r)).
Proof.
  unfold dispatch, onData.
  repeat step_passes ltac:(idtac; apply settling_call_settle);
    unfold data_effects; cbn; apply Nat.eqb_refl.
Qed.

Lemma settling_step r :
  passes (settling this) (data_effects s) (step platform (SocketData s r)).
Proof.
  unfold step. apply passes_bind; [apply settling_dispatch|]. intros _.
  apply (passes_drain _ _ is_adopt).
  - intros st [_ Hq]. exact Hq.
  - intros st [Hst _]. split; [exact Hst | constructor].
  - intros [a got|p how] Hj; [contradiction | apply settling_settle_result].
Qed.
End DataListener.

(** X12.  A message from the service, whatever it says and whatever the
    state, changes nothing but the state of promises: [this.socket], the
    disconnection listener, the stored callbacks and the listeners of every
    socket are as before, no promise is created, and a promise that had
    settled is left as it was.  The only things it does outside the
    instance are to log, to end the socket the message came from and to
    settle promises of callers: it writes no request, opens no connection
    and does not call the disconnection listener. *)
Theorem message_settles_only :
  forall (this : State) (s : SocketId) (r : RoutingServiceResponse),
    let after := step platform (SocketData s r) this in
    microtasks this = [] ->
    settles_only this (state_of after)
    /\ length (promises (state_of after)) = length (promises this)
    /\ (forall p pr, promises this !! p = Some pr -> settlement pr <> Pending ->
          promises (state_of after) !! p = Some pr)
    /\ forallb (data_effect s) (trace_of after) = true.
Proof.
  intros this s r after Hq.
  assert (Hstart : settling this this).
  { split; [repeat split | rewrite Hq; constructor]. }
  destruct (settling_step this s r this Hstart) as [[Hsame _] Htrace].
  fold after in Hsame, Htrace.
  split; [exact Hsame|]. split; [|split].
  - destruct Hsame as (_ & _ & _ & _ & _ & _ & Hadopt).
    apply (f_equal length) in Hadopt. rewrite !length_fmap in Hadopt. exact Hadopt.
  - intros p pr Hp Hdone. apply (keeps_step p pr Hdone _ this Hp).
  - apply forallb_forall. intros e He.
    apply (proj1 (Forall_forall _ _) Htrace). apply list_elem_of_In, He.
Qed.

(** X13.  An ['error'] event of a socket whose connection had been
    obtained does nothing that can be seen: the promise of [getSocket] has
    settled, so the call of [R] is ignored.  No promise changes, nothing is
    logged, written or notified, and the socket stays stored with its data
    and close listeners; telling the caller is left to the ['close']
    listener. *)
Theorem error_after_connect_changes_nothing :
  forall (this : State) (s : SocketId),
    let after := step platform (SocketError s) this in
    microtasks this = [] ->
    acquired s this = true ->
    trace_of after = []
    /\ promises (state_of after) = promises this
    /\ socket (state_of after) = socket this
    /\ fulfillStart (state_of after) = fulfillStart this
    /\ rejectStart (state_of after) = rejectStart this
    /\ fulfillStop (state_of after) = fulfillStop this
    /\ (forall k, flag on_data k (state_of after) = flag on_data k this)
    /\ (forall k, flag once_close k (state_of after) = flag once_close k this).
Proof.
  intros this s after Hq Hacq. subst after. unfold acquired in Hacq.
  destruct this as [sk dl fs rs fp sks ps mt]; cbn in Hq, Hacq. subst.
  destruct (sks !! s) as [[c d cl e [a|]]|] eqn:Hs; try discriminate.
  exec. rewrite Hs; exec. destruct e; exec; [|repeat split; reflexivity].
  rewrite !list_lookup_alter_eq, Hs; exec.
  repeat split; try reflexivity; intros k.
  - destruct (decide (s = k)) as [->|Hne].
    + rewrite list_lookup_alter_eq, Hs. reflexivity.
    + rewrite list_lookup_alter_ne by exact Hne. reflexivity.
  - destruct (decide (s = k)) as [->|Hne].
    + rewrite list_lookup_alter_eq, Hs. reflexivity.
    + rewrite list_lookup_alter_ne by exact Hne. reflexivity.
Qed.

(** X14.  The ['close'] listener settles nothing.  When a connection is
    lost, or ended, while a Configure or a Reset is pending, the promise
    held by the caller is neither fulfilled nor rejected and the stored
    callbacks stay in place: the caller learns of the loss from the
    disconnection listener alone. *)
Theorem close_settles_nothing :
  forall (this : State) (s : SocketId) (cause : CloseCause),
    let after := step platform (SocketClose s cause) this in
    microtasks this = [] ->
    promises (state_of after) = promises this
    /\ (forall e, In e (trace_of after) ->
          match e with Settled _ _ => False | _ => True end)
    /\ (forall p result,
          configure_pending this p result -> configure_pending (state_of after) p result)
    /\ (forall p result,
          reset_pending this p result -> reset_pending (state_of after) p result).
Proof.
  intros this s cause after Hq. subst after.
  destruct (flag once_close s this) eqn:Hc.
  - rewrite (close_step this s cause Hq Hc). unfold state_of, trace_of; cbn.
    split; [reflexivity|]. split; [|split; intros p result H; exact H].
    intros e [<-|He]; [exact I|]. destruct (disconnectionListener this); cbn in He.
    + destruct He as [<-|[]]. exact I.
    + destruct He.
  - rewrite (step_unheard (SocketClose s cause) this Hq Hc). unfold state_of, trace_of; cbn.
    split; [reflexivity|]. split; [intros e []|split; intros p result H; exact H].
Qed.

(** X15.  The callbacks of [start] are never cleared.  Once the promise
    they belong to has settled, a further [configureRouting] response is
    not reported as unexpected: it is logged and the calls of the callbacks
    are ignored, so that no promise changes.  With status 0 nothing else
    happens; with any other status the socket is ended all the same. *)
Theorem settled_configure_drops_response :
  forall (this : State) (s : SocketId) (r : RoutingServiceResponse)
         (p q : PromiseId),
    microtasks this = [] ->
    flag on_data s this = true ->
    fulfillStart this = Some p ->
    rejectStart this = Some q ->
    settlement_of p this <> Some Pending ->
    settlement_of q this <> Some Pending ->
    action r = CONFIGURE_ROUTING ->
    step platform (SocketData s r) this
    = (tt, this,
       ConsoleLogReceived r
       :: if Z.eqb (statusCode r) SUCCESS then [] else [SocketEnd s]).
Proof.
  intros this s r p q Hq Hdata Hf Hr Hp Hq' Hact.
  destruct this as [sk dl fs rs fp sks ps mt]; cbn in Hq, Hf, Hr. subst.
  unfold settlement_of in Hp, Hq'. cbn in Hp, Hq'.
  exec. rewrite Hdata; exec. rewrite Hact; exec.
  destruct (statusCode r =? SUCCESS)%Z; exec.
  - destruct (ps !! p) as [[[] a]|]; exec; try reflexivity. congruence.
  - destruct (ps !! q) as [[[] a]|]; exec; try reflexivity. congruence.
Qed.

(** X16.  A [resetRouting] response when no Reset is pending, because
    [stop] was never called or because its promise has settled already:
    the message is logged and the socket is ended, and the instance is left
    as it was. *)
Theorem reset_response_without_reset :
  forall (this : State) (s : SocketId) (r : RoutingServiceResponse),
    microtasks this = [] ->
    flag on_data s this = true ->
    spent (fulfillStop this) this ->
    action r = RESET_ROUTING ->
    step platform (SocketData s r) this
    = (tt, this, [ConsoleLogReceived r; SocketEnd s]).
Proof.
  intros this s r Hq Hdata Hspent Hact.
  destruct this as [sk dl fs rs fp sks ps mt]; cbn in Hq, Hspent. subst.
  unfold spent, settlement_of in Hspent. cbn in Hspent.
  assert (Hother : String.eqb (action r) CONFIGURE_ROUTING = false).
  { rewrite Hact. reflexivity. }
  exec. rewrite Hdata; exec. rewrite Hother, Hact; exec.
  destruct fp as [q|]; exec; [|reflexivity].
  destruct (ps !! q) as [[[] a]|]; exec; try reflexivity. congruence.
Qed.

(** *** The callbacks of [start] *)

Lemma armed_modify f :
  (forall st, armed st = true -> armed (f st) = true) ->
  preserves (fun st => armed st = true) (modify f).
Proof. intros Hf. apply preserves_modify, Hf. Qed.

Ltac armed_prim :=
  idtac;
  lazymatch goal with
  | |- preserves _ (modify _) =>
      apply armed_modify; intros st; unfold armed; cbn;
      destruct (fulfillStart st), (rejectStart st); intros H;
      try discriminate H; reflexivity
  end.

Lemma armed_step ev : preserves (fun st => armed st = true) (step platform ev).
Proof.
  destruct ev;
    unfold step, dispatch, drain, onData, onClose, onConnect, onError, start, stop,
      getSocket, setDisconnectionListener, run_job, resume, createConnection,
      settle_acquisition, alter_socket, call_settle, settle_result, enqueue,
      new_promise;
    repeat step_preserves armed_prim.
Qed.

Lemma armed_run evs this :
  armed this = true -> armed (fst (run platform evs this)) = true.
Proof.
  revert this. induction evs as [|ev evs IH]; intros this H; cbn; [exact H|].
  apply IH, armed_step, H.
Qed.

(** Case analysis on what a step looks up and tests. *)
Ltac cases :=
  repeat (exec;
          match goal with
          | |- context [match ?l !! ?i with _ => _ end] => destruct (l !! i) eqn:?
          | |- context [match ?x with _ => _ end] => is_var x; destruct x
          | |- context [if ?b then _ else _] => destruct b eqn:?
          end);
  exec.

Ltac not_in :=
  let H := fresh in
  intros H; cbn in H; repeat (destruct H as [H|H]; [discriminate H|]); exact H.

(** X17.  Once both callbacks of [start] are set they stay set, whatever
    is called and whatever arrives: the code never clears them.  From then
    on no [configureRouting] response is reported as unexpected, on any
    socket. *)
Theorem start_callbacks_stay_set :
  forall (this : State) (evs : list Event) (s : SocketId)
         (r : RoutingServiceResponse),
    let later := fst (run platform evs this) in
    microtasks this = [] ->
    armed this = true ->
    armed later = true
    /\ ~ In (ConsoleError "unexpected CONFIGURE_ROUTING response")
            (trace_of (step platform (SocketData s r) later)).
Proof.
  intros this evs s r later Hq Ha.
  pose proof (armed_run evs this Ha) as Ha'.
  pose proof (microtasks_run evs this Hq) as Hq'.
  fold later in Ha', Hq'. split; [exact Ha'|].
  clearbody later. clear this Hq Ha. unfold armed in Ha'.
  destruct later as [sk dl [p|] [q|] fp sks ps mt]; cbn in Hq', Ha'; try discriminate.
  subst. cases; not_in.
Qed.

Lemma agree_resume a got :
  preserves (fun st => fulfillStart st = rejectStart st) (resume a got).
Proof.
  intros st H. destruct st as [sk dl fs rs fp sks ps mt]; cbn in H. subst.
  destruct got as [k|e], a as [o addr|o]; cases; reflexivity.
Qed.

Ltac agree_prim :=
  idtac;
  lazymatch goal with
  | |- preserves _ (resume _ _) => apply agree_resume
  | |- preserves _ (modify _) =>
      let H := fresh in apply preserves_modify; intros ? H; exact H
  end.

Lemma agree_step ev :
  preserves (fun st => fulfillStart st = rejectStart st) (step platform ev).
Proof.
  destruct ev;
    unfold step, dispatch, drain, onData, onClose, onConnect, onError, start, stop,
      getSocket, setDisconnectionListener, run_job, createConnection,
      settle_acquisition, alter_socket, call_settle, settle_result, enqueue,
      new_promise;
    repeat step_preserves agree_prim.
Qed.

(** X18.  In every state the instance can be in between two events, the
    two callbacks of [start] belong to the same promise or are both unset:
    the guard of the [configureRouting] branch fails only as long as no
    [start] has got its socket. *)
Theorem start_callbacks_set_together :
  forall this : State,
    reachable platform this ->
    fulfillStart this = rejectStart this
    /\ (armed this = false <-> fulfillStart this = None).
Proof.
  intros this [evs ->].
  assert (H : forall evs st,
            fulfillStart st = rejectStart st ->
            fulfillStart (fst (run platform evs st))
            = rejectStart (fst (run platform evs st))).
  { clear evs. induction evs as [|ev evs IH]; intros st Hst; cbn; [exact Hst|].
    apply IH, agree_step, Hst. }
  specialize (H evs constructor eq_refl).
  split; [exact H|]. unfold armed. rewrite <- H.
  destruct (fulfillStart (fst (run platform evs constructor))); split; congruence.
Qed.

(** *** The stored socket *)

Lemma listening_alter f k :
  (forall x, on_data x = true -> on_data (f x) = true) ->
  (forall x, once_close x = true -> once_close (f x) = true) ->
  preserves listening (alter_socket f k).
Proof.
  intros Hd Hc. apply preserves_modify. intros st H s Hs.
  specialize (H s Hs). change (socket st = Some s) in Hs.
  rewrite !flag_alter. case_decide as Hk; [|exact H].
  unfold flag in H. destruct (sockets st !! s) as [x|]; [|destruct H; discriminate].
  destruct H as [H1 H2]. split; [apply Hd, H1 | apply Hc, H2].
Qed.

Lemma listening_createConnection address a :
  preserves listening (createConnection address a).
Proof.
  intros st H s Hs. specialize (H s Hs).
  unfold createConnection, bind, get, modify, emit, ret, state_of; cbn.
  destruct H as [H1 H2]. pose proof (flag_true_lt _ _ _ H1) as Hlt.
  rewrite !flag_app by exact Hlt. split; assumption.
Qed.

Ltac listening_prim :=
  idtac;
  lazymatch goal with
  | |- preserves _ (createConnection _ _) => apply listening_createConnection
  | |- preserves _ (alter_socket _ _) =>
      apply listening_alter; intros [? ? ? ? ?] ?; assumption
  | |- preserves _ (modify _) =>
      let H := fresh in apply preserves_modify; intros ? H; exact H
  end.

Lemma listening_drain : preserves listening drain.
Proof.
  unfold drain, run_job, resume, settle_result, new_promise.
  repeat step_preserves listening_prim.
Qed.

Lemma listening_connect s : preserves listening (dispatch platform (SocketConnect s)).
Proof.
  intros st H. unfold listening in *.
  destruct st as [sk dl fs rs fp sks ps mt]; cbn in H.
  cases; try exact H.
  all: compact; cbn; intros s1 Hs1; injection Hs1 as <-.
  all: rewrite !list_lookup_alter_eq.
  all: match goal with Hk : _ !! _ = Some _ |- _ => rewrite Hk end.
  all: cbn; split; reflexivity.
Qed.

Lemma listening_dispatch ev :
  match ev with SocketClose _ _ => False | _ => True end ->
  preserves listening (dispatch platform ev).
Proof.
  destruct ev as [addr| |l|k|k r|k c|k]; intros Hev;
    [ | | | apply listening_connect | | contradiction | ];
    unfold dispatch, onData, onError, start, stop, getSocket,
      setDisconnectionListener, settle_acquisition, call_settle, enqueue, new_promise;
    repeat step_preserves listening_prim.
Qed.

Lemma listening_step ev this :
  microtasks this = [] -> listening this -> listening (state_of (step platform ev this)).
Proof.
  intros Hq H.
  destruct ev as [addr| |l|k|k r|k c|k];
    try (rewrite state_of_step; apply listening_drain, listening_dispatch;
         [exact I | exact H]).
  destruct (flag once_close k this) eqn:Hc.
  - rewrite (close_step this k c Hq Hc). intros s Hs. discriminate Hs.
  - rewrite (step_unheard (SocketClose k c) this Hq Hc). exact H.
Qed.

Lemma listening_run evs this :
  microtasks this = [] -> listening this -> listening (fst (run platform evs this)).
Proof.
  revert this. induction evs as [|ev evs IH]; intros this Hq H; cbn; [exact H|].
  apply IH; [apply microtasks_step | apply listening_step; assumption].
Qed.

(** X19.  The socket stored in [this.socket] always has its data and
    close listeners: a response to what is written on it is heard, and its
    closing clears the field.  This holds after every run of events from a
    state where it holds, the state after the constructor included. *)
Theorem stored_socket_has_listeners :
  forall (this : State) (evs : list Event) (s : SocketId),
    microtasks this = [] ->
    listening this ->
    socket (fst (run platform evs this)) = Some s ->
    flag on_data s (fst (run platform evs this)) = true
    /\ closing s (fst (run platform evs this)).
Proof.
  intros this evs s Hq H Hs. apply (listening_run evs this Hq H s Hs).
Qed.

Lemma write_stored ev this k req :
  microtasks this = [] ->
  In (SocketWrite k req) (trace_of (step platform ev this)) ->
  socket (state_of (step platform ev this)) = Some k
  /\ (req = reset_request \/ exists proxyAddress, req = configure_request proxyAddress).
Proof.
  intros Hq. destruct this as [sk dl fs rs fp sks ps mt]; cbn in Hq. subst.
  destruct ev as [addr| |l|s|s r|s c|s]; cases.
  all: intros H; cbn in H.
  all: repeat (destruct H as [H|H]; [try discriminate H|]); try contradiction.
  all: injection H as <- <-; split; [reflexivity|].
  all: first [left; reflexivity | right; eexists; reflexivity].
Qed.

Lemma write_event ev this k req :
  microtasks this = [] ->
  In (SocketWrite k req) (trace_of (step platform ev this)) ->
  ev = CallStop \/ ev = SocketConnect k.
Proof.
  intros Hq. destruct this as [sk dl fs rs fp sks ps mt]; cbn in Hq. subst.
  destruct ev as [addr| |l|s|s r|s c|s]; cases.
  all: intros H; cbn in H.
  all: repeat (destruct H as [H|H]; [try discriminate H|]); try contradiction.
  all: injection H as <- <-; first [left; reflexivity | right; reflexivity].
Qed.

(** X20.  Where requests go.  In any step, a request is written only on
    the socket that [this.socket] holds when the step is over, and that
    socket has its data listener, so that the response will be heard; the
    request is the [resetRouting] request or a [configureRouting] request.
    The data, close and error listeners write nothing: requests are
    written by [stop] on a stored socket, or when a socket connects. *)
Theorem requests_go_to_stored_socket :
  forall (this : State) (ev : Event) (k : SocketId) (req : RoutingServiceRequest),
    let after := step platform ev this in
    microtasks this = [] ->
    listening this ->
    In (SocketWrite k req) (trace_of after) ->
    socket (state_of after) = Some k
    /\ flag on_data k (state_of after) = true
    /\ (req = reset_request \/ exists proxyAddress, req = configure_request proxyAddress)
    /\ (ev = CallStop \/ ev = SocketConnect k).
Proof.
  intros this ev k req after Hq H Hin. subst after.
  destruct (write_stored ev this k req Hq Hin) as [Hs Hreq].
  split; [exact Hs|]. split; [|split; [exact Hreq|]].
  - apply (listening_step ev this Hq H k Hs).
  - apply (write_event ev this k req Hq Hin).
Qed.
(** *** Promises that are left behind *)

Section Abandoned.
Variables (p result : PromiseId).
Variable this : State.
Hypothesis Hwf : wf (view this).
Hypothesis Hagree : fulfillStart this = rejectStart this.
Hypothesis Hleft : abandoned p result this.

Lemma abandoned_adopts : adopts (view this) p result /\ handed_out (view this) result.
Proof.
  destruct Hleft as (Hp & Hr & _). unfold adopts, handed_out, view; cbn.
  rewrite !list_lookup_fmap, Hp, Hr. split; reflexivity.
Qed.

(** A promise whose resolving function is in a field, and the promise
    that follows it, are other promises than [p] and [result]. *)
Lemma field_apart f :
  fulfillStart this = Some f \/ rejectStart this = Some f \/ fulfillStop this = Some f ->
  f <> p /\ f <> result /\
  (exists o, adopts (view this) f o) /\
  (forall o, adopts (view this) f o -> o <> p /\ o <> result).
Proof.
  intros Hf. destruct abandoned_adopts as [Hp Hr].
  destruct Hleft as (_ & _ & H1 & H2 & H3).
  assert (Hne : f <> p) by (destruct Hf as [Hf|[Hf|Hf]]; congruence).
  assert (Hsome : exists o, adopts (view this) f o).
  { destruct Hf as [Hf|[Hf|Hf]].
    - apply (wf_start _ Hwf), Hf.
    - apply (wf_start _ Hwf). cbn. rewrite Hagree. exact Hf.
    - apply (wf_stop _ Hwf), Hf. }
  assert (Hall : forall o, adopts (view this) f o -> o <> p /\ o <> result).
  { intros o Ho. split; intros ->.
    - pose proof (wf_adopter _ Hwf _ _ Ho) as Hout.
      unfold adopts, handed_out in *. congruence.
    - apply Hne. apply (wf_inj _ Hwf f p result); assumption. }
  split; [exact Hne|]. split; [|split; assumption].
  intros ->. destruct Hsome as [o Ho]. unfold adopts, handed_out in *. congruence.
Qed.

Lemma undisturbed_call_settle f how :
  fulfillStart this = Some f \/ rejectStart this = Some f \/ fulfillStop this = Some f ->
  passes (undisturbed p result this) (fun _ => True) (call_settle f how).
Proof.
  intros Hf. destruct (field_apart f Hf) as (Hfp & Hfr & Hsome & Hall).
  intros st (Hst & Hp & Hr & Hq).
  assert (Hview : adopted_by <$> promises st = adopted_by <$> promises this).
  { destruct Hst as (_ & _ & _ & _ & _ & _ & H). exact H. }
  unfold undisturbed, settles_only in *.
  destruct Hst as (H1 & H2 & H3 & H4 & H5 & H6 & H7).
  unfold call_settle, enqueue, bind, get, modify, ret, state_of, trace_of; cbn.
  destruct (promises st !! f) as [[[] [o|]]|] eqn:Hlook; cbn;
    rewrite ?adopt_settled, ?list_lookup_alter_ne by assumption;
    repeat split; try assumption; try constructor.
  apply Forall_app. split; [exact Hq|]. constructor; [|constructor]. cbn.
  apply Hall. unfold adopts, view; cbn. rewrite <- Hview, list_lookup_fmap, Hlook.
  reflexivity.
Qed.

Lemma undisturbed_settle_result o how :
  o <> p -> o <> result ->
  passes (undisturbed p result this) (fun _ => True) (settle_result o how).
Proof.
  intros Hop Hor st (Hst & Hp & Hr & Hq).
  unfold undisturbed, settles_only in *.
  destruct Hst as (H1 & H2 & H3 & H4 & H5 & H6 & H7).
  unfold settle_result, bind, get, modify, emit, ret, state_of, trace_of; cbn.
  destruct (promises st !! o) as [[[] a]|]; cbn;
    rewrite ?adopt_settled, ?list_lookup_alter_ne by assumption;
    repeat split; try assumption; repeat constructor.
Qed.

Ltac undisturbed_step :=
  lazymatch goal with
  | |- passes _ _ (bind get _) => apply passes_bind_get; intros ? ?
  | |- passes _ _ (bind _ _) => apply passes_bind
  | |- passes _ _ (ret _) => apply passes_ret
  | |- passes _ _ (emit _) => apply passes_emit; exact I
  | |- passes _ _ (when _ _) => apply passes_when
  | |- passes _ _ (match ?x with _ => _ end) => destruct x eqn:?
  | |- passes _ _ (call_settle _ _) =>
      apply undisturbed_call_settle;
      repeat match goal with
             | H : undisturbed _ _ _ _ |- _ =>
                 destruct H as ((_ & _ & ? & ? & ? & _) & _)
             end;
      first [ left; congruence | right; left; congruence | right; right; congruence ]
  | |- _ => progress intros
  end.

Lemma undisturbed_data s r :
  passes (undisturbed p result this) (fun _ => True) (step platform (SocketData s r)).
Proof.
  unfold step. apply passes_bind.
  - unfold dispatch, onData. repeat undisturbed_step.
  - intros _. apply (passes_drain _ _ (passes_by p result)).
    + intros st (_ & _ & _ & Hq). exact Hq.
    + intros st (Hst & Hp & Hr & _). repeat split; try assumption; try apply Hst.
      constructor.
    + intros [a got|o how] Hj; [contradiction|].
      destruct Hj as [Hop Hor]. apply undisturbed_settle_result; assumption.
Qed.
End Abandoned.

Lemma abandoned_step ev this p result :
  wf (view this) ->
  microtasks this = [] ->
  fulfillStart this = rejectStart this ->
  abandoned p result this ->
  abandoned p result (state_of (step platform ev this)).
Proof.
  intros Hwf Hq Hagree Hleft.
  destruct ev as [addr| |l|k|k r|k c|k].
  - destruct this as [sk dl fs rs fp sks ps mt]; cbn in Hq; subst.
    unfold abandoned in *. cbn in Hleft.
    destruct Hleft as (Hp & Hr & H1 & H2 & H3).
    pose proof (lookup_lt_Some _ _ _ Hp) as Hltp.
    pose proof (lookup_lt_Some _ _ _ Hr) as Hltr.
    cases; compact; cbn.
    all: rewrite ?lookup_app_l by (rewrite ?length_app; cbn; lia).
    all: repeat split; try assumption.
  - destruct this as [sk dl fs rs fp sks ps mt]; cbn in Hq; subst.
    unfold abandoned in *. cbn in Hleft.
    destruct Hleft as (Hp & Hr & H1 & H2 & H3).
    pose proof (lookup_lt_Some _ _ _ Hp) as Hltp.
    pose proof (lookup_lt_Some _ _ _ Hr) as Hltr.
    cases; compact; cbn.
    all: rewrite ?lookup_app_l by (rewrite ?length_app; cbn; lia).
    all: repeat split; try assumption.
    all: rewrite ?length_app; cbn; intros [= Heq]; lia.
  - destruct this as [sk dl fs rs fp sks ps mt]; cbn in Hq; subst. exact Hleft.
  - destruct this as [sk dl fs rs fp sks ps mt]; cbn in Hq; subst.
    unfold abandoned in *. cbn in Hleft.
    destruct Hleft as (Hp & Hr & H1 & H2 & H3).
    pose proof (lookup_lt_Some _ _ _ Hp) as Hltp.
    pose proof (lookup_lt_Some _ _ _ Hr) as Hltr.
    cases; compact; cbn.
    all: rewrite ?lookup_app_l by (rewrite ?length_app; cbn; lia).
    all: repeat split; try assumption.
    all: rewrite ?length_app; cbn; intros [= Heq]; lia.
  - assert (Hstart : undisturbed p result this this).
    { repeat split. rewrite Hq. constructor. }
    destruct (undisturbed_data p result this Hwf Hagree Hleft k r this Hstart)
      as [(Hsame & Hp & Hr & _) _].
    destruct Hsame as (_ & _ & H3 & H4 & H5 & _).
    destruct Hleft as (Hp0 & Hr0 & H1 & H2 & H6).
    unfold abandoned. rewrite Hp, Hr, H3, H4, H5. repeat split; assumption.
  - destruct (flag once_close k this) eqn:Hc.
    + rewrite (close_step this k c Hq Hc). exact Hleft.
    + rewrite (step_unheard (SocketClose k c) this Hq Hc). exact Hleft.
  - destruct (abandoned_adopts p result this Hleft) as [Hadp Hout].
    destruct this as [sk dl fs rs fp sks ps mt]; cbn in Hq; subst.
    unfold abandoned in *. cbn in Hleft.
    destruct Hleft as (Hp & Hr & H1 & H2 & H3).
    exec. destruct (sks !! k) as [sock|] eqn:Hk; exec; [|repeat split; assumption].
    destruct (once_error sock) eqn:He; exec; [|repeat split; assumption].
    rewrite !list_lookup_alter_eq, Hk; exec.
    destruct (acquiring sock) as [a|] eqn:Ha; exec; [|repeat split; assumption].
    assert (Hawait : awaits (view {| socket := sk; disconnectionListener := dl;
                                     fulfillStart := fs; rejectStart := rs;
                                     fulfillStop := fp; sockets := sks;
                                     promises := ps; microtasks := [] |}) k a).
    { unfold awaits, view; cbn. rewrite list_lookup_fmap, Hk; cbn. rewrite Ha.
      reflexivity. }
    destruct (wf_await _ Hwf _ _ Hawait) as [Houta Hnone].
    assert (Hap : result_of a <> p).
    { intros Heq. rewrite Heq in Houta. unfold adopts, handed_out in *. congruence. }
    assert (Har : result_of a <> result).
    { intros Heq. apply (Hnone p). rewrite Heq. exact Hadp. }
    destruct (ps !! result_of a) as [[[] x]|]; exec;
      rewrite ?list_lookup_alter_ne by assumption; repeat split; assumption.
Qed.

Lemma abandoned_run evs this p result :
  wf (view this) ->
  microtasks this = [] ->
  fulfillStart this = rejectStart this ->
  abandoned p result this ->
  abandoned p result (fst (run platform evs this)).
Proof.
  revert this. induction evs as [|ev evs IH]; intros this Hwf Hq Hagree Hleft; cbn;
    [exact Hleft|].
  apply IH.
  - apply (evolves_wf _ _ Hwf), step_evolves, Hq.
  - apply microtasks_step.
  - apply agree_step, Hagree.
  - apply abandoned_step; assumption.
Qed.

Lemma reachable_agree this :
  reachable platform this -> fulfillStart this = rejectStart this.
Proof.
  intros [evs ->].
  assert (H : forall evs st,
            fulfillStart st = rejectStart st ->
            fulfillStart (fst (run platform evs st))
            = rejectStart (fst (run platform evs st))).
  { clear evs. induction evs as [|ev evs IH]; intros st Hst; cbn; [exact Hst|].
    apply IH, agree_step, Hst. }
  apply H. reflexivity.
Qed.

(** X21.  A promise that is left behind never settles.  Take a state
    the instance can be in between two events, in which a promise built in
    [start] or [stop] is pending but none of [fulfillStart], [rejectStart]
    and [fulfillStop] belongs to it any more.  Then, whatever is called and
    whatever arrives afterwards, that promise and the promise held by the
    caller stay pending: the call never completes. *)
Theorem abandoned_call_never_completes :
  forall (this : State) (p result : PromiseId) (evs : list Event),
    reachable platform this ->
    abandoned p result this ->
    settlement_of result (fst (run platform evs this)) = Some Pending
    /\ settlement_of p (fst (run platform evs this)) = Some Pending.
Proof.
  intros this p result evs Hreach Hleft.
  destruct (reachable_wf this Hreach) as [Hwf Hq].
  pose proof (reachable_agree this Hreach) as Hagree.
  destruct (abandoned_run evs this p result Hwf Hq Hagree Hleft) as (Hp & Hr & _).
  unfold settlement_of. rewrite Hp, Hr. split; reflexivity.
Qed.

(** X22.  How a call of [stop] is left behind.  [stop] called while a
    Reset is pending on the stored socket writes a second request and
    stores its own callback over the one of the earlier call: the new
    Reset is pending and the earlier call is left behind. *)
Theorem second_stop_abandons_first :
  forall (this : State) (s : SocketId) (p result : PromiseId),
    let after := step platform CallStop this in
    reachable platform this ->
    socket this = Some s ->
    reset_pending this p result ->
    trace_of after = [SocketWrite s reset_request]
    /\ reset_pending (state_of after) (S (length (promises this))) (length (promises this))
    /\ abandoned p result (state_of after).
Proof.
  intros this s p result after Hreach Hs (Hf & Hp & Hr). subst after.
  destruct (reachable_wf this Hreach) as [Hwf Hq].
  pose proof (reachable_agree this Hreach) as Hagree.
  pose proof (wf_apart _ Hwf) as Hapart. clear Hreach Hwf.
  destruct this as [sk dl fs rs fp sks ps mt];
    cbn in Hq, Hagree, Hapart, Hs, Hf, Hp, Hr; subst.
  pose proof (lookup_lt_Some _ _ _ Hp) as Hltp.
  pose proof (lookup_lt_Some _ _ _ Hr) as Hltr.
  assert (Hne : rs <> Some p) by (intros ->; apply (Hapart p); reflexivity).
  unfold abandoned, reset_pending. cbn [promises].
  exec_run. rewrite !lookup_app_l by lia.
  repeat split; try assumption.
  intros [= Heq]; lia.
Qed.

(** X23.  How a call of [start] is left behind.  When the connection has
    been lost while a Configure was pending, the next [start] that gets a
    socket stores its callbacks over those of the earlier call, which is
    left behind. *)
Theorem start_after_loss_abandons_first :
  forall (this : State) (proxyAddress : string) (p result : PromiseId),
    let s := length (sockets this) in
    let after := fst (run platform [CallStart proxyAddress; SocketConnect s] this) in
    reachable platform this ->
    socket this = None ->
    configure_pending this p result ->
    configure_pending after (S (length (promises this))) (length (promises this))
    /\ abandoned p result after.
Proof.
  intros this proxyAddress p result s after Hreach Hs (Hf & Hf' & Hp & Hr).
  subst s after.
  destruct (reachable_wf this Hreach) as [Hwf Hq].
  pose proof (wf_apart _ Hwf) as Hapart. clear Hreach Hwf.
  destruct this as [sk dl fs rs fp sks ps mt];
    cbn in Hq, Hapart, Hs, Hf, Hf', Hp, Hr; subst.
  pose proof (lookup_lt_Some _ _ _ Hp) as Hltp.
  pose proof (lookup_lt_Some _ _ _ Hr) as Hltr.
  assert (Hne : fp <> Some p) by (apply (Hapart p); reflexivity).
  unfold abandoned, configure_pending. cbn [sockets promises].
  run_events. exec_run. rewrite !lookup_app_l by lia.
  repeat split; try assumption.
  all: intros [= Heq]; lia.
Qed.

(** X24.  Two calls of [start] before the first connection is made.
    [this.socket] is unset at both calls, so each opens a connection of its
    own.  When the two sockets connect, each call writes its request on
    its socket, but the second stores its socket and its callbacks over
    those of the first: the Configure of the second call is pending, the
    first call is left behind, and the first connection stays open with
    its listeners without being the stored socket. *)
Theorem concurrent_starts_abandon_first :
  forall (this : State) (address1 address2 : string),
    let s1 := length (sockets this) in
    let s2 := S s1 in
    let result1 := length (promises this) in
    let result2 := S result1 in
    let r := run platform
               [CallStart address1; CallStart address2;
                SocketConnect s1; SocketConnect s2] this in
    reachable platform this ->
    socket this = None ->
    snd r = [(CallStart address1, [CreateConnection s1 (SERVICE_ADDRESS platform)]);
             (CallStart address2, [CreateConnection s2 (SERVICE_ADDRESS platform)]);
             (SocketConnect s1,
              [ConsoleLog "connected to routing service";
               SocketWrite s1 (configure_request address1)]);
             (SocketConnect s2,
              [ConsoleLog "connected to routing service";
               SocketWrite s2 (configure_request address2)])]
    /\ socket (fst r) = Some s2
    /\ configure_pending (fst r) (S (S result2)) result2
    /\ abandoned (S result2) result1 (fst r)
    /\ closing s1 (fst r).
Proof.
  intros this address1 address2 s1 s2 result1 result2 r Hreach Hs.
  subst s1 s2 result1 result2 r.
  destruct (reachable_wf this Hreach) as [Hwf Hq].
  assert (Hstop : forall q, fulfillStop this = Some q -> q < length (promises this)).
  { intros q Hq'. destruct (wf_stop _ Hwf q Hq') as [o Ho].
    unfold adopts, view in Ho; cbn in Ho.
    apply lookup_lt_Some in Ho. rewrite length_fmap in Ho. exact Ho. }
  clear Hreach Hwf.
  destruct this as [sk dl fs rs fp sks ps mt]; cbn in Hq, Hs, Hstop; subst.
  unfold abandoned, configure_pending, closing. cbn [sockets promises].
  run_events. exec_run.
  repeat split; try reflexivity.
  all: intros [= Heq]; try lia.
  specialize (Hstop _ Heq). lia.
Qed.
End RoutingClient.

(** ** The theorems at work on a run of the client *)

Lemma pending_configure_is_pending :
  RoutingService.configure_pending RoutingService.pending_configure 1 0.
Proof. repeat split; reflexivity. Defined.

Lemma pending_configure_reachable :
  RoutingService.reachable "linux" RoutingService.pending_configure.
Proof.
  exists [RoutingService.CallSetDisconnectionListener (Some 3);
          RoutingService.CallStart "127.0.0.1"; RoutingService.SocketConnect 0].
  reflexivity.
Defined.

Lemma configure_response_settles_start_witness :
  RoutingService.configure_pending RoutingService.pending_configure 1 0
  /\ RoutingService.settlement_of 0
       (state_of (RoutingService.step "linux"
                    (RoutingService.SocketData 0 RoutingService.configure_unsupported)
                    RoutingService.pending_configure))
     = Some (RoutingService.Rejected
               (RoutingService.UnsupportedRoutingTable (Some "unsupported routing table"))).
Proof.
  split; [exact pending_configure_is_pending|].
  destruct (configure_response_settles_start "linux" RoutingService.pending_configure 0
              RoutingService.configure_unsupported 1 0
              eq_refl eq_refl pending_configure_is_pending eq_refl) as (_ & H & _).
  exact (H eq_refl).
Defined.

Lemma start_while_connected_witness :
  RoutingService.socket RoutingService.pending_configure = Some 0
  /\ RoutingService.start "linux" "10.0.0.7" RoutingService.pending_configure
     = (2,
        RoutingService.set_promises
          (RoutingService.promises RoutingService.pending_configure ++
             [{| RoutingService.settlement :=
                   RoutingService.Rejected
                     (RoutingService.JsError "already connected, please call stop first");
                 RoutingService.adopted_by := None |}])
          RoutingService.pending_configure,
        []).
Proof.
  split; [reflexivity|].
  apply (start_while_connected "linux" RoutingService.pending_configure 0 "10.0.0.7").
  reflexivity.
Defined.

Lemma reset_response_resolves_and_ends_witness :
  RoutingService.reset_pending RoutingService.pending_reset 3 2
  /\ trace_of (RoutingService.step "linux"
                 (RoutingService.SocketData 0 RoutingService.reset_failed)
                 RoutingService.pending_reset)
     = [RoutingService.ConsoleLogReceived RoutingService.reset_failed;
        RoutingService.SocketEnd 0;
        RoutingService.Settled 2 RoutingService.Fulfilled].
Proof.
  assert (Hpending : RoutingService.reset_pending RoutingService.pending_reset 3 2)
    by (repeat split; reflexivity).
  split; [exact Hpending|].
  destruct (reset_response_resolves_and_ends "linux" RoutingService.pending_reset 0
              RoutingService.reset_failed eq_refl eq_refl eq_refl) as (_ & _ & _ & H).
  destruct (H 3 2 Hpending) as [Htrace _]. exact Htrace.
Defined.

(** C4 as the specification states it does not hold: while the Configure of
    [pending_configure] is pending, a [statusChanged] message is logged,
    with an error, and the socket is not ended. *)
Lemma status_changed_leaves_socket_open :
  RoutingService.configure_pending RoutingService.pending_configure 1 0
  /\ RoutingService.flag RoutingService.on_data 0 RoutingService.pending_configure = true
  /\ RoutingService.action RoutingService.status_changed
     <> RoutingService.CONFIGURE_ROUTING
  /\ trace_of (RoutingService.step "linux"
                 (RoutingService.SocketData 0 RoutingService.status_changed)
                 RoutingService.pending_configure)
     = [RoutingService.ConsoleLogReceived RoutingService.status_changed;
        RoutingService.ConsoleError
          "unexpected response type received from routing service"]
  /\ ~ In (RoutingService.SocketEnd 0)
         (trace_of (RoutingService.step "linux"
                      (RoutingService.SocketData 0 RoutingService.status_changed)
                      RoutingService.pending_configure)).
Proof.
  split; [exact pending_configure_is_pending|].
  split; [reflexivity|]. split; [discriminate|]. split; [reflexivity|].
  intros [H|[H|[]]]; discriminate.
Qed.

Lemma other_response_while_configure_pending_witness :
  RoutingService.reachable "linux" RoutingService.pending_configure
  /\ RoutingService.configure_pending
       (state_of (RoutingService.step "linux"
                    (RoutingService.SocketData 0 RoutingService.reset_failed)
                    RoutingService.pending_configure)) 1 0.
Proof.
  split; [exact pending_configure_reachable|].
  assert (Hother : RoutingService.action RoutingService.reset_failed
                   <> RoutingService.CONFIGURE_ROUTING) by discriminate.
  destruct (other_response_while_configure_pending "linux"
              RoutingService.pending_configure 0 RoutingService.reset_failed 1 0
              pending_configure_reachable eq_refl pending_configure_is_pending Hother)
    as (_ & H & _).
  exact H.
Defined.

Lemma failed_configure_ends_socket_before_rejection_witness :
  RoutingService.statusCode RoutingService.configure_unsupported <> RoutingService.SUCCESS
  /\ trace_of (RoutingService.step "linux"
                 (RoutingService.SocketData 0 RoutingService.configure_unsupported)
                 RoutingService.pending_configure)
     = [RoutingService.ConsoleLogReceived RoutingService.configure_unsupported;
        RoutingService.SocketEnd 0;
        RoutingService.Settled 0
          (RoutingService.Rejected
             (RoutingService.UnsupportedRoutingTable (Some "unsupported routing table")))].
Proof.
  assert (Hcode : RoutingService.statusCode RoutingService.configure_unsupported
                  <> RoutingService.SUCCESS) by discriminate.
  split; [exact Hcode|].
  destruct (failed_configure_ends_socket_before_rejection "linux"
              RoutingService.pending_configure 0 RoutingService.configure_unsupported 1 0
              eq_refl eq_refl pending_configure_is_pending eq_refl Hcode)
    as (_ & _ & _ & _ & H & _).
  exact H.
Defined.

Lemma disconnect_listener_once_per_connection_witness :
  RoutingService.flag RoutingService.once_close 0 RoutingService.pending_configure = true
  /\ RoutingService.notifications 0
       (snd (RoutingService.run "linux"
               ([RoutingService.SocketData 0 RoutingService.configure_succeeded;
                 RoutingService.CallStop;
                 RoutingService.SocketData 0 RoutingService.reset_failed]
                ++ RoutingService.SocketClose 0 RoutingService.EndedByClient
                :: [RoutingService.SocketClose 0 RoutingService.TransportFailure;
                    RoutingService.CallStart "127.0.0.1";
                    RoutingService.SocketError 0])
               RoutingService.pending_configure))
     = 1.
Proof.
  split; [reflexivity|].
  destruct (disconnect_listener_once_per_connection "linux"
              RoutingService.pending_configure 0
              [RoutingService.SocketData 0 RoutingService.configure_succeeded;
               RoutingService.CallStop;
               RoutingService.SocketData 0 RoutingService.reset_failed]
              [RoutingService.SocketClose 0 RoutingService.TransportFailure;
               RoutingService.CallStart "127.0.0.1";
               RoutingService.SocketError 0]
              RoutingService.EndedByClient eq_refl eq_refl eq_refl)
    as (_ & _ & _ & _ & H).
  exact H.
Defined.

Lemma unexpected_configure_response_witness :
  RoutingService.fulfillStart RoutingService.never_configured = None
  /\ RoutingService.step "linux"
       (RoutingService.SocketData 0 RoutingService.configure_unsupported)
       RoutingService.never_configured
     = (tt, RoutingService.never_configured,
        [RoutingService.ConsoleLogReceived RoutingService.configure_unsupported;
         RoutingService.ConsoleError "unexpected CONFIGURE_ROUTING response";
         RoutingService.SocketEnd 0]).
Proof.
  split; [reflexivity|].
  apply (unexpected_configure_response "linux" RoutingService.never_configured 0
           RoutingService.configure_unsupported eq_refl eq_refl (or_introl eq_refl) eq_refl).
Defined.

(** The whole life of a connection, event by event: Configure, its
    success, Reset, its answer with a failing status, and the close that
    follows the client's [end()]. *)
Example configure_then_reset :
  snd (RoutingService.run "linux"
         [RoutingService.SocketData 0 RoutingService.configure_succeeded;
          RoutingService.CallStop;
          RoutingService.SocketData 0 RoutingService.reset_failed;
          RoutingService.SocketClose 0 RoutingService.EndedByClient;
          RoutingService.SocketClose 0 RoutingService.EndedByClient]
         RoutingService.pending_configure)
  = [(RoutingService.SocketData 0 RoutingService.configure_succeeded,
      [RoutingService.ConsoleLogReceived RoutingService.configure_succeeded;
       RoutingService.Settled 0 RoutingService.Fulfilled]);
     (RoutingService.CallStop,
      [RoutingService.SocketWrite 0 RoutingService.reset_request]);
     (RoutingService.SocketData 0 RoutingService.reset_failed,
      [RoutingService.ConsoleLogReceived RoutingService.reset_failed;
       RoutingService.SocketEnd 0;
       RoutingService.Settled 2 RoutingService.Fulfilled]);
     (RoutingService.SocketClose 0 RoutingService.EndedByClient,
      [RoutingService.ConsoleLog "disconnected from routing service";
       RoutingService.InvokeDisconnectionListener 3 None]);
     (RoutingService.SocketClose 0 RoutingService.EndedByClient, [])].
Proof. reflexivity. Qed.

(** ** The further theorems at work *)

Lemma start_connects_then_configures_witness :
  RoutingService.configure_pending
    (state_of (RoutingService.step "linux" (RoutingService.SocketConnect 0)
                 (state_of (RoutingService.step "linux"
                              (RoutingService.CallStart "127.0.0.1")
                              RoutingService.constructor))))
    1 0.
Proof.
  destruct (start_connects_then_configures "linux" RoutingService.constructor
              "127.0.0.1" eq_refl eq_refl) as (_ & _ & _ & _ & _ & _ & _ & H).
  exact H.
Defined.

Lemma stop_connects_then_resets_witness :
  trace_of (RoutingService.step "linux" (RoutingService.SocketConnect 0)
              (state_of (RoutingService.step "linux" RoutingService.CallStop
                           RoutingService.constructor)))
  = [RoutingService.ConsoleLog "connected to routing service";
     RoutingService.SocketWrite 0 RoutingService.reset_request].
Proof.
  destruct (stop_connects_then_resets "linux" RoutingService.constructor
              eq_refl eq_refl) as (_ & _ & _ & H & _).
  exact H.
Defined.

Lemma stop_writes_on_stored_socket_witness :
  RoutingService.socket RoutingService.pending_configure = Some 0
  /\ trace_of (RoutingService.step "linux" RoutingService.CallStop
                 RoutingService.pending_configure)
     = [RoutingService.SocketWrite 0 RoutingService.reset_request].
Proof.
  split; [reflexivity|].
  destruct (stop_writes_on_stored_socket "linux" RoutingService.pending_configure 0
              eq_refl eq_refl) as (H & _).
  exact H.
Defined.

Lemma failed_connection_rejects_request_witness :
  RoutingService.settlement_of 0
    (fst (RoutingService.run "linux"
            [RoutingService.CallStart "127.0.0.1"; RoutingService.SocketError 0;
             RoutingService.SocketClose 0 RoutingService.TransportFailure]
            RoutingService.constructor))
  = Some (RoutingService.Rejected RoutingService.SystemConfigurationException).
Proof.
  destruct (failed_connection_rejects_request "linux" RoutingService.constructor
              (RoutingService.CallStart "127.0.0.1") RoutingService.TransportFailure
              eq_refl eq_refl eq_refl) as (_ & H & _).
  exact H.
Defined.

Lemma session_round_trip_witness :
  RoutingService.socket
    (fst (RoutingService.run "linux"
            [RoutingService.CallStart "127.0.0.1"; RoutingService.SocketConnect 0;
             RoutingService.SocketData 0 RoutingService.configure_succeeded;
             RoutingService.CallStop;
             RoutingService.SocketData 0 RoutingService.reset_failed;
             RoutingService.SocketClose 0 RoutingService.EndedByClient]
            RoutingService.constructor))
  = None.
Proof.
  destruct (session_round_trip "linux" RoutingService.constructor "127.0.0.1"
              RoutingService.configure_succeeded RoutingService.reset_failed
              RoutingService.EndedByClient eq_refl eq_refl eq_refl eq_refl eq_refl)
    as (_ & H & _).
  exact H.
Defined.

Lemma message_settles_only_witness :
  forallb (RoutingService.data_effect 0)
    (trace_of (RoutingService.step "linux"
                 (RoutingService.SocketData 0 RoutingService.configure_unsupported)
                 RoutingService.pending_configure))
  = true.
Proof.
  destruct (message_settles_only "linux" RoutingService.pending_configure 0
              RoutingService.configure_unsupported eq_refl) as (_ & _ & _ & H).
  exact H.
Defined.

Lemma error_after_connect_changes_nothing_witness :
  RoutingService.acquired 0 RoutingService.pending_configure = true
  /\ trace_of (RoutingService.step "linux" (RoutingService.SocketError 0)
                 RoutingService.pending_configure) = [].
Proof.
  split; [reflexivity|].
  destruct (error_after_connect_changes_nothing "linux" RoutingService.pending_configure 0
              eq_refl eq_refl) as (H & _).
  exact H.
Defined.

Lemma close_settles_nothing_witness :
  RoutingService.configure_pending
    (state_of (RoutingService.step "linux"
                 (RoutingService.SocketClose 0 RoutingService.TransportFailure)
                 RoutingService.pending_configure))
    1 0.
Proof.
  destruct (close_settles_nothing "linux" RoutingService.pending_configure 0
              RoutingService.TransportFailure eq_refl) as (_ & _ & H & _).
  exact (H 1 0 pending_configure_is_pending).
Defined.

Lemma settled_configure_drops_response_witness :
  RoutingService.settlement_of 1 RoutingService.configured
  = Some RoutingService.Fulfilled
  /\ RoutingService.step "linux"
       (RoutingService.SocketData 0 RoutingService.configure_unsupported)
       RoutingService.configured
     = (tt, RoutingService.configured,
        [RoutingService.ConsoleLogReceived RoutingService.configure_unsupported;
         RoutingService.SocketEnd 0]).
Proof.
  split; [reflexivity|].
  assert (Hdone : RoutingService.settlement_of 1 RoutingService.configured
                  <> Some RoutingService.Pending) by discriminate.
  apply (settled_configure_drops_response "linux" RoutingService.configured 0
           RoutingService.configure_unsupported 1 1
           eq_refl eq_refl eq_refl eq_refl Hdone Hdone eq_refl).
Defined.

Lemma reset_response_without_reset_witness :
  RoutingService.fulfillStop RoutingService.pending_configure = None
  /\ RoutingService.step "linux"
       (RoutingService.SocketData 0 RoutingService.reset_failed)
       RoutingService.pending_configure
     = (tt, RoutingService.pending_configure,
        [RoutingService.ConsoleLogReceived RoutingService.reset_failed;
         RoutingService.SocketEnd 0]).
Proof.
  split; [reflexivity|].
  apply (reset_response_without_reset "linux" RoutingService.pending_configure 0
           RoutingService.reset_failed eq_refl eq_refl I eq_refl).
Defined.

Lemma start_callbacks_stay_set_witness :
  RoutingService.armed RoutingService.pending_configure = true
  /\ RoutingService.armed
       (fst (RoutingService.run "linux"
               [RoutingService.SocketData 0 RoutingService.configure_succeeded;
                RoutingService.CallStop;
                RoutingService.SocketData 0 RoutingService.reset_failed;
                RoutingService.SocketClose 0 RoutingService.EndedByClient]
               RoutingService.pending_configure))
     = true.
Proof.
  split; [reflexivity|].
  destruct (start_callbacks_stay_set "linux" RoutingService.pending_configure
              [RoutingService.SocketData 0 RoutingService.configure_succeeded;
               RoutingService.CallStop;
               RoutingService.SocketData 0 RoutingService.reset_failed;
               RoutingService.SocketClose 0 RoutingService.EndedByClient]
              0 RoutingService.configure_unsupported eq_refl eq_refl) as [H _].
  exact H.
Defined.

Lemma start_callbacks_set_together_witness :
  RoutingService.reachable "linux" RoutingService.pending_configure
  /\ RoutingService.fulfillStart RoutingService.pending_configure
     = RoutingService.rejectStart RoutingService.pending_configure.
Proof.
  split; [exact pending_configure_reachable|].
  destruct (start_callbacks_set_together "linux" RoutingService.pending_configure
              pending_configure_reachable) as [H _].
  exact H.
Defined.

Lemma fresh_client_listening : RoutingService.listening RoutingService.constructor.
Proof. intros s Hs. discriminate Hs. Defined.

Lemma pending_configure_listening :
  RoutingService.listening RoutingService.pending_configure.
Proof.
  intros s Hs. injection Hs as <-. split; reflexivity.
Defined.

Lemma stored_socket_has_listeners_witness :
  RoutingService.listening RoutingService.constructor
  /\ RoutingService.flag RoutingService.on_data 0
       (fst (RoutingService.run "linux"
               [RoutingService.CallStart "127.0.0.1"; RoutingService.SocketConnect 0]
               RoutingService.constructor))
     = true.
Proof.
  split; [exact fresh_client_listening|].
  destruct (stored_socket_has_listeners "linux" RoutingService.constructor
              [RoutingService.CallStart "127.0.0.1"; RoutingService.SocketConnect 0] 0
              eq_refl fresh_client_listening eq_refl) as [H _].
  exact H.
Defined.

Lemma requests_go_to_stored_socket_witness :
  In (RoutingService.SocketWrite 0 RoutingService.reset_request)
     (trace_of (RoutingService.step "linux" RoutingService.CallStop
                  RoutingService.pending_configure))
  /\ RoutingService.socket
       (state_of (RoutingService.step "linux" RoutingService.CallStop
                    RoutingService.pending_configure))
     = Some 0.
Proof.
  assert (Hin : In (RoutingService.SocketWrite 0 RoutingService.reset_request)
                  (trace_of (RoutingService.step "linux" RoutingService.CallStop
                               RoutingService.pending_configure)))
    by (left; reflexivity).
  split; [exact Hin|].
  destruct (requests_go_to_stored_socket "linux" RoutingService.pending_configure
              RoutingService.CallStop 0 RoutingService.reset_request
              eq_refl pending_configure_listening Hin) as (H & _).
  exact H.
Defined.

Lemma stopped_twice_reachable :
  RoutingService.reachable "linux" RoutingService.stopped_twice.
Proof.
  exists [RoutingService.CallStart "127.0.0.1"; RoutingService.SocketConnect 0;
          RoutingService.SocketData 0 RoutingService.configure_succeeded;
          RoutingService.CallStop; RoutingService.CallStop].
  reflexivity.
Defined.

Lemma stopped_twice_abandoned :
  RoutingService.abandoned 3 2 RoutingService.stopped_twice.
Proof.
  repeat split; try reflexivity; discriminate.
Defined.

Lemma abandoned_call_never_completes_witness :
  RoutingService.abandoned 3 2 RoutingService.stopped_twice
  /\ RoutingService.settlement_of 2
       (fst (RoutingService.run "linux"
               [RoutingService.SocketData 0 RoutingService.reset_failed;
                RoutingService.SocketData 0 RoutingService.reset_failed;
                RoutingService.SocketClose 0 RoutingService.EndedByClient]
               RoutingService.stopped_twice))
     = Some RoutingService.Pending.
Proof.
  split; [exact stopped_twice_abandoned|].
  destruct (abandoned_call_never_completes "linux" RoutingService.stopped_twice 3 2
              [RoutingService.SocketData 0 RoutingService.reset_failed;
               RoutingService.SocketData 0 RoutingService.reset_failed;
               RoutingService.SocketClose 0 RoutingService.EndedByClient]
              stopped_twice_reachable stopped_twice_abandoned) as [H _].
  exact H.
Defined.

Lemma pending_reset_reachable :
  RoutingService.reachable "linux" RoutingService.pending_reset.
Proof.
  exists [RoutingService.CallStart "127.0.0.1"; RoutingService.SocketConnect 0;
          RoutingService.SocketData 0 RoutingService.configure_succeeded;
          RoutingService.CallStop].
  reflexivity.
Defined.

Lemma pending_reset_is_pending :
  RoutingService.reset_pending RoutingService.pending_reset 3 2.
Proof. repeat split; reflexivity. Defined.

Lemma second_stop_abandons_first_witness :
  RoutingService.reset_pending RoutingService.pending_reset 3 2
  /\ RoutingService.abandoned 3 2
       (state_of (RoutingService.step "linux" RoutingService.CallStop
                    RoutingService.pending_reset)).
Proof.
  split; [exact pending_reset_is_pending|].
  destruct (second_stop_abandons_first "linux" RoutingService.pending_reset 0 3 2
              pending_reset_reachable eq_refl pending_reset_is_pending) as (_ & _ & H).
  exact H.
Defined.

Lemma lost_while_configuring_reachable :
  RoutingService.reachable "linux" RoutingService.lost_while_configuring.
Proof.
  exists [RoutingService.CallStart "127.0.0.1"; RoutingService.SocketConnect 0;
          RoutingService.SocketClose 0 RoutingService.TransportFailure].
  reflexivity.
Defined.

Lemma lost_while_configuring_is_pending :
  RoutingService.configure_pending RoutingService.lost_while_configuring 1 0.
Proof. repeat split; reflexivity. Defined.

Lemma start_after_loss_abandons_first_witness :
  RoutingService.configure_pending RoutingService.lost_while_configuring 1 0
  /\ RoutingService.abandoned 1 0
       (fst (RoutingService.run "linux"
               [RoutingService.CallStart "10.0.0.7"; RoutingService.SocketConnect 1]
               RoutingService.lost_while_configuring)).
Proof.
  split; [exact lost_while_configuring_is_pending|].
  destruct (start_after_loss_abandons_first "linux" RoutingService.lost_while_configuring
              "10.0.0.7" 1 0 lost_while_configuring_reachable eq_refl
              lost_while_configuring_is_pending) as [_ H].
  exact H.
Defined.

Lemma fresh_client_reachable :
  RoutingService.reachable "linux" RoutingService.constructor.
Proof. exists []. reflexivity. Defined.

Lemma concurrent_starts_abandon_first_witness :
  RoutingService.abandoned 2 0
    (fst (RoutingService.run "linux"
            [RoutingService.CallStart "127.0.0.1"; RoutingService.CallStart "10.0.0.7";
             RoutingService.SocketConnect 0; RoutingService.SocketConnect 1]
            RoutingService.constructor)).
Proof.
  destruct (concurrent_starts_abandon_first "linux" RoutingService.constructor
              "127.0.0.1" "10.0.0.7" fresh_client_reachable eq_refl)
    as (_ & _ & _ & H & _).
  exact H.
Defined.
